(** * Dendron engine-server: doctor service, engine client and link utilities

    A shallow embedding of
      - [packages/engine-server/src/utils.ts]       (anchor normalisation,
        note-reference printing and parsing, port-file discovery),
      - [packages/engine-server/src/engineClient.ts] ([refreshNotesV2]),
      - [packages/engine-server/src/doctor/service.ts] ([DoctorService]),
    together with the properties the specification states about them.

    JavaScript strings are modelled as sequences of code units below 256
    ([list ascii] for text that is scanned, [string] for identifiers and map
    keys); JavaScript integers as [Z]. *)

From Stdlib Require Import ZArith Ascii String List Bool Lia.
From Stdlib Require Import DecimalString DecimalZ Permutation Sorted.
From stdpp Require Import base gmap strings list.
Import ListNotations.

Set Warnings "-clear-no-such-hyp".

Local Open Scope Z_scope.
Local Open Scope list_scope.

(* ===================================================================== *)
(** ** The parts of the JavaScript run time the sources rely on            *)
(* ===================================================================== *)

Module JS.

Abbreviation text := (list ascii).

Definition str (s : string) : text := list_ascii_of_string s.

Definition code (c : ascii) : N := N_of_ascii c.

(** [\s] restricted to code units below 256: TAB, LF, VT, FF, CR, SPACE
    and NBSP. *)
Definition isWhitespace (c : ascii) : bool :=
  let n := code c in
  ((9 <=? n) && (n <=? 13) || (n =? 32) || (n =? 160))%N.

Definition isDigit (c : ascii) : bool :=
  let n := code c in ((48 <=? n) && (n <=? 57))%N.

(** [String.prototype.toLowerCase] on code units below 256. *)
Definition lowerChar (c : ascii) : ascii :=
  let n := code c in
  if ((65 <=? n) && (n <=? 90)
      || (192 <=? n) && (n <=? 222) && negb (n =? 215))%N
  then ascii_of_N (n + 32) else c.

Definition toLower (t : text) : text := map lowerChar t.

(** The canonical form used by a regular expression with the [i] flag
    (upper-casing). *)
Definition canonChar (c : ascii) : ascii :=
  let n := code c in
  if ((97 <=? n) && (n <=? 122)
      || (224 <=? n) && (n <=? 254) && negb (n =? 247))%N
  then ascii_of_N (n - 32) else c.

Fixpoint dropWhile (p : ascii -> bool) (t : text) : text :=
  match t with
  | c :: t' => if p c then dropWhile p t' else t
  | [] => []
  end.

Definition dropWhileEnd (p : ascii -> bool) (t : text) : text :=
  rev (dropWhile p (rev t)).

Definition trimWith (p : ascii -> bool) (t : text) : text :=
  dropWhileEnd p (dropWhile p t).

Definition memChar (c : ascii) (chars : text) : bool :=
  existsb (Ascii.eqb c) chars.

(** [_.trim(s)] and [_.trim(s, chars)]. *)
Definition trim (t : text) : text := trimWith isWhitespace t.
Definition trimChars (t chars : text) : text :=
  trimWith (fun c => memChar c chars) t.

(** [s.split(sep)] for a one-character separator: never empty. *)
Fixpoint split (sep : ascii) (t : text) : list text :=
  match t with
  | [] => [[]]
  | c :: t' =>
      if Ascii.eqb c sep then [] :: split sep t'
      else match split sep t' with
           | seg :: segs => (c :: seg) :: segs
           | [] => [[c]]
           end
  end.

(** [parts.join(sep)]. *)
Fixpoint join (sep : text) (parts : list text) : text :=
  match parts with
  | [] => []
  | [p] => p
  | p :: ps => p ++ sep ++ join sep ps
  end.

(** [s.indexOf(c) >= 0]. *)
Definition contains (c : ascii) (t : text) : bool := memChar c t.

Fixpoint isPrefix (p t : text) : bool :=
  match p, t with
  | [], _ => true
  | a :: p', b :: t' => Ascii.eqb a b && isPrefix p' t'
  | _ :: _, [] => false
  end.

Definition isSuffix (p t : text) : bool := isPrefix (rev p) (rev t).

Definition text_eqb (a b : text) : bool :=
  bool_decide (a = b).

(** JavaScript numbers, as far as the sources use them: integers and the
    not-a-number value that [parseInt] returns.  An integer stands for the
    number of that value, which is exact (and printed in plain decimal) below
    2^53 in absolute value. *)
Inductive number := Int (z : Z) | NaN.

(** Truthiness of a number: neither zero nor NaN. *)
Definition truthyNum (n : number) : bool :=
  match n with Int z => negb (z =? 0) | NaN => false end.

(** Template interpolation of a number. *)
Definition numToString (n : number) : text :=
  match n with
  | Int z => str (NilZero.string_of_int (Z.to_int z))
  | NaN => str "NaN"
  end.

Definition digitOf (c : ascii) : option (Decimal.uint -> Decimal.uint) :=
  if Ascii.eqb c "0" then Some Decimal.D0 else
  if Ascii.eqb c "1" then Some Decimal.D1 else
  if Ascii.eqb c "2" then Some Decimal.D2 else
  if Ascii.eqb c "3" then Some Decimal.D3 else
  if Ascii.eqb c "4" then Some Decimal.D4 else
  if Ascii.eqb c "5" then Some Decimal.D5 else
  if Ascii.eqb c "6" then Some Decimal.D6 else
  if Ascii.eqb c "7" then Some Decimal.D7 else
  if Ascii.eqb c "8" then Some Decimal.D8 else
  if Ascii.eqb c "9" then Some Decimal.D9 else None.

(** The longest prefix of decimal digits. *)
Fixpoint digits (t : text) : Decimal.uint :=
  match t with
  | c :: t' =>
      match digitOf c with
      | Some d => d (digits t')
      | None => Decimal.Nil
      end
  | [] => Decimal.Nil
  end.

Definition unsignedInt (t : text) : option Z :=
  match digits t with
  | Decimal.Nil => None
  | d => Some (Z.of_uint d)
  end.

(** [parseInt(s, 10)]: leading white space, an optional sign, then the
    longest run of digits; NaN when there is none. *)
Definition parseInt (t : text) : number :=
  match dropWhile isWhitespace t with
  | c :: t' =>
      if Ascii.eqb c "-" then
        match unsignedInt t' with Some z => Int (- z) | None => NaN end
      else if Ascii.eqb c "+" then
        match unsignedInt t' with Some z => Int z | None => NaN end
      else
        match unsignedInt (c :: t') with Some z => Int z | None => NaN end
  | [] => NaN
  end.

(** The characters of a printed integer. *)
Definition isNumChar (c : ascii) : bool := isDigit c || Ascii.eqb c "-".

(** [path.basename(p, ext)] (POSIX): the last segment of [p] after its
    trailing slashes, without [ext] when the segment ends in it and is not
    [ext] itself; the empty text when [p] is [ext]. *)
Definition lastSegment (p : text) : text :=
  let q := dropWhileEnd (Ascii.eqb "/") p in
  List.last (split "/" q) [].

Definition basename (p ext : text) : text :=
  if text_eqb p ext then [] else
  let seg := lastSegment p in
  if isSuffix ext seg && negb (text_eqb seg ext)
  then firstn (length seg - length ext)%nat seg
  else seg.

End JS.

(** Exceptions: a thrown value ends the computation. *)
Inductive result (A : Type) : Type :=
| Ok (a : A)
| Throw (message : string).
Arguments Ok {A} a.
Arguments Throw {A} message.

#[global] Instance result_bind : MBind result := fun A B f r =>
  match r with
  | Ok a => f a
  | Throw m => Throw m
  end.

#[global] Instance result_ret : MRet result := fun A a => Ok a.

(* ===================================================================== *)
(** ** Regular expressions, as far as [parseFileLink] builds them          *)
(* ===================================================================== *)

Module Regex.
Import JS.

Inductive regex :=
| Lit (c : ascii)                     (* an escaped or plain character *)
| ClassPlus (p : ascii -> bool)       (* [...]+ : greedy, at least one *)
| Cat (r1 r2 : regex)
| Opt (r : regex)                     (* r? : greedy *)
| Group (name : option string) (r : regex).

(** The value of each named group that took part in the match. *)
Definition captures := list (string * text).

Definition getCapture (k : string) (cs : captures) : option text :=
  snd <$> List.find (fun e => String.eqb (fst e) k) cs.

Definition setCapture (name : option string) (v : text) (cs : captures)
  : captures :=
  match name with
  | Some k => (k, v) :: cs
  | None => cs
  end.

(** Greedy [p+] with backtracking: the longest run first, then shorter
    ones, each followed by the continuation [k]. *)
Fixpoint classPlus {R} (p : ascii -> bool) (s : text)
    (k : text -> option R) : option R :=
  match s with
  | c :: s' =>
      if p c then
        match classPlus p s' k with
        | Some r => Some r
        | None => k s'
        end
      else None
  | [] => None
  end.

(** Backtracking matcher in continuation-passing style; [ci] is the
    ignore-case flag. *)
Fixpoint run (ci : bool) (r : regex) (s : text) (cs : captures)
    (k : text -> captures -> option captures) : option captures :=
  match r with
  | Lit c =>
      match s with
      | x :: s' =>
          if (if ci then Ascii.eqb (canonChar x) (canonChar c)
              else Ascii.eqb x c)
          then k s' cs else None
      | [] => None
      end
  | ClassPlus p => classPlus p s (fun s' => k s' cs)
  | Cat r1 r2 => run ci r1 s cs (fun s1 c1 => run ci r2 s1 c1 k)
  | Opt r1 =>
      match run ci r1 s cs k with
      | Some c => Some c
      | None => k s cs
      end
  | Group name r1 =>
      run ci r1 s cs
        (fun s' c' =>
           k s' (setCapture name
                   (firstn (length s - length s')%nat s) c'))
  end.

(** [re.exec(s)?.groups]: the leftmost match. *)
Fixpoint exec (ci : bool) (r : regex) (s : text) : option captures :=
  match run ci r s [] (fun _ c => Some c) with
  | Some c => Some c
  | None =>
      match s with
      | _ :: s' => exec ci r s'
      | [] => None
      end
  end.

End Regex.

(* ===================================================================== *)
(** ** utils.ts                                                            *)
(* ===================================================================== *)

Module Utils.
Import JS Regex.

Record DNoteRefData := {
  dataType : string;
  anchorStart : option text;
  anchorEnd : option text;
  anchorStartOffset : option number;
}.

(** [{ from: { fname }, data, type }] *)
Record DNoteRefLink := {
  fromFname : text;
  data : DNoteRefData;
  linkType : string;
}.

(** Truthiness of an optional string. *)
Definition truthy (o : option text) : bool :=
  match o with
  | Some (_ :: _) => true
  | _ => false
  end.

Definition normalize (t : text) : text :=
  toLower (trimChars t (str " #")).

(** The characters that [_.trim(text, " #")] strips. *)
Definition isSpaceOrHash (c : ascii) : bool := memChar c (str " #").

Section Slugger.
(** The slugger of [getSlugger()]: an object with a [slug] method that
    keeps state between calls. *)
Variable Slugger : Type.
Variable slug : Slugger -> text -> text * Slugger.

Definition normalizev2 (t : text) (slugger : Slugger) : text * Slugger :=
  let u := trimChars t (str " #") in
  if text_eqb u (str "*") then (u, slugger)
  else slug slugger u.
End Slugger.

Record RefLinkOpts := {
  includeParen : bool;
  includeRefTag : bool;
}.

(** [_.defaults(opts, { includeParen: false, includeRefTag: false })] *)
Definition cleanOpts (opts : option RefLinkOpts) : RefLinkOpts :=
  match opts with
  | Some o => o
  | None => {| includeParen := false; includeRefTag := false |}
  end.

Definition refLink2String (link : DNoteRefLink)
    (opts : option RefLinkOpts) : text :=
  let o := cleanOpts opts in
  let d := data link in
  let linkParts := [str "[[" ++ fromFname link ++ str "]]"] in
  let linkParts :=
    if truthy (anchorStart d)
    then linkParts ++ [str "#" ++ normalize (default [] (anchorStart d))]
    else linkParts in
  let linkParts :=
    match anchorStartOffset d with
    | Some n =>
        if truthyNum n then linkParts ++ [str "," ++ numToString n]
        else linkParts
    | None => linkParts
    end in
  let linkParts :=
    if truthy (anchorEnd d)
    then linkParts ++ [str ":#" ++ normalize (default [] (anchorEnd d))]
    else linkParts in
  let linkParts :=
    if includeRefTag o then str "ref: " :: linkParts else linkParts in
  let linkParts :=
    if includeParen o then str "((" :: linkParts ++ [str "))"]
    else linkParts in
  join [] linkParts.

Inductive LinkDirection := from | to.

(** [[^\]:]] *)
Definition wikiChar (c : ascii) : bool :=
  negb (Ascii.eqb c "]" || Ascii.eqb c ":").

(** [/([^\]:]+)/] *)
Definition wikiFileName : regex := Group None (ClassPlus wikiChar).

Definition seq (rs : list regex) (r : regex) : regex :=
  fold_right Cat r rs.

(** The optional part after the closing brackets:
    [#?(?<anchorStart>...)(:#(?<anchorEnd>...))?]. *)
Definition reAnchors : regex :=
  seq [Opt (Lit "#"); Group (Some "anchorStart") wikiFileName]
      (Opt (Group None
              (seq [Lit ":"; Lit "#"]
                   (Group (Some "anchorEnd") wikiFileName)))).

Definition reLink : regex :=
  seq [Lit "["; Lit "["; Group (Some "name") wikiFileName;
       Lit "]"; Lit "]"]
      (Opt (Group None reAnchors)).

Definition parseFileLink (ref : text) : result DNoteRefLink :=
  let groups := exec true reLink ref in
  let fname :=
    g ← groups; v ← getCapture "name" g;
    Some (basename v (str ".md")) in
  let aStart := g ← groups; getCapture "anchorStart" g in
  let aEnd := g ← groups; getCapture "anchorEnd" g in
  match fname with
  | None => Throw "fname is undefined"
  | Some fname =>
      let clean :=
        if truthy aStart && contains "," (default [] aStart) then
          let parts := split "," (default [] aStart) in
          {| dataType := "file";
             anchorStart := Some (nth 0 parts []);
             anchorEnd := aEnd;
             anchorStartOffset := Some (parseInt (nth 1 parts [])) |}
        else
          {| dataType := "file";
             anchorStart := aStart;
             anchorEnd := aEnd;
             anchorStartOffset := None |} in
      Ok {| fromFname := fname; data := clean; linkType := "ref" |}
  end.

Definition parseLink (ref : text) : result DNoteRefLink :=
  if contains "]" ref then parseFileLink ref
  else Throw "parseLink, non-file link, not implemented".

Definition parseDendronRef (ref : text)
  : result (LinkDirection * DNoteRefLink) :=
  let parts := split ":" (trim ref) in
  let idOrRef := hd [] parts in
  let rest := tl parts in
  let cleanArgs := trim (join (str ":") rest) in
  if text_eqb idOrRef (str "ref") then
    link ← parseLink cleanArgs;
    Ok (to, link)
  else Throw "parse non ref not implemented".

(** *** The round trip of a copy link *)

(** [{ includeParen: false, includeRefTag: true }] *)
Definition copyLinkOpts : option RefLinkOpts :=
  Some {| includeParen := false; includeRefTag := true |}.

(** Parsing the copy link of [link] gives the direction [to] and a link
    with the same fname and anchors. *)
Definition parsesBack (link : DNoteRefLink) : Prop :=
  exists link',
    parseDendronRef (refLink2String link copyLinkOpts) = Ok (to, link')
    /\ fromFname link' = fromFname link
    /\ anchorStart (data link') = anchorStart (data link)
    /\ anchorStartOffset (data link') = anchorStartOffset (data link)
    /\ anchorEnd (data link') = anchorEnd (data link).

Definition noneOf (banned : string) (t : text) : bool :=
  forallb (fun c => negb (memChar c (str banned))) t.

Definition normalized (o : option text) : Prop :=
  match o with
  | Some a => normalize a = a
  | None => True
  end.

(** The links the round trip is stated for: no [ ] ] and no [:] in the
    fname, anchors in normalized form. *)
Definition statedLink (link : DNoteRefLink) : Prop :=
  noneOf "]:" (fromFname link) = true
  /\ normalized (anchorStart (data link))
  /\ normalized (anchorEnd (data link)).

(** An anchor that survives the round trip: not empty, in normalized form,
    without white space around it and without the characters in
    [banned]. *)
Definition plainAnchor (banned : string) (a : text) : Prop :=
  a <> [] /\ normalize a = a /\ trim a = a /\ noneOf banned a = true.

(** A link that survives the round trip: its fname is not empty, has no
    [ ] ], [:] or [/] and does not end in [.md]; an anchor that is there is
    plain, the first one without a comma as well; the offset is an integer
    other than zero that a JavaScript number holds exactly; and there is an
    offset or a second anchor only when there is a first anchor. *)
Definition copyable (link : DNoteRefLink) : Prop :=
  fromFname link <> []
  /\ noneOf "]:/" (fromFname link) = true
  /\ isSuffix (str ".md") (fromFname link) = false
  /\ match anchorStart (data link) with
     | Some a =>
         plainAnchor "]:," a
         /\ match anchorStartOffset (data link) with
            | Some (Int z) => z <> 0 /\ Z.abs z < 2 ^ 53
            | Some NaN => False
            | None => True
            end
         /\ match anchorEnd (data link) with
            | Some e => plainAnchor "]:" e
            | None => True
            end
     | None =>
         anchorStartOffset (data link) = None
         /\ anchorEnd (data link) = None
     end.

(** [{ from: { fname } , data: { type: "file", ... }, type: "ref" }] *)
Definition refLink (f : string) (a : option string) (o : option number)
    (e : option string) : DNoteRefLink :=
  {| fromFname := str f;
     data := {| dataType := "file"; anchorStart := str <$> a;
                anchorEnd := str <$> e; anchorStartOffset := o |};
     linkType := "ref" |}.

(** [RespV3<T>]: either data or an error, returned as a value. *)
Inductive RespV3 (E T : Type) : Type :=
| RespData (data : T)
| RespError (error : E).
Arguments RespData {E T} data.
Arguments RespError {E T} error.

Inductive PortTarget := workspace | cli.

Section EngineUtils.
(** [path.join], the constant [CONSTANTS.DENDRON_SERVER_PORT], the file
    system seen through [fs.existsSync], and [ErrorFactory]. *)
Variable pathJoin : text -> text -> text.
Variable DENDRON_SERVER_PORT : text.
Variable existsSync : text -> bool.
Variable DendronError : Type.
Variable create404Error : text -> DendronError.

Definition getPortFilePathForTarget (wsRoot : text)
    (target : PortTarget) : text :=
  let suffix := match target with cli => str ".cli" | workspace => [] end in
  pathJoin wsRoot DENDRON_SERVER_PORT ++ suffix.

Definition getPortFilePathForWorkspace (wsRoot : text) : text :=
  getPortFilePathForTarget wsRoot workspace.

Definition getPortFilePathForCLI (wsRoot : text) : text :=
  getPortFilePathForTarget wsRoot cli.

Definition getPortFilePath (wsRoot : text) : RespV3 DendronError text :=
  let portFilePath := getPortFilePathForWorkspace wsRoot in
  if existsSync portFilePath then RespData portFilePath
  else
    let portFilePath := getPortFilePathForCLI wsRoot in
    if existsSync portFilePath then RespData portFilePath
    else RespError (create404Error portFilePath).
End EngineUtils.

End Utils.

(* ===================================================================== *)
(** ** The data model of common-all that the sources use                   *)
(* ===================================================================== *)

Module Model.

(** Modelled from the spec: the declaration of [DVault] is in common-all,
    outside the sources at hand.  A vault is a storage root referred to by
    name and by path. *)
Record DVault := {
  name : string;
  fsPath : string;
}.

(** Modelled from the spec: [DNoteLoc] (common-all).  A note identity is an
    fname, optionally qualified by the name of a vault. *)
Record DNoteLoc := {
  locFname : string;
  vaultName : option string;
}.

Inductive DLinkType :=
| ref | wiki | md | backlink | linkCandidate | frontmatterTag.

Definition DLinkType_eqb (a b : DLinkType) : bool :=
  match a, b with
  | ref, ref | wiki, wiki | md, md | backlink, backlink
  | linkCandidate, linkCandidate | frontmatterTag, frontmatterTag => true
  | _, _ => false
  end.

(** Modelled from the spec: [DLink] (common-all).  A link is a directional
    edge with a source identity, a target identity and a type; [value] is
    its text and [position] the line and column where it starts. *)
Record DLink := {
  type : DLinkType;
  value : string;
  position : option (nat * nat);
  from : DNoteLoc;
  to : DNoteLoc;
}.

(** Free-form frontmatter values: scalars, and the [pods] table
    [{ airtable: { [podId]: airtableId } }] that the doctor writes. *)
Inductive CustomValue :=
| CString (s : string)
| CPods (podId : string) (airtableId : CustomValue).

(** Modelled from the spec: [NoteProps] (common-all), with the fields the
    sources read or write.  An absent [stub] is [false]. *)
Record NoteProps := {
  id : string;
  fname : string;
  title : string;
  body : string;
  vault : DVault;
  stub : bool;
  links : list DLink;
  children : list string;
  custom : gmap string CustomValue;
}.

Definition setId (n : NoteProps) (i : string) : NoteProps :=
  {| id := i; fname := fname n; title := title n; body := body n;
     vault := vault n; stub := stub n; links := links n;
     children := children n; custom := custom n |}.

Definition setBody (n : NoteProps) (b : string) : NoteProps :=
  {| id := id n; fname := fname n; title := title n; body := b;
     vault := vault n; stub := stub n; links := links n;
     children := children n; custom := custom n |}.

Definition setChildren (n : NoteProps) (c : list string) : NoteProps :=
  {| id := id n; fname := fname n; title := title n; body := body n;
     vault := vault n; stub := stub n; links := links n;
     children := c; custom := custom n |}.

Definition setCustom (n : NoteProps) (c : gmap string CustomValue)
  : NoteProps :=
  {| id := id n; fname := fname n; title := title n; body := body n;
     vault := vault n; stub := stub n; links := links n;
     children := children n; custom := c |}.

Inductive ChangeStatus := create | update | delete.

(** [{ status, note, prevNote? }] *)
Record NoteChangeEntry := {
  status : ChangeStatus;
  note : NoteProps;
  prevNote : option NoteProps;
}.

(** Modelled from the spec: [VaultUtils.getName], [VaultUtils.isEqual] /
    [isEqualV2] and [VaultUtils.getVaultByName] (common-all).  A vault is
    named by its [name], two vaults are the same when they have the same
    storage root, and a vault is looked up by name among the workspace's
    vaults, the first match winning. *)
Definition getName (v : DVault) : string := name v.

Definition isEqual (a b : DVault) : bool := String.eqb (fsPath a) (fsPath b).

Definition getVaultByName (vaults : list DVault) (vname : string)
  : option DVault :=
  List.find (fun v => String.eqb vname (getName v)) vaults.

(** Modelled from the spec: [NoteUtils.getNoteByFnameV5] (common-all): the
    first of [notes] with the given fname in the given vault. *)
Definition getNoteByFnameV5 (fname' : string) (vault' : DVault)
    (notes : list NoteProps) : option NoteProps :=
  List.find (fun ent => String.eqb (fname ent) fname'
                        && isEqual vault' (vault ent)) notes.

(** Modelled from the spec: [LinkUtils.hasVaultPrefix]
    (markdown/remark/utils): the target of the link names a vault. *)
Definition hasVaultPrefix (link : DLink) : bool :=
  match vaultName (to link) with
  | Some (String _ _) => true
  | _ => false
  end.

(** Modelled from the spec: the note that [NoteUtils.create({ fname, vault })]
    (common-all) returns for the destination of a broken link, with the
    fields that the doctor reads: its fname, its newly generated id, and the
    vault as it is handed over at run time, which is [undefined] when the
    non-null assertion on it was wrong.  It is no stub and has no links. *)
Record Destination := {
  dfname : string;
  dvault : option DVault;
  did : string;
}.

(** [_.uniqBy(array, key)]: the first element for each key, in order. *)
Fixpoint uniqByAux {A} (key : A -> string) (seen : list string)
    (l : list A) : list A :=
  match l with
  | [] => []
  | a :: l' =>
      if existsb (String.eqb (key a)) seen then uniqByAux key seen l'
      else a :: uniqByAux key (key a :: seen) l'
  end.

Definition uniqBy {A} (key : A -> string) (l : list A) : list A :=
  uniqByAux key [] l.

(** [_.sortBy(array, key)] with string keys: a stable sort, ascending in
    the order of [<] on strings. *)
Fixpoint insertBy {A} (key : A -> string) (x : A) (l : list A) : list A :=
  match l with
  | [] => [x]
  | y :: l' =>
      if String.leb (key x) (key y) then x :: l
      else y :: insertBy key x l'
  end.

Definition sortBy {A} (key : A -> string) (l : list A) : list A :=
  fold_right (insertBy key) [] l.

(** The order the sort goes by. *)
Definition keyLe {A} (key : A -> string) (a b : A) : Prop :=
  String.leb (key a) (key b) = true.

End Model.

(* ===================================================================== *)
(** ** engineClient.ts                                                     *)
(* ===================================================================== *)

Module EngineClient.
Import Model.

(** Modelled from the spec: [NoteFNamesDict] (common-all), the lookup
    structure from an fname to the set of ids of the notes that have it. *)
Abbreviation NoteFNamesDict := (gmap string (gset string)).

Definition idsOf (d : NoteFNamesDict) (f : string) : gset string :=
  default ∅ (d !! f).

Definition fnamesAdd (n : NoteProps) (d : NoteFNamesDict) : NoteFNamesDict :=
  <[fname n := {[id n]} ∪ idsOf d (fname n)]> d.

Definition fnamesDelete (n : NoteProps) (d : NoteFNamesDict)
  : NoteFNamesDict :=
  alter (fun ids => ids ∖ {[id n]}) (fname n) d.

(** [{ source: "engine", action, uri }], the uri standing for the note. *)
Inductive HistoryEvent :=
| HistoryDelete (n : NoteProps)
| HistoryCreate (n : NoteProps).

(** The fields of [DendronEngineClient] that [refreshNotesV2] touches;
    [fuseIndex] is what the fuzzy index was last given. *)
Record State := {
  notes : gmap string NoteProps;
  noteFnames : NoteFNamesDict;
  history : option (list HistoryEvent);
  fuseIndex : gmap string NoteProps;
}.

Definition historyAdd (h : option (list HistoryEvent)) (e : HistoryEvent)
  : option (list HistoryEvent) :=
  (fun l => l ++ [e]) <$> h.

(** The iteratee of the sort: the title of
    [_.get(this.notes, id, _.find(notes, ...)?.note || { title: "foo" })].
    Ids are taken as plain keys: free of the path syntax of [_.get] and not
    the name of a property that every object has. *)
Definition childTitle (known : gmap string NoteProps)
    (batch : list NoteChangeEntry) (i : string) : string :=
  match known !! i with
  | Some n => title n
  | None =>
      match List.find (fun ent => String.eqb (id (note ent)) i) batch with
      | Some ent => title (note ent)
      | None => "foo"
      end
  end.

(** The body of the [forEach]: one change entry applied to the state. *)
Definition applyEntry (batch : list NoteChangeEntry) (st : State)
    (ent : NoteChangeEntry) : State :=
  let i := id (note ent) in
  match status ent with
  | delete =>
      {| notes := base.delete i (notes st);
         noteFnames := fnamesDelete (note ent) (noteFnames st);
         history := historyAdd (history st) (HistoryDelete (note ent));
         fuseIndex := fuseIndex st |}
  | create =>
      {| notes := <[i := note ent]> (notes st);
         noteFnames := fnamesAdd (note ent) (noteFnames st);
         history := historyAdd (history st) (HistoryCreate (note ent));
         fuseIndex := fuseIndex st |}
  | update =>
      let changed :=
        match prevNote ent with
        | Some p =>
            negb (String.eqb (fname p) (fname (note ent)))
            || negb (String.eqb (id p) (id (note ent)))
        | None => true
        end in
      let fnames :=
        if changed then
          fnamesAdd (note ent)
            (match prevNote ent with
             | Some p => fnamesDelete p (noteFnames st)
             | None => noteFnames st
             end)
        else noteFnames st in
      let sorted :=
        setChildren (note ent)
          (sortBy (childTitle (notes st) batch) (children (note ent))) in
      {| notes := <[i := sorted]> (notes st);
         noteFnames := fnames;
         history := history st;
         fuseIndex := fuseIndex st |}
  end.

Definition refreshNotesV2 (batch : list NoteChangeEntry) (st : State)
  : State :=
  let st' := fold_left (applyEntry batch) batch st in
  {| notes := notes st';
     noteFnames := noteFnames st';
     history := history st';
     fuseIndex := notes st' |}.

End EngineClient.

(* ===================================================================== *)
(** ** doctor/service.ts                                                   *)
(* ===================================================================== *)

Module Doctor.
Import Model.

Inductive DoctorActionsEnum :=
| FIX_FRONTMATTER
| H1_TO_TITLE
| HI_TO_H2
| REMOVE_STUBS
| CREATE_MISSING_LINKED_NOTES
| REGENERATE_NOTE_ID
| FIND_BROKEN_LINKS
| FIX_REMOTE_VAULTS
| FIX_AIRTABLE_METADATA
| ADD_MISSING_DEFAULT_CONFIGS.

(** What the doctor uses of the [DEngineClient] interface: [notes] is the
    dictionary [engine.notes] in the order of its keys, [queryNotesSync]
    the [data] of the answer to a query string. *)
Record DEngineClient := {
  wsRoot : string;
  vaults : list DVault;
  notes : list (string * NoteProps);
  queryNotesSync : string -> list NoteProps;
}.

(** [vault?: DVault | string] *)
Inductive VaultArg := VaultObject (v : DVault) | VaultString (s : string).

Record DoctorServiceOpts := {
  action : DoctorActionsEnum;
  query : option string;
  candidates : option (list NoteProps);
  limit : option Z;
  dryRun : bool;
  exit : option bool;
  quiet : bool;
  engine : DEngineClient;
  podId : option string;
  hierarchy : option string;
  vaultOpt : option VaultArg;
}.

Definition findBrokenLinks (note : NoteProps) (notes : list NoteProps)
    (engine : DEngineClient) : list DLink :=
  let links := links note in
  match links with
  | [] => []
  | _ =>
      List.filter
        (fun link =>
           if negb (DLinkType_eqb (type link) wiki) then false else
           let hasPrefix := hasVaultPrefix link in
           let vault' :=
             if hasPrefix
             then getVaultByName (vaults engine)
                    (default "" (vaultName (to link)))
             else None in
           if hasPrefix && negb (bool_decide (is_Some vault')) then false
           else
             let isMultiVault := (1 <? length (vaults engine))%nat in
             let noteExists :=
               getNoteByFnameV5 (locFname (to link))
                 (if hasPrefix then default (vault note) vault'
                  else vault note)
                 notes in
             if hasPrefix then negb (bool_decide (is_Some noteExists))
             else if negb (bool_decide (is_Some noteExists))
                  then negb isMultiVault
                  else false)
        links
  end.

(** The links collected by the [forEach] of [getBrokenLinkDestinations]. *)
Definition brokenWikiLinks (notes : list NoteProps)
    (engine : DEngineClient) : list DLink :=
  flat_map (fun note => findBrokenLinks note notes engine) notes.

Definition toFname (link : DLink) : string := locFname (to link).

(** A note with this fname exists in this vault. *)
Definition noteIn (f : string) (v : DVault) (notes : list NoteProps) : Prop :=
  exists n, In n notes /\ fname n = f /\ isEqual v (vault n) = true.

Definition truthyString (o : option string) : bool :=
  match o with
  | Some (String _ _) => true
  | _ => false
  end.

Section Service.
(** [genUUID()]: the [n]-th identifier it hands out. *)
Variable genUUID : nat -> string.

(** The vault of the destination of a broken link: the vault that the
    target of the link names, else the vault that its source names.  The
    non-null assertions are erased at run time, so the vault is [undefined]
    when the name is missing or is not that of a vault of the workspace. *)
Definition destVault (engine : DEngineClient) (link : DLink)
  : option DVault :=
  if truthyString (vaultName (to link))
  then getVaultByName (vaults engine) (default "" (vaultName (to link)))
  else
    vname ← vaultName (from link);
    getVaultByName (vaults engine) vname.

Fixpoint createAll (engine : DEngineClient) (ls : list DLink)
    (next : nat) : list Destination * nat :=
  match ls with
  | [] => ([], next)
  | link :: ls' =>
      let '(ds, next') := createAll engine ls' (S next) in
      ({| dfname := toFname link; dvault := destVault engine link;
          did := genUUID next |} :: ds, next')
  end.

(** [next] counts the identifiers generated so far. *)
Definition getBrokenLinkDestinations (notes : list NoteProps)
    (engine : DEngineClient) (next : nat) : list Destination * nat :=
  createAll engine (uniqBy toFname (brokenWikiLinks notes engine)) next.

(** Calls made on the engine, in order.  The throttling wrappers only
    delay a call that is awaited, so they are left out. *)
Inductive EngineCall :=
| writeNote (n : NoteProps) (runHooks : option bool)
    (updateExisting : bool)
| deleteNote (n : NoteProps)
| getNoteByPath (npath : string) (createIfNew : bool) (v : option DVault).

(** One entry of the answer of [FIND_BROKEN_LINKS]. *)
Record BrokenLinkReport := {
  file : string;
  reportVault : string;
  reportLinks : list (string * option (nat * nat));
}.

(** The variables of one run: [numChanges] and [resp] of the source, the
    calls made on the engine, the notes announced by the
    [processing ...] debug line, and the count of generated ids. *)
Record Run := {
  numChanges : Z;
  resp : list BrokenLinkReport;
  calls : list EngineCall;
  processed : list NoteProps;
  uuids : nat;
}.

Definition initRun (next : nat) : Run :=
  {| numChanges := 0; resp := []; calls := []; processed := [];
     uuids := next |}.

Definition addChange (r : Run) : Run :=
  {| numChanges := numChanges r + 1; resp := resp r; calls := calls r;
     processed := processed r; uuids := uuids r |}.

Definition addCall (c : EngineCall) (r : Run) : Run :=
  {| numChanges := numChanges r; resp := resp r;
     calls := calls r ++ [c];
     processed := processed r; uuids := uuids r |}.

Definition addResp (b : BrokenLinkReport) (r : Run) : Run :=
  {| numChanges := numChanges r; resp := resp r ++ [b];
     calls := calls r;
     processed := processed r; uuids := uuids r |}.

Definition addProcessed (n : NoteProps) (r : Run) : Run :=
  {| numChanges := numChanges r; resp := resp r; calls := calls r;
     processed := processed r ++ [n]; uuids := uuids r |}.

Definition nextUuid (r : Run) : Run :=
  {| numChanges := numChanges r; resp := resp r; calls := calls r;
     processed := processed r; uuids := S (uuids r) |}.

(** [engineWrite], [engineDelete], [engineGetNoteByPath]: nothing on a
    dry run. *)
Definition throttled (dry : bool) (c : EngineCall) (r : Run) : Run :=
  if dry then r else addCall c r.

(** The remark processors [RemarkUtils.h1ToTitle] and
    [RemarkUtils.h1ToH2] run by [MDUtilsV4.procFull]: given the note,
    they yield the note as they leave it, the new body and the changes
    they recorded. *)
Inductive RemarkPlugin := h1ToTitle | h1ToH2.
Variable remark :
  RemarkPlugin -> DEngineClient -> NoteProps ->
  NoteProps * string * list NoteChangeEntry.

(** [DConfig.getRaw], [ConfigUtils.detectMissingDefaults],
    [DConfig.createBackup] and [DConfig.writeConfig] taken together. *)
Inductive Backfill :=
| NoBackfill
| BackupFailed
| Backfilled (backupPath : string).
Variable addMissingDefaults : DEngineClient -> Backfill.

Definition DoctorAction := NoteProps -> Run -> NoteProps * Run.

Definition headingAction (plugin : RemarkPlugin) (dry : bool)
    (engine : DEngineClient) : DoctorAction :=
  fun note r =>
    let '(note1, newBody, changes) := remark plugin engine note in
    let note2 := setBody note1 newBody in
    match changes with
    | _ :: _ =>
        (note2, addChange (throttled dry (writeNote note2 None true) r))
    | [] => (note2, r)
    end.

Definition removeStubsAction (dry : bool) : DoctorAction :=
  fun note r =>
    if bool_decide (JS.trim (JS.str (body note)) = [])
    then (note, addChange (throttled dry (deleteNote note) r))
    else (note, r).

(** The action that creates missing notes runs on the destinations. *)
Definition createMissingAction (dry : bool) (note : Destination) (r : Run)
  : Run :=
  addChange
    (throttled dry (getNoteByPath (dfname note) true (dvault note)) r).

Definition regenerateNoteIdAction : DoctorAction :=
  fun note r =>
    if String.eqb (id note) "root" then (note, r)
    else
      let note' := setId note (genUUID (uuids r)) in
      (note',
       addChange (addCall (writeNote note' (Some false) true)
                    (nextUuid r))).

Definition findBrokenLinksAction (notes : list NoteProps)
    (engine : DEngineClient) : DoctorAction :=
  fun note r =>
    match findBrokenLinks note notes engine with
    | [] => (note, r)
    | brokenLinks =>
        (note,
         addResp
           {| file := fname note;
              reportVault := getName (vault note);
              reportLinks :=
                map (fun link => (value link, position link))
                  brokenLinks |} r)
    end.

Definition truthyCustom (o : option CustomValue) : bool :=
  match o with
  | Some (CString EmptyString) | None => false
  | Some _ => true
  end.

Definition fixAirtableAction (podId' : string) : DoctorAction :=
  fun note r =>
    let airtableId := default (CString "") (custom note !! "airtableId") in
    let pods := CPods podId' airtableId in
    let note' := setCustom note (base.delete "airtableId" (custom note)) in
    let updatedNote := setCustom note' (<["pods" := pods]> (custom note')) in
    (note', addCall (writeNote updatedNote None true) r).

(** The loop over the candidates: the limit is looked at between notes
    only.  The notes come back as the actions left them. *)
Fixpoint forNotes (doctorAction : DoctorAction) (limit' : Z)
    (notes : list NoteProps) (r : Run) : list NoteProps * Run :=
  match notes with
  | [] => ([], r)
  | note :: rest =>
      if limit' <=? numChanges r then (notes, r)
      else
        let '(note', r1) := doctorAction note (addProcessed note r) in
        let '(rest', r2) := forNotes doctorAction limit' rest r1 in
        (note' :: rest', r2)
  end.

(** The same loop over the destinations of the broken links: the
    destinations announced by the [processing ...] debug line, and the
    variables of the run. *)
Fixpoint forDestinations (dry : bool) (limit' : Z)
    (dests : list Destination) (r : Run) : list Destination * Run :=
  match dests with
  | [] => ([], r)
  | note :: rest =>
      if limit' <=? numChanges r then ([], r)
      else
        let '(done, r') :=
          forDestinations dry limit' rest (createMissingAction dry note r) in
        (note :: done, r')
  end.

Inductive Resp :=
| RespUndefined
| RespBrokenLinks (l : list BrokenLinkReport)
| RespBackup (backupPath : string).

(** What a run returns ([exit], [resp], [error]), followed by what it
    did: the final variables of the loop, the candidate notes as the
    actions left them and, for the action that creates missing notes, whose
    loop runs over the destinations of the broken links and not over the
    candidate notes, the destinations that the loop announced and
    processed. *)
Record Output := {
  outExit : bool;
  outResp : Resp;
  outError : option string;
  run : Run;
  notesAfter : list NoteProps;
  destinations : list Destination;
}.

Definition early (ex : bool) (rsp : Resp) (err : option string)
    (next : nat) (notes : list NoteProps) : result Output :=
  Ok {| outExit := ex; outResp := rsp; outError := err;
        run := initRun next; notesAfter := notes; destinations := [] |}.

Definition perNote (ex : bool) (isFind : bool)
    (doctorAction : DoctorAction) (limit' : Z)
    (notes : list NoteProps) (r : Run) : result Output :=
  let '(notes', r') := forNotes doctorAction limit' notes r in
  Ok {| outExit := ex;
        outResp := if isFind then RespBrokenLinks (resp r')
                   else RespUndefined;
        outError := None; run := r'; notesAfter := notes';
        destinations := [] |}.

Definition perDestination (ex : bool) (dry : bool) (limit' : Z)
    (dests : list Destination) (notes : list NoteProps) (r : Run)
  : result Output :=
  let '(done, r') := forDestinations dry limit' dests r in
  Ok {| outExit := ex; outResp := RespUndefined; outError := None;
        run := r'; notesAfter := notes; destinations := done |}.

(** [next] counts the identifiers generated before the run. *)
Definition executeDoctorActions (opts : DoctorServiceOpts) (next : nat)
  : result Output :=
  let limit' := default 99999 (limit opts) in
  let exit' := default true (exit opts) in
  let engine := engine opts in
  let dry := dryRun opts in
  let notes :=
    match candidates opts with
    | None =>
        if truthyString (query opts)
        then queryNotesSync engine (default "" (query opts))
        else map snd (notes engine)
    | Some c => c
    end in
  let notes := List.filter (fun n => negb (stub n)) notes in
  match action opts with
  | ADD_MISSING_DEFAULT_CONFIGS =>
      match addMissingDefaults engine with
      | BackupFailed =>
          early true RespUndefined
            (Some "Backup failed. Exiting without filling missing defaults.")
            next notes
      | Backfilled backupPath =>
          early true (RespBackup backupPath) None next notes
      | NoBackfill => early true RespUndefined None next notes
      end
  | FIX_FRONTMATTER => early exit' RespUndefined None next notes
  | H1_TO_TITLE =>
      perNote exit' false (headingAction h1ToTitle dry engine)
        limit' notes (initRun next)
  | HI_TO_H2 =>
      perNote exit' false (headingAction h1ToH2 dry engine)
        limit' notes (initRun next)
  | REMOVE_STUBS =>
      perNote exit' false (removeStubsAction dry)
        limit' notes (initRun next)
  | CREATE_MISSING_LINKED_NOTES =>
      let '(dests, next') := getBrokenLinkDestinations notes engine next in
      perDestination exit' dry limit' dests notes (initRun next')
  | REGENERATE_NOTE_ID =>
      perNote exit' false regenerateNoteIdAction
        limit' notes (initRun next)
  | FIND_BROKEN_LINKS =>
      perNote exit' true (findBrokenLinksAction notes engine)
        limit' notes (initRun next)
  | FIX_REMOTE_VAULTS => early true RespUndefined None next notes
  | FIX_AIRTABLE_METADATA =>
      if negb (truthyString (podId opts))
      then Throw "Please provide the pod Id that was used to export the note(s)."
      else
        let selectedVault :=
          match vaultOpt opts with
          | Some (VaultString s) => getVaultByName (vaults engine) s
          | Some (VaultObject v) => Some v
          | None => None
          end in
        let selectedHierarchy :=
          match query opts with
          | None => hierarchy opts
          | Some q => Some q
          end in
        match selectedVault with
        | Some sv =>
            if negb (truthyString selectedHierarchy)
            then Throw "Please provide the hierarchy and vault"
            else
              let notes :=
                List.filter
                  (fun value =>
                     String.prefix (default "" selectedHierarchy)
                       (fname value)
                     && negb (stub value)
                     && isEqual (vault value) sv
                     && truthyCustom (custom value !! "airtableId"))
                  notes in
              perNote exit' false
                (fixAirtableAction (default "" (podId opts)))
                limit' notes (initRun next)
        | None => Throw "Please provide the hierarchy and vault"
        end
  end.

(** *** Running an action a second time *)





(** The fnames the engine was asked to create a note for. *)
Definition createdPaths (cs : list EngineCall) : list string :=
  flat_map
    (fun c => match c with getNoteByPath p _ _ => [p] | _ => [] end) cs.

(** An action that leaves the record of processed notes alone. *)
Definition keepsProcessed (act : DoctorAction) : Prop :=
  forall n r, processed (snd (act n r)) = processed r.

(** An action that counts what it changes: it raises [numChanges] by one
    at most, and makes no more calls on the engine than it counts. *)
Definition countsChanges (act : DoctorAction) : Prop :=
  forall n r,
    numChanges r <= numChanges (snd (act n r)) <= numChanges r + 1
    /\ exists cs,
         calls (snd (act n r)) = calls r ++ cs
         /\ Z.of_nat (length cs) <= numChanges (snd (act n r)) - numChanges r.

(** What the Airtable action leaves of a note. *)
Definition withoutAirtableId (n : NoteProps) : NoteProps :=
  setCustom n (base.delete "airtableId" (custom n)).

End Service.

End Doctor.

(* ===================================================================== *)
(** ** A small workspace to run the definitions on                         *)
(* ===================================================================== *)

Module Examples.
Import Model Doctor.

Definition v1 : DVault := {| name := "v1"; fsPath := "v1" |}.
Definition v2 : DVault := {| name := "v2"; fsPath := "v2" |}.

Definition wikiLink (target : string) (prefix : option string) : DLink :=
  {| type := wiki; value := target; position := None;
     from := {| locFname := "a"; vaultName := Some "v1" |};
     to := {| locFname := target; vaultName := prefix |} |}.

Definition mkNote (i f b : string) (v : DVault) (ls : list DLink)
    (c : gmap string CustomValue) : NoteProps :=
  {| id := i; fname := f; title := f; body := b; vault := v;
     stub := false; links := ls; children := []; custom := c |}.

(** [a] links to a missing note twice, once with a vault prefix. *)
Definition noteA : NoteProps :=
  mkNote "ida" "a" "text" v1
    [wikiLink "missing" None; wikiLink "b" None;
     wikiLink "missing" (Some "v2")] ∅.

(** [b] has an empty body and links to the same missing note. *)
Definition noteB : NoteProps :=
  mkNote "idb" "b" "" v1 [wikiLink "missing" None] ∅.

(** A stub with an empty body. *)
Definition ghost : NoteProps :=
  {| id := "idg"; fname := "g"; title := "g"; body := ""; vault := v1;
     stub := true; links := []; children := []; custom := ∅ |}.

(** A note whose link says it comes from a vault that the workspace does
    not have. *)
Definition stray : NoteProps :=
  mkNote "ids" "s" "text" v1
    [{| type := wiki; value := "lost"; position := None;
        from := {| locFname := "s"; vaultName := Some "gone" |};
        to := {| locFname := "lost"; vaultName := None |} |}] ∅.


(** A processor that records a change for a note whose body is not empty,
    and empties the body. *)
Definition blanking (p : RemarkPlugin) (e : DEngineClient) (n : NoteProps)
  : NoteProps * string * list NoteChangeEntry :=
  match body n with
  | EmptyString => (n, ""%string, [])
  | _ => (n, ""%string,
          [{| status := update; note := n; prevNote := None |}])
  end.

Definition airtable (i f : string) : NoteProps :=
  mkNote i f "row" v1 [] {[ "airtableId" := CString "rec1" ]}.

Definition oneVault : DEngineClient :=
  {| wsRoot := "/ws"; vaults := [v1];
     notes := [("ida", noteA); ("idb", noteB)];
     queryNotesSync := fun _ => [] |}.

Definition twoVaults : DEngineClient :=
  {| wsRoot := "/ws"; vaults := [v1; v2];
     notes := [("ida", noteA); ("idb", noteB)];
     queryNotesSync := fun _ => [] |}.

(** An id supply, processors that find nothing to change, and a
    configuration with nothing missing. *)
Definition gen (n : nat) : string := String (ascii_of_nat (97 + n)) "-uuid".

Definition idle (p : RemarkPlugin) (e : DEngineClient) (n : NoteProps)
  : NoteProps * string * list NoteChangeEntry := (n, body n, []).

Definition complete (e : DEngineClient) : Backfill := NoBackfill.

Definition options (a : DoctorActionsEnum) (e : DEngineClient)
    (c : option (list NoteProps)) (l : option Z) : DoctorServiceOpts :=
  {| action := a; query := None; candidates := c; limit := l;
     dryRun := false; exit := None; quiet := true; engine := e;
     podId := Some "pod"; hierarchy := Some "t"; vaultOpt := Some (VaultObject v1) |}.

Definition doctor (opts : DoctorServiceOpts) (next : nat) : result Output :=
  executeDoctorActions gen idle complete opts next.

(** The note [child] is renamed from [old.name] to [new.name]; its children
    [k1] (known to the engine as [Zeta]), [k2] (updated in the same batch,
    titled [Alpha]) and [k3] (unknown) get sorted. *)
Definition titled (i f t : string) (kids : list string) : NoteProps :=
  {| id := i; fname := f; title := t; body := ""; vault := v1;
     stub := false; links := []; children := kids; custom := ∅ |}.

Definition renamed : NoteChangeEntry :=
  {| status := update;
     note := titled "child" "new.name" "Child" ["k1"; "k2"; "k3"];
     prevNote := Some (titled "child" "old.name" "Child" ["k1"; "k2"; "k3"]) |}.

Definition sibling : NoteChangeEntry :=
  {| status := update; note := titled "k2" "new.name.k2" "Alpha" [];
     prevNote := None |}.

Definition removed : NoteChangeEntry :=
  {| status := delete;
     note := titled "child" "old.name" "Child" ["k1"; "k2"; "k3"];
     prevNote := None |}.

Definition client : EngineClient.State :=
  {| EngineClient.notes :=
       {[ "child" := titled "child" "old.name" "Child" ["k1"; "k2"; "k3"];
          "k1" := titled "k1" "old.name.k1" "Zeta" [] ]};
     EngineClient.noteFnames :=
       {[ "old.name" := {[ "child" ]}; "old.name.k1" := {[ "k1" ]} ]};
     EngineClient.history := None;
     EngineClient.fuseIndex := ∅ |}.

End Examples.

(* ===================================================================== *)
(** ** Reading the result of a doctor run                                  *)
(* ===================================================================== *)

Module DoctorViews.
Import Model Doctor.

(** The candidates of a run before its action is looked at: the explicit
    list, else the answer to the query, else all notes, without stubs. *)
Definition candidateNotes (opts : DoctorServiceOpts) : list NoteProps :=
  List.filter (fun n => negb (stub n))
    match candidates opts with
    | None =>
        if truthyString (query opts)
        then queryNotesSync (engine opts) (default "" (query opts))
        else map snd (notes (engine opts))
    | Some c => c
    end.

(** [_.trim(note.body) === ""] *)
Definition blank (n : NoteProps) : bool :=
  bool_decide (JS.trim (JS.str (body n)) = []).

Definition hasBrokenLinks (notes : list NoteProps) (engine : DEngineClient)
    (n : NoteProps) : bool :=
  match findBrokenLinks n notes engine with
  | [] => false
  | _ :: _ => true
  end.

(** The entry that the action that finds broken links answers for a
    note. *)
Definition reportOf (notes : list NoteProps) (engine : DEngineClient)
    (n : NoteProps) : BrokenLinkReport :=
  {| file := fname n;
     reportVault := getName (vault n);
     reportLinks :=
       map (fun link => (value link, position link))
         (findBrokenLinks n notes engine) |}.

(** The notes a run had the engine write. *)
Definition writtenNotes (cs : list EngineCall) : list NoteProps :=
  flat_map (fun c => match c with writeNote n _ _ => [n] | _ => [] end) cs.

(** The candidates that the action fixing Airtable metadata selects. *)
Definition airtableCandidate (hierarchy' : string) (sv : DVault)
    (value : NoteProps) : bool :=
  String.prefix hierarchy' (fname value)
  && negb (stub value)
  && isEqual (vault value) sv
  && truthyCustom (custom value !! "airtableId").

(** The note that the action fixing Airtable metadata writes for a
    candidate: [{ ...note, custom: { ...note.custom, pods } }] after
    [delete note.custom["airtableId"]]. *)
Definition airtableWritten (pod : string) (n : NoteProps) : NoteProps :=
  setCustom n
    (<["pods" := CPods pod (default (CString "") (custom n !! "airtableId"))]>
       (base.delete "airtableId" (custom n))).

(** The vault and the hierarchy that the action fixing Airtable metadata
    works on. *)
Definition selectedVault (opts : DoctorServiceOpts) : option DVault :=
  match vaultOpt opts with
  | Some (VaultString s) => getVaultByName (vaults (engine opts)) s
  | Some (VaultObject v) => Some v
  | None => None
  end.

Definition selectedHierarchy (opts : DoctorServiceOpts) : option string :=
  match query opts with
  | None => hierarchy opts
  | Some q => Some q
  end.

Section Remark.
Variable remark :
  RemarkPlugin -> DEngineClient -> NoteProps ->
  NoteProps * string * list NoteChangeEntry.

(** Whether the processor recorded a change for the note. *)
Definition changedBy (plugin : RemarkPlugin) (engine : DEngineClient)
    (n : NoteProps) : bool :=
  match snd (remark plugin engine n) with
  | [] => false
  | _ :: _ => true
  end.

(** The note as the processor left it, with the text it printed as its
    body. *)
Definition rewritten (plugin : RemarkPlugin) (engine : DEngineClient)
    (n : NoteProps) : NoteProps :=
  setBody (fst (fst (remark plugin engine n)))
    (snd (fst (remark plugin engine n))).
End Remark.

(** The call that creates the note of a destination. *)
Definition createCall (d : Destination) : EngineCall :=
  getNoteByPath (dfname d) true (dvault d).

(** The notes a run starts from, stubs included: the explicit list, else
    the answer to the query, else all notes. *)
Definition sourceNotes (opts : DoctorServiceOpts) : list NoteProps :=
  match candidates opts with
  | None =>
      if truthyString (query opts)
      then queryNotesSync (engine opts) (default "" (query opts))
      else map snd (notes (engine opts))
  | Some c => c
  end.


(** *** A second run *)




Section SecondRun.
Variable genUUID : nat -> string.
Variable remark :
  RemarkPlugin -> DEngineClient -> NoteProps ->
  NoteProps * string * list NoteChangeEntry.
Variable addMissingDefaults : DEngineClient -> Backfill.


End SecondRun.

End DoctorViews.

(* ===================================================================== *)
(** ** engineClient.ts: the methods around [refreshNotesV2]                *)
(* ===================================================================== *)

Module EngineClientApi.
Import Model EngineClient.

(** [ERROR_SEVERITY] and the error of an answer of the API. *)
Inductive Severity := MINOR | FATAL.

Record ApiError := {
  message : string;
  severity : option Severity;
}.

(** An answer of the API: [{ data?, error? }]. *)
Record ApiResp (A : Type) := {
  respData : option A;
  respError : option ApiError;
}.
Arguments respData {A} _.
Arguments respError {A} _.

Definition isDelete (ent : NoteChangeEntry) : bool :=
  match status ent with delete => true | _ => false end.

(** What a method leaves behind: the state of the client and the batches
    fired on [onEngineNoteStateChanged], an absent batch being
    [undefined]. *)
Record Effect := {
  state : State;
  fired : list (option (list NoteChangeEntry));
}.

(** An entry as the [forEach] of [refreshNotesV2] leaves it: the children
    of the note of an update entry are sorted in place, so whoever holds the
    entry sees them sorted. *)
Definition sortedEntry (batch : list NoteChangeEntry) (st : State)
    (ent : NoteChangeEntry) : NoteChangeEntry :=
  match status ent with
  | update =>
      {| status := update;
         note := setChildren (note ent)
                   (sortBy (childTitle (notes st) batch)
                      (children (note ent)));
         prevNote := prevNote ent |}
  | _ => ent
  end.

(** The entries of an answer, taken as distinct objects, after
    [refreshNotesV2] was given the array [batch] of those of them that
    [applied] selects: an entry that was applied is as the [forEach] left
    it, the others are as they were. *)
Fixpoint entriesAfter (applied : NoteChangeEntry -> bool)
    (batch data : list NoteChangeEntry) (st : State)
  : list NoteChangeEntry :=
  match data with
  | [] => []
  | ent :: rest =>
      if applied ent
      then sortedEntry batch st ent
           :: entriesAfter applied batch rest (applyEntry batch st ent)
      else ent :: entriesAfter applied batch rest st
  end.

(** [writeNote], given the answer of [api.engineWrite]: with
    [updateExisting] the delete entries are left out of what is applied;
    the event carries the array of the answer, whose entries are the objects
    that [refreshNotesV2] worked on.  [refreshNotesV2] of [undefined] is a
    type error. *)
Definition writeNote (resp : ApiResp (list NoteChangeEntry))
    (updateExisting : bool) (st : State) : result Effect :=
  match respError resp with
  | Some _ => Ok {| state := st; fired := [] |}
  | None =>
      match respData resp with
      | Some data =>
          let applied :=
            fun ent => negb updateExisting || negb (isDelete ent) in
          let changed :=
            if updateExisting
            then List.filter (fun ent => negb (isDelete ent)) data
            else data in
          Ok {| state := refreshNotesV2 changed st;
                fired := [Some (entriesAfter applied changed data st)] |}
      | None =>
          if updateExisting
          then Ok {| state := refreshNotesV2 [] st; fired := [None] |}
          else Throw "TypeError: cannot read properties of undefined"
      end
  end.

(** [updateNote], given the note that [api.engineGetNoteByPath] found, if
    any, and the answer of [api.engineUpdateNote]; the note it returns and
    the note of the entry it fires are the note of the answer, one object,
    as [refreshNotesV2] left it. *)
Definition updateNote (existing : option NoteProps)
    (resp : ApiResp NoteProps) (st : State)
  : result (NoteProps * Effect) :=
  match respData resp with
  | None => Throw "error updating note"
  | Some noteClean =>
      let changeEntry :=
        match existing with
        | Some prev =>
            {| note := noteClean; prevNote := Some prev; status := update |}
        | None =>
            {| status := create; note := noteClean; prevNote := None |}
        end in
      let st' := refreshNotesV2 [changeEntry] st in
      let changeEntry' := sortedEntry [changeEntry] st changeEntry in
      Ok (note changeEntry',
          {| state := st'; fired := [Some [changeEntry']] |})
  end.

(** Modelled from the spec: [new NoteFNamesDict(_.values(notes))]
    (common-all): the lookup structure with every note of the dictionary
    under its fname. *)
Definition fnamesOf (notes : gmap string NoteProps) : NoteFNamesDict :=
  foldr (fun kv d => fnamesAdd (snd kv) d) ∅ (map_to_list notes).

(** [init], given the notes of the answer of [api.workspaceInit]: on an
    error that is not minor the answer's error is returned and nothing is
    loaded. *)
Inductive InitResp :=
| InitError (e : ApiError)
| InitData (notes : gmap string NoteProps) (e : option ApiError).

Definition isMinor (e : ApiError) : bool :=
  match severity e with Some MINOR => true | _ => false end.

Definition init (resp : ApiResp (gmap string NoteProps)) (st : State)
  : result (InitResp * State) :=
  match respError resp with
  | Some e =>
      if negb (isMinor e) then Ok (InitError e, st)
      else
        match respData resp with
        | None => Throw "no data"
        | Some notes' =>
            Ok (InitData notes' (Some e),
                {| notes := notes'; noteFnames := fnamesOf notes';
                   history := history st; fuseIndex := notes' |})
        end
  | None =>
      match respData resp with
      | None => Throw "no data"
      | Some notes' =>
          Ok (InitData notes' None,
              {| notes := notes'; noteFnames := fnamesOf notes';
                 history := history st; fuseIndex := notes' |})
      end
  end.

(** The constructor: no note, an empty [NoteFNamesDict]. *)
Definition fresh (h : option (list HistoryEvent)) : State :=
  {| notes := ∅; noteFnames := ∅; history := h; fuseIndex := ∅ |}.

(** A note written as a draft and renamed when it is final. *)
Definition draft : NoteProps := Examples.titled "x" "draft" "Draft" [].
Definition final : NoteProps := Examples.titled "x" "final" "Final" [].

(** An answer that updates the note [child], listing its children [k3]
    (unknown) and [k1] (known as [Zeta]) in this order, and deletes [k1]. *)
Definition unsorted : NoteProps :=
  Examples.titled "child" "old.name" "Child" ["k3"; "k1"].

Definition reordered : NoteChangeEntry :=
  {| status := update; note := unsorted;
     prevNote :=
       Some (Examples.titled "child" "old.name" "Child"
               ["k1"; "k2"; "k3"]) |}.

Definition removedK1 : NoteChangeEntry :=
  {| status := delete;
     note := Examples.titled "k1" "old.name.k1" "Zeta" [];
     prevNote := None |}.

(** *** Reading the state *)

(** The last entry of a batch for the note with id [i]. *)
Definition lastFor (i : string) (batch : list NoteChangeEntry)
  : option NoteChangeEntry :=
  List.find (fun ent => String.eqb (id (note ent)) i) (rev batch).

(** Every note is stored under its own id. *)
Definition keyed (st : State) : Prop :=
  forall i n, notes st !! i = Some n -> id n = i.

(** The fname index says of an id and an fname exactly that the notes map
    has a note with this id and this fname. *)
Definition indexed (st : State) : Prop :=
  forall f i,
    i ∈ idsOf (noteFnames st) f
    <-> exists n, notes st !! i = Some n /\ fname n = f.

(** An entry that fits the state it is applied to: a created note is new,
    an updated note comes with the note stored under its id as its previous
    note, and a deleted note has the fname of the note stored under its
    id. *)
Definition fits (st : State) (ent : NoteChangeEntry) : Prop :=
  match status ent with
  | create => notes st !! id (note ent) = None
  | update =>
      exists p, prevNote ent = Some p /\ notes st !! id (note ent) = Some p
  | delete =>
      forall n, notes st !! id (note ent) = Some n ->
                fname n = fname (note ent)
  end.

(** Each entry of the batch fits the state that the entries before it
    leave. *)
Fixpoint fitsAll (batch : list NoteChangeEntry) (st : State)
    (l : list NoteChangeEntry) : Prop :=
  match l with
  | [] => True
  | ent :: l' => fits st ent /\ fitsAll batch (applyEntry batch st ent) l'
  end.

End EngineClientApi.

(* ===================================================================== *)
(** ** utils.ts: reference markers, hierarchies and port files             *)
(* ===================================================================== *)

Module RefMarker.
Import JS Regex Utils.

(** [[^)]] *)
Definition notParen (c : ascii) : bool := negb (Ascii.eqb c ")").

(** [/\(\((?<ref>[^)]+)\)\)/] *)
Definition reRefMarker : regex :=
  seq [Lit "("; Lit "("; Group (Some "ref") (ClassPlus notParen); Lit ")"]
      (Lit ")").

(** [txt.match(re)] for an expression without the [g] flag, as far as the
    groups of the match. *)
Definition matchRefMarker (txt : text) : option captures :=
  exec false reRefMarker txt.

(** [{ includeParen, includeRefTag }] *)
Definition refOpts (paren tag : bool) : option RefLinkOpts :=
  Some {| includeParen := paren; includeRefTag := tag |}.

(** Neither the fname nor an anchor of the link has a closing
    parenthesis. *)
Definition parenFree (link : DNoteRefLink) : Prop :=
  noneOf ")" (fromFname link) = true
  /\ noneOf ")" (default [] (anchorStart (data link))) = true
  /\ noneOf ")" (default [] (anchorEnd (data link))) = true.

(** The text has [[[name]]] in it, for a name that is not empty and has
    neither [ ] ] nor [:]. *)
Definition bracketed (ref : text) : Prop :=
  exists pre name post,
    ref = pre ++ str "[[" ++ name ++ str "]]" ++ post
    /\ name <> [] /\ forallb wikiChar name = true.

(** A character that the [i] flag leaves alone. *)
Definition caseless (c : ascii) : Prop :=
  forall x, Ascii.eqb (canonChar x) (canonChar c) = Ascii.eqb x c.

(** The captures have a value for the group [name]. *)
Definition named (cs : captures) : Prop :=
  exists v, getCapture "name" cs = Some v.

End RefMarker.

Module HierarchyUtils.
Import Model.

(** [ids.map((id) => notes[id]).filter((ent) => !_.isUndefined(ent))], ids
    taken as plain keys. *)
Definition lookupAll (notes : gmap string NoteProps) (ids : list string)
  : list NoteProps :=
  omap (fun i => notes !! i) ids.

(** One turn of the loop of [getChildren]. *)
Definition nextLevel (notes : gmap string NoteProps)
    (level : list NoteProps) : list NoteProps :=
  lookupAll notes (flat_map children level).

(** The loop [while (acc !== skipLevels)], which need not end: [None] when
    it is still running after [fuel] turns.  The numbers are integers that a
    JavaScript number holds exactly. *)
Fixpoint loop (fuel : nat) (acc skipLevels : Z)
    (notes : gmap string NoteProps) (level : list NoteProps)
  : option (list NoteProps) :=
  if (acc =? skipLevels)%Z then Some level
  else
    match fuel with
    | O => None
    | S fuel' => loop fuel' (acc + 1)%Z skipLevels notes (nextLevel notes level)
    end.

Definition getChildren (fuel : nat) (skipLevels : Z) (note : NoteProps)
    (notes : gmap string NoteProps) : option (list NoteProps) :=
  loop fuel 0%Z skipLevels notes (lookupAll notes (children note)).

(** [c] is stored under one of the ids that [p] lists as its children. *)
Definition childOf (notes : gmap string NoteProps) (p c : NoteProps)
  : Prop :=
  exists i, In i (children p) /\ notes !! i = Some c.

End HierarchyUtils.

Module Ports.
Import JS Utils.

(** The files of the disk: the text of the file at a path, if there is
    one. *)
Definition FS := text -> option text.

Definition existsSync (fs : FS) (p : text) : bool :=
  match fs p with Some _ => true | None => false end.

(** [fs.writeFileSync(p, content)], the directory being there. *)
Definition writeFileSync (p content : text) (fs : FS) : FS :=
  fun q => if text_eqb q p then Some content else fs q.

(** [-?[0-9]+] *)
Definition isDecimal (t : text) : bool :=
  match t with
  | c :: t' =>
      if Ascii.eqb c "-"
      then match t' with [] => false | _ => forallb isDigit t' end
      else forallb isDigit t
  | [] => false
  end.

Section PortFiles.
(** [path.join], [CONSTANTS.DENDRON_SERVER_PORT], [ErrorFactory], and the
    value of [_.toInteger] on a text that is not a plain decimal integer
    below 2^53 in absolute value. *)
Variable pathJoin : text -> text -> text.
Variable DENDRON_SERVER_PORT : text.
Variable DendronError : Type.
Variable create404Error : text -> DendronError.
Variable toIntegerOther : text -> Z.

(** [_.toInteger] of a text: a plain decimal integer that a number holds
    exactly is read as it stands. *)
Definition toInteger (t : text) : Z :=
  match (if isDecimal t then parseInt t else NaN) with
  | Int z => if (Z.abs z <? 2 ^ 53)%Z then z else toIntegerOther t
  | NaN => toIntegerOther t
  end.

(** [fs.readFileSync] throws when there is no file. *)
Definition openPortFile (fs : FS) (fpath : text) : result Z :=
  match fs fpath with
  | Some content => Ok (toInteger (trim content))
  | None => Throw "ENOENT: no such file or directory"
  end.

Definition getEnginePort (fs : FS) (wsRoot : text)
  : result (RespV3 DendronError Z) :=
  match getPortFilePath pathJoin DENDRON_SERVER_PORT (existsSync fs)
          DendronError create404Error wsRoot with
  | RespError e => Ok (RespError e)
  | RespData fpath =>
      port ← openPortFile fs fpath;
      Ok (RespData port)
  end.

Definition getEnginePortForCLI (fs : FS) (wsRoot : text) : result Z :=
  let portFilePath :=
    getPortFilePathForCLI pathJoin DENDRON_SERVER_PORT wsRoot in
  openPortFile fs portFilePath.

(** [_.toString(port)] is the template interpolation of the number. *)
Definition writeEnginePortForCLI (port : number) (wsRoot : text) (fs : FS)
  : FS :=
  let portFilePath :=
    getPortFilePathForCLI pathJoin DENDRON_SERVER_PORT wsRoot in
  writeFileSync portFilePath (numToString port) fs.

(** [WorkspaceService.writePort] of the workspace service. *)
Definition writePort (port : number) (wsRoot : text) (fs : FS) : FS :=
  let portFilePath :=
    getPortFilePathForWorkspace pathJoin DENDRON_SERVER_PORT wsRoot in
  writeFileSync portFilePath (numToString port) fs.

(** [DendronEngineClient.getPort] of engineClient.ts. *)
Definition getPort (fs : FS) (wsRoot : text) : result Z :=
  let portFile :=
    getPortFilePathForWorkspace pathJoin DENDRON_SERVER_PORT wsRoot in
  if negb (existsSync fs portFile) then Throw "no port file"
  else openPortFile fs portFile.

(** [DendronEngineClient.create], which reads the configuration of the
    workspace and may throw. *)
Variable Engine : Type.
Variable create : FS -> Z -> text -> result Engine.

(** One attempt of [getEngine]: the body of its [try]. *)
Definition attempt (fs : FS) (wsRoot : text) : result Engine :=
  port ← getPort fs wsRoot;
  create fs port wsRoot.

(** [getEngine] with [tries] attempts left, [world k] being the disk at
    the time of attempt [k], five seconds after attempt [k - 1]. *)
Fixpoint tryEngine (world : nat -> FS) (wsRoot : text) (tries now : nat)
  : RespV3 string Engine :=
  match tries with
  | O => RespError "exceeded numTries"
  | S tries' =>
      match attempt (world now) wsRoot with
      | Ok engine => RespData engine
      | Throw _ => tryEngine world wsRoot tries' (S now)
      end
  end.

(** [getEngine] for a whole number of tries, five when none is given. *)
Definition getEngine (numTries : option Z) (world : nat -> FS)
    (wsRoot : text) : RespV3 string Engine :=
  tryEngine world wsRoot (Z.to_nat (default 5%Z numTries)) 0.

End PortFiles.

End Ports.

Module LocalOnly.
Import JS Regex Utils.

(** [.] without the [s] flag: any character but a line terminator (LF and
    CR, the others being above 255). *)
Definition isDot (c : ascii) : bool :=
  negb (Ascii.eqb c "010" || Ascii.eqb c "013").

(** [/(?<raw>.+<!--LOCAL_ONLY_LINE-->)/] *)
Definition reLocalOnly : regex :=
  Group (Some "raw")
    (Cat (ClassPlus isDot)
       (seq (map Lit (str "<!--LOCAL_ONLY_LINE--")) (Lit ">"))).

(** [doc.replace(pat, "")] for a string [pat]: the first occurrence is
    taken out. *)
Fixpoint removeFirst (pat doc : text) : text :=
  if isPrefix pat doc then skipn (length pat) doc
  else
    match doc with
    | c :: doc' => c :: removeFirst pat doc'
    | [] => []
    end.

(** The [do ... while (matches)] loop of [stripLocalOnlyTags]; [None] when
    it is still running after [fuel] turns. *)
Fixpoint stripLocalOnlyTags (fuel : nat) (doc : text) : option text :=
  match exec false reLocalOnly doc with
  | Some groups =>
      match fuel with
      | O => None
      | S fuel' =>
          let raw := default [] (getCapture "raw" groups) in
          stripLocalOnlyTags fuel' (removeFirst raw doc)
      end
  | None => Some doc
  end.

End LocalOnly.

(* ===================================================================== *)
(** ** MoveNoteCommand.ts                                                  *)
(* ===================================================================== *)

Module MoveNote.
Import Model.

(** [RenameNoteOpts] *)
Record RenameNoteOpts := {
  oldLoc : DNoteLoc;
  newLoc : DNoteLoc;
}.

Definition lowerName (f : string) : JS.text := JS.toLower (JS.str f).

Definition isMoveNecessary (move : RenameNoteOpts) : bool :=
  negb (bool_decide (vaultName (oldLoc move) = vaultName (newLoc move)))
  || negb (JS.text_eqb (lowerName (locFname (oldLoc move)))
             (lowerName (locFname (newLoc move)))).

(** What the lookup hands over: the items picked and the answer of the
    accept hook. *)
Record LookupResp := {
  selectedItems : list NoteProps;
  onAcceptHookResp : list RenameNoteOpts;
}.

(** The move of a picked item to the vault named [newVaultName], its fname
    kept. *)
Definition moveTo (newVaultName : option string) (item : NoteProps)
  : RenameNoteOpts :=
  {| oldLoc := {| locFname := fname item;
                  vaultName := Some (getName (vault item)) |};
     newLoc := {| locFname := fname item; vaultName := newVaultName |} |}.

Definition getDesiredMoves (data : LookupResp)
  : result (list RenameNoteOpts) :=
  match selectedItems data with
  | [_] => Ok (onAcceptHookResp data)
  | _ :: _ :: _ =>
      match onAcceptHookResp data with
      | first :: _ =>
          let newVaultName := vaultName (newLoc first) in
          Ok (map (moveTo newVaultName) (selectedItems data))
      | [] => Throw "TypeError: cannot read properties of undefined"
      end
  | [] => Throw "MoveNoteCommand: No items are selected."
  end.

Section Engine.
(** The engine and its [renameNote], which answers with the changes it
    made or throws. *)
Variable Engine : Type.
Variable renameNote :
  Engine -> RenameNoteOpts -> result (list NoteChangeEntry * Engine).

(** The loop of [moveNotes]: one rename after the other. *)
Fixpoint renameAll (moves : list RenameNoteOpts) (engine : Engine)
    (allChanges : list NoteChangeEntry)
  : result (list NoteChangeEntry * Engine) :=
  match moves with
  | [] => Ok (allChanges, engine)
  | move :: rest =>
      r ← renameNote engine move;
      renameAll rest (snd r) (allChanges ++ fst r)
  end.

Definition moveNotes (engine : Engine) (moves : list RenameNoteOpts)
  : result (list NoteChangeEntry * Engine) :=
  let necessaryMoves := List.filter isMoveNecessary moves in
  renameAll necessaryMoves engine [].
End Engine.

(** Whether the item is in a vault of another name than the
    destination. *)
Definition outside (newVaultName : option string) (item : NoteProps)
  : bool :=
  negb (bool_decide (Some (getName (vault item)) = newVaultName)).

End MoveNote.

(* ===================================================================== *)
(** ** Facts about the run-time helpers                                    *)
(* ===================================================================== *)

Module JSFacts.
Import JS.

Lemma dropWhile_split p t :
  exists pre, t = pre ++ dropWhile p t /\ forallb p pre = true.
Proof.
  induction t as [|c t IH]; simpl.
  - exists []. auto.
  - destruct (p c) eqn:E.
    + destruct IH as (pre & Ht & Hp). exists (c :: pre). simpl.
      rewrite E, Hp. split; [congruence | reflexivity].
    + exists []. auto.
Qed.

Lemma dropWhile_head p t c rest :
  dropWhile p t = c :: rest -> p c = false.
Proof.
  induction t as [|a t IH]; simpl; [discriminate|].
  destruct (p a) eqn:E; [exact IH|]. intros [= -> _]. exact E.
Qed.

Lemma dropWhile_id p c t : p c = false -> dropWhile p (c :: t) = c :: t.
Proof. intros H. simpl. now rewrite H. Qed.

Lemma dropWhile_all p pre t :
  forallb p pre = true -> dropWhile p (pre ++ t) = dropWhile p t.
Proof.
  induction pre as [|a pre IH]; simpl; [reflexivity|].
  intros [Ha Hp]%andb_prop. now rewrite Ha, IH.
Qed.

Lemma dropWhileEnd_split p t :
  exists post, t = dropWhileEnd p t ++ post /\ forallb p post = true.
Proof.
  unfold dropWhileEnd.
  destruct (dropWhile_split p (rev t)) as (pre & Ht & Hp).
  exists (rev pre). split.
  - rewrite <- rev_app_distr, <- Ht. now rewrite rev_involutive.
  - rewrite forallb_forall in *. intros x Hx. apply Hp. now apply in_rev.
Qed.

Lemma dropWhileEnd_last p t init c :
  dropWhileEnd p t = init ++ [c] -> p c = false.
Proof.
  unfold dropWhileEnd. intros H.
  apply (f_equal (@rev ascii)) in H.
  rewrite rev_involutive, rev_app_distr in H. simpl in H.
  eapply dropWhile_head; eauto.
Qed.

Lemma dropWhileEnd_id p t c :
  p c = false -> dropWhileEnd p (t ++ [c]) = t ++ [c].
Proof.
  intros H. unfold dropWhileEnd. rewrite rev_app_distr. simpl.
  rewrite H. simpl. now rewrite rev_involutive.
Qed.

Lemma dropWhileEnd_nil p : dropWhileEnd p [] = [].
Proof. reflexivity. Qed.

Lemma dropWhileEnd_head p t c rest :
  dropWhileEnd p t = c :: rest -> exists rest', t = c :: rest'.
Proof.
  intros H. destruct (dropWhileEnd_split p t) as (post & Ht & _).
  rewrite H in Ht. simpl in Ht. eauto.
Qed.

(** What trimming does: it removes a prefix and a suffix made of the
    stripped characters only, and what is left neither starts nor ends
    with one. *)
Lemma trimWith_spec p t :
  (exists pre post,
      t = pre ++ trimWith p t ++ post
      /\ forallb p pre = true /\ forallb p post = true)
  /\ (forall c rest, trimWith p t = c :: rest -> p c = false)
  /\ (forall init c, trimWith p t = init ++ [c] -> p c = false).
Proof.
  unfold trimWith. split; [|split].
  - destruct (dropWhile_split p t) as (pre & Ht & Hp).
    destruct (dropWhileEnd_split p (dropWhile p t)) as (post & Hu & Hq).
    exists pre, post. split; [|auto]. now rewrite <- Hu.
  - intros c rest H. destruct (dropWhileEnd_head _ _ _ _ H) as (r' & Hr).
    eapply dropWhile_head; eauto.
  - intros init c H. eapply dropWhileEnd_last; eauto.
Qed.

Lemma trimWith_id p t :
  (forall c rest, t = c :: rest -> p c = false) ->
  (forall init c, t = init ++ [c] -> p c = false) ->
  trimWith p t = t.
Proof.
  intros Hh Hl. unfold trimWith.
  destruct t as [|c t]; [reflexivity|].
  rewrite dropWhile_id by (eapply Hh; eauto).
  destruct (exists_last (l := c :: t)) as (init & z & Hz); [discriminate|].
  rewrite Hz. apply dropWhileEnd_id. eapply Hl; eauto.
Qed.

(** The text does not end in white space. *)
Lemma cleanEnd_app (x y : text) :
  y <> [] ->
  (forall init c, y = init ++ [c] -> isWhitespace c = false) ->
  forall init c, x ++ y = init ++ [c] -> isWhitespace c = false.
Proof.
  intros Hy H init c E.
  destruct (exists_last Hy) as (y' & c' & ->).
  rewrite app_assoc in E. apply app_inj_tail in E as [_ <-].
  eapply H. reflexivity.
Qed.

Lemma cleanEnd_all (t : text) :
  forallb (fun c => negb (isWhitespace c)) t = true ->
  forall init c, t = init ++ [c] -> isWhitespace c = false.
Proof.
  intros H init c ->. rewrite forallb_app in H.
  apply andb_prop in H as [_ H]. simpl in H.
  now destruct (isWhitespace c).
Qed.

Lemma cleanEnd_trim (t : text) :
  trim t = t ->
  forall init c, t = init ++ [c] -> isWhitespace c = false.
Proof.
  intros Ht init c E. rewrite <- Ht in E.
  eapply (proj2 (proj2 (trimWith_spec isWhitespace t))). exact E.
Qed.

Lemma trim_id (t : text) :
  (forall c rest, t = c :: rest -> isWhitespace c = false) ->
  (forall init c, t = init ++ [c] -> isWhitespace c = false) ->
  trim t = t.
Proof. apply trimWith_id. Qed.

Lemma trim_space (c : ascii) (t : text) :
  isWhitespace c = false ->
  (forall init z, c :: t = init ++ [z] -> isWhitespace z = false) ->
  trim (" "%char :: c :: t) = c :: t.
Proof.
  intros Hc Hl. unfold trim, trimWith.
  change (dropWhile isWhitespace (" "%char :: c :: t))
    with (dropWhile isWhitespace (c :: t)).
  rewrite dropWhile_id by exact Hc.
  destruct (exists_last (l := c :: t)) as (init & z & Hz); [discriminate|].
  rewrite Hz. apply dropWhileEnd_id. eapply Hl; eauto.
Qed.

Lemma split_nonempty sep t : split sep t <> [].
Proof.
  destruct t as [|c t]; simpl; [discriminate|].
  destruct (Ascii.eqb c sep); [discriminate|].
  destruct (split sep t); discriminate.
Qed.

Lemma join_split sep t : join [sep] (split sep t) = t.
Proof.
  induction t as [|c t IH]; simpl; [reflexivity|].
  destruct (Ascii.eqb_spec c sep) as [->|Hne].
  - pose proof (split_nonempty sep t) as Hn.
    destruct (split sep t) as [|seg segs]; [contradiction|].
    simpl in *. now rewrite IH.
  - pose proof (split_nonempty sep t) as Hn.
    destruct (split sep t) as [|seg segs]; [contradiction|].
    simpl in *. destruct segs; simpl in *; now rewrite <- IH.
Qed.

Lemma split_nosep sep t :
  forallb (fun c => negb (Ascii.eqb c sep)) t = true -> split sep t = [t].
Proof.
  induction t as [|c t IH]; simpl; [reflexivity|].
  intros [Hc Ht]%andb_prop. apply negb_true_iff in Hc. rewrite Hc.
  now rewrite IH.
Qed.

Lemma split_app sep p t :
  forallb (fun c => negb (Ascii.eqb c sep)) p = true ->
  split sep (p ++ sep :: t) = p :: split sep t.
Proof.
  induction p as [|c p IH]; simpl.
  - intros _. now rewrite Ascii.eqb_refl.
  - intros [Hc Hp]%andb_prop. apply negb_true_iff in Hc. rewrite Hc.
    now rewrite IH.
Qed.

(** *** Printing and reading integers *)

Ltac ascii_cases c :=
  destruct c as [[] [] [] [] [] [] [] []];
  vm_compute in *; try discriminate; auto.

Lemma isDigit_facts c :
  isDigit c = true ->
  isWhitespace c = false /\ Ascii.eqb c "-" = false
  /\ Ascii.eqb c "+" = false.
Proof. intros H. ascii_cases c. Qed.

Lemma isNumChar_facts c :
  isNumChar c = true ->
  isWhitespace c = false /\ Ascii.eqb c "," = false
  /\ Ascii.eqb c "]" = false /\ Ascii.eqb c ":" = false.
Proof. intros H. ascii_cases c. Qed.

Lemma digits_string_of_uint d :
  digits (str (NilEmpty.string_of_uint d)) = d
  /\ forallb isNumChar (str (NilEmpty.string_of_uint d)) = true.
Proof.
  unfold str.
  induction d as [|d [IH1 IH2]|d [IH1 IH2]|d [IH1 IH2]|d [IH1 IH2]
                  |d [IH1 IH2]|d [IH1 IH2]|d [IH1 IH2]|d [IH1 IH2]
                  |d [IH1 IH2]|d [IH1 IH2]];
    simpl; (split; [now rewrite ?IH1 | exact IH2 || reflexivity]).
Qed.

Lemma string_of_uint_head d :
  d <> Decimal.Nil ->
  NilZero.string_of_uint d = NilEmpty.string_of_uint d
  /\ exists c t,
       str (NilEmpty.string_of_uint d) = c :: t /\ isDigit c = true.
Proof.
  destruct d; [congruence|..]; intros _; (split; [reflexivity|]);
    simpl; eexists; eexists; (split; reflexivity).
Qed.

Lemma unsignedInt_string_of_uint d :
  d <> Decimal.Nil ->
  unsignedInt (str (NilEmpty.string_of_uint d)) = Some (Z.of_uint d).
Proof.
  intros Hd. unfold unsignedInt.
  rewrite (proj1 (digits_string_of_uint d)). destruct d; congruence.
Qed.

Lemma parseInt_numToString z : parseInt (numToString (Int z)) = Int z.
Proof.
  unfold numToString. pose proof (DecimalZ.of_to z) as Hz.
  destruct z as [|p|p]; [reflexivity|..]; simpl in Hz |- *;
    pose proof (DecimalPos.Unsigned.to_uint_nonnil p) as Hn;
    destruct (string_of_uint_head _ Hn) as (-> & c & t & Hs & Hd);
    pose proof (unsignedInt_string_of_uint _ Hn) as Hu.
  - unfold parseInt. rewrite Hs in *.
    destruct (isDigit_facts c Hd) as (Hw & Hm & Hp).
    rewrite dropWhile_id by exact Hw. rewrite Hm, Hp, Hu. now rewrite Hz.
  - unfold parseInt, str in *. simpl. rewrite Hu. now rewrite Hz.
Qed.

Lemma numToString_chars z :
  numToString (Int z) <> []
  /\ forallb isNumChar (numToString (Int z)) = true.
Proof.
  unfold numToString. destruct z as [|p|p]; [split; [discriminate|reflexivity]|..];
    simpl; pose proof (DecimalPos.Unsigned.to_uint_nonnil p) as Hn;
    destruct (string_of_uint_head _ Hn) as (-> & c & t & Hs & Hd);
    destruct (digits_string_of_uint (Pos.to_uint p)) as [_ Hc].
  - split; [now rewrite Hs | exact Hc].
  - unfold str in *. simpl. split; [discriminate | exact Hc].
Qed.

End JSFacts.

(* ===================================================================== *)
(** ** Facts about the matcher                                             *)
(* ===================================================================== *)

Module RegexFacts.
Import JS Regex.

Lemma firstn_prefix {A} (f rest : list A) :
  firstn (length (f ++ rest) - length rest) (f ++ rest) = f.
Proof.
  rewrite length_app, Nat.add_sub.
  rewrite firstn_app, Nat.sub_diag, firstn_all. simpl. apply app_nil_r.
Qed.

(** A greedy class takes the whole run [f] when what follows does not
    start with a character of the class and the rest of the pattern
    matches from there. *)
Lemma classPlus_greedy {R} p (f rest : text) (k : text -> option R) r :
  f <> [] ->
  forallb p f = true ->
  match rest with [] => True | c :: _ => p c = false end ->
  k rest = Some r ->
  classPlus p (f ++ rest) k = Some r.
Proof.
  intros Hf Hp Hstop Hk.
  assert (Hnone : classPlus p rest k = None).
  { destruct rest as [|c rest]; simpl; [reflexivity|]. now rewrite Hstop. }
  induction f as [|c f IH]; [congruence|].
  simpl in Hp. apply andb_prop in Hp as [Hc Hp]. simpl. rewrite Hc.
  destruct f as [|c' f].
  - simpl. rewrite Hnone. exact Hk.
  - rewrite IH; [reflexivity | discriminate | exact Hp].
Qed.

Lemma run_Lit ci c s cs k : run ci (Lit c) (c :: s) cs k = k s cs.
Proof. simpl. destruct ci; now rewrite Ascii.eqb_refl. Qed.

Lemma run_group_classPlus ci name p (f rest : text) cs k r :
  f <> [] ->
  forallb p f = true ->
  match rest with [] => True | c :: _ => p c = false end ->
  k rest (setCapture name f cs) = Some r ->
  run ci (Group name (Group None (ClassPlus p))) (f ++ rest) cs k = Some r.
Proof.
  intros Hf Hp Hstop Hk. simpl.
  apply classPlus_greedy; auto. now rewrite firstn_prefix.
Qed.

Lemma run_Cat ci r1 r2 s cs k :
  run ci (Cat r1 r2) s cs k
  = run ci r1 s cs (fun s1 c1 => run ci r2 s1 c1 k).
Proof. reflexivity. Qed.

Lemma run_Opt_some ci r s cs k c :
  run ci r s cs k = Some c -> run ci (Opt r) s cs k = Some c.
Proof. intros H. simpl. now rewrite H. Qed.

Lemma run_Group_None ci r s cs k :
  run ci (Group None r) s cs k = run ci r s cs k.
Proof. reflexivity. Qed.

Lemma exec_first ci r s c :
  run ci r s [] (fun _ c' => Some c') = Some c -> exec ci r s = Some c.
Proof. intros H. destruct s; simpl; now rewrite H. Qed.

End RegexFacts.

(* ===================================================================== *)
(** ** Facts about utils.ts                                                *)
(* ===================================================================== *)

Module UtilsFacts.
Import JS Regex Utils JSFacts RegexFacts.

(** C8.  [normalizev2] first strips the spaces and [#] characters that
    surround the text ([u] is the text without a prefix and a suffix made of
    those characters, and [u] neither starts nor ends with one); when [u] is
    exactly [*] it is returned as it is and the slugger is not used,
    otherwise the result is the slug of [u]. *)
Theorem normalizev2_strips_then_slugs
    (Slugger : Type) (slug : Slugger -> text -> text * Slugger)
    (t : text) (slugger : Slugger) :
  let u := trimChars t (str " #") in
  (exists pre post,
      t = pre ++ u ++ post
      /\ forallb isSpaceOrHash pre = true
      /\ forallb isSpaceOrHash post = true)
  /\ (forall c rest, u = c :: rest -> isSpaceOrHash c = false)
  /\ (forall init c, u = init ++ [c] -> isSpaceOrHash c = false)
  /\ normalizev2 Slugger slug t slugger =
       if decide (u = str "*") then (str "*", slugger) else slug slugger u.
Proof.
  intros u. subst u. unfold trimChars.
  destruct (trimWith_spec (fun c => memChar c (str " #")) t)
    as (Hsplit & Hhead & Hlast).
  repeat split; auto.
  unfold normalizev2, trimChars, text_eqb.
  destruct (decide (trimWith (fun c => memChar c (str " #")) t = str "*"))
    as [E|E].
  - rewrite bool_decide_eq_true_2 by exact E. now rewrite E.
  - now rewrite bool_decide_eq_false_2 by exact E.
Qed.

Section PortFile.
Variable pathJoin : text -> text -> text.
Variable DENDRON_SERVER_PORT : text.
Variable existsSync : text -> bool.
Variable DendronError : Type.
Variable create404Error : text -> DendronError.

Local Abbreviation wsPath :=
  (getPortFilePathForWorkspace pathJoin DENDRON_SERVER_PORT).
Local Abbreviation cliPath :=
  (getPortFilePathForCLI pathJoin DENDRON_SERVER_PORT).
Local Abbreviation discover :=
  (getPortFilePath pathJoin DENDRON_SERVER_PORT existsSync DendronError
     create404Error).

(** C9.  The port file for the CLI is the port file for the workspace with
    [.cli] appended.  [getPortFilePath] answers with the workspace path when
    that file exists (whether or not the CLI file exists), with the CLI path
    when only that file exists, and with an error value, the 404 error for
    the CLI path, when neither exists. *)
Theorem getPortFilePath_prefers_workspace (wsRoot : text) :
  cliPath wsRoot = wsPath wsRoot ++ str ".cli"
  /\ (existsSync (wsPath wsRoot) = true ->
      discover wsRoot = RespData (wsPath wsRoot))
  /\ (existsSync (wsPath wsRoot) = false ->
      existsSync (cliPath wsRoot) = true ->
      discover wsRoot = RespData (cliPath wsRoot))
  /\ (existsSync (wsPath wsRoot) = false ->
      existsSync (cliPath wsRoot) = false ->
      discover wsRoot = RespError (create404Error (cliPath wsRoot))).
Proof.
  unfold getPortFilePath, getPortFilePathForCLI, getPortFilePathForWorkspace,
    getPortFilePathForTarget.
  rewrite app_nil_r. repeat split.
  - intros ->. reflexivity.
  - intros -> ->. reflexivity.
  - intros -> ->. reflexivity.
Qed.

End PortFile.

(** A workspace where only the CLI engine wrote its port file. *)
Lemma getPortFilePath_prefers_workspace_witness :
  getPortFilePath (fun a b => a ++ str "/" ++ b) (str ".dendron.port")
    (fun p => text_eqb p (str "/ws/.dendron.port.cli")) nat
    (fun _ => 404%nat) (str "/ws")
  = RespData (str "/ws/.dendron.port.cli").
Proof.
  apply (getPortFilePath_prefers_workspace
           (fun a b => a ++ str "/" ++ b) (str ".dendron.port")
           (fun p => text_eqb p (str "/ws/.dendron.port.cli")) nat
           (fun _ => 404%nat) (str "/ws")); reflexivity.
Defined.

(** *** The round trip of a copy link *)

Lemma noneOf_In banned t c :
  noneOf banned t = true -> In c t -> memChar c (str banned) = false.
Proof.
  unfold noneOf. rewrite forallb_forall. intros H Hin.
  apply H in Hin. now apply negb_true_iff in Hin.
Qed.

Lemma noneOf_weaken banned (q : ascii -> bool) t :
  (forall c, memChar c (str banned) = false -> q c = true) ->
  noneOf banned t = true -> forallb q t = true.
Proof.
  intros Hq H. apply forallb_forall. intros c Hc. apply Hq.
  eapply noneOf_In; eauto.
Qed.

Lemma basename_plain f :
  f <> [] -> noneOf "]:/" f = true -> isSuffix (str ".md") f = false ->
  basename f (str ".md") = f.
Proof.
  intros Hf Hn Hs. unfold basename, text_eqb.
  rewrite bool_decide_eq_false_2.
  2:{ intros ->. vm_compute in Hs. discriminate. }
  assert (Hseg : lastSegment f = f).
  { unfold lastSegment.
    assert (Hslash : forallb (fun c => negb (Ascii.eqb c "/")) f = true).
    { eapply noneOf_weaken; [|exact Hn]. intros c Hc.
      unfold memChar in Hc. simpl in Hc.
      repeat (apply orb_false_elim in Hc as [? Hc]). now rewrite H1. }
    destruct (exists_last Hf) as (init & z & ->).
    rewrite dropWhileEnd_id.
    - now rewrite split_nosep.
    - rewrite forallb_app in Hslash. apply andb_prop in Hslash as [_ Hz].
      simpl in Hz. rewrite andb_true_r in Hz. apply negb_true_iff in Hz.
      now rewrite Ascii.eqb_sym. }
  rewrite Hseg, Hs. reflexivity.
Qed.

(** What the matcher finds in the text of a copy link: the fname between
    the brackets, then the anchors. *)
Lemma exec_reLink f A caps :
  f <> [] -> forallb wikiChar f = true ->
  run true (Opt (Group None reAnchors)) A [("name", f)]
    (fun _ c => Some c) = Some caps ->
  exec true reLink (str "[[" ++ f ++ str "]]" ++ A) = Some caps.
Proof.
  intros Hf Hp HA. apply exec_first. unfold reLink, seq. simpl fold_right.
  change (str "[[" ++ f ++ str "]]" ++ A)
    with ("["%char :: "["%char :: f ++ "]"%char :: "]"%char :: A).
  rewrite run_Cat, run_Lit, run_Cat, run_Lit, run_Cat.
  apply run_group_classPlus; [exact Hf | exact Hp | reflexivity |].
  rewrite run_Cat, run_Lit, run_Cat, run_Lit. exact HA.
Qed.

Lemma run_anchors_none cs :
  run true (Opt (Group None reAnchors)) [] cs (fun _ c => Some c) = Some cs.
Proof. reflexivity. Qed.

Lemma run_anchors_start g cs :
  g <> [] -> forallb wikiChar g = true ->
  run true (Opt (Group None reAnchors)) ("#"%char :: g) cs
    (fun _ c => Some c) = Some (("anchorStart", g) :: cs).
Proof.
  intros Hg Hp. apply run_Opt_some. rewrite run_Group_None.
  unfold reAnchors, seq. simpl fold_right.
  rewrite run_Cat. apply run_Opt_some. rewrite run_Lit, run_Cat.
  rewrite <- (app_nil_r g) at 1.
  apply run_group_classPlus; [exact Hg | exact Hp | exact I |].
  reflexivity.
Qed.

Lemma run_anchors_range g e cs :
  g <> [] -> forallb wikiChar g = true ->
  e <> [] -> forallb wikiChar e = true ->
  run true (Opt (Group None reAnchors))
    ("#"%char :: g ++ ":"%char :: "#"%char :: e) cs
    (fun _ c => Some c)
  = Some (("anchorEnd", e) :: ("anchorStart", g) :: cs).
Proof.
  intros Hg Hp He Hq. apply run_Opt_some. rewrite run_Group_None.
  unfold reAnchors, seq. simpl fold_right.
  rewrite run_Cat. apply run_Opt_some. rewrite run_Lit, run_Cat.
  apply run_group_classPlus; [exact Hg | exact Hp | reflexivity |].
  apply run_Opt_some. rewrite run_Group_None.
  rewrite run_Cat, run_Lit, run_Cat, run_Lit.
  rewrite <- (app_nil_r e) at 1.
  apply run_group_classPlus; [exact He | exact Hq | exact I |].
  reflexivity.
Qed.

Lemma wikiChar_plain banned :
  (banned = "]:/" \/ banned = "]:," \/ banned = "]:")%string ->
  forall c, memChar c (str banned) = false -> wikiChar c = true.
Proof.
  unfold wikiChar, memChar.
  intros [-> | [-> | ->]] c; simpl; intros H;
    repeat (apply orb_false_elim in H as [? H]);
    apply negb_true_iff, orb_false_intro; assumption.
Qed.

(** Reading the text of a copy link comes down to reading the link after
    the tag. *)
Lemma parseDendronRef_copy (body : text) c rest :
  body = c :: rest ->
  isWhitespace c = false ->
  (forall init z, body = init ++ [z] -> isWhitespace z = false) ->
  contains "]" body = true ->
  parseDendronRef (str "ref: " ++ body)
  = link ← parseFileLink body; Ok (to, link).
Proof.
  intros Hb Hc Hlast Hcontains. unfold parseDendronRef.
  assert (Htrim : trim (str "ref: " ++ body) = str "ref: " ++ body).
  { apply trim_id.
    - intros x r' E. simpl in E. inversion E. reflexivity.
    - apply cleanEnd_app; [subst; discriminate | exact Hlast]. }
  rewrite Htrim.
  change (str "ref: " ++ body)
    with (str "ref" ++ ":"%char :: " "%char :: body).
  rewrite split_app by reflexivity.
  cbn [hd tl]. change (str ":") with [":"%char]. rewrite join_split.
  rewrite Hb in *. rewrite (trim_space c rest Hc Hlast).
  unfold text_eqb. rewrite bool_decide_eq_true_2 by reflexivity.
  unfold parseLink. now rewrite Hcontains.
Qed.

Lemma copy_text_parses f A caps :
  f <> [] -> noneOf "]:/" f = true -> isSuffix (str ".md") f = false ->
  (forall init z, str "]]" ++ A = init ++ [z] -> isWhitespace z = false) ->
  run true (Opt (Group None reAnchors)) A [("name", f)]
    (fun _ c => Some c) = Some caps ->
  getCapture "name" caps = Some f ->
  parseDendronRef (str "ref: " ++ str "[[" ++ f ++ str "]]" ++ A)
  = Ok (to,
        {| fromFname := f;
           data :=
             let aStart := getCapture "anchorStart" caps in
             let aEnd := getCapture "anchorEnd" caps in
             if truthy aStart && contains "," (default [] aStart) then
               {| dataType := "file";
                  anchorStart :=
                    Some (nth 0 (split "," (default [] aStart)) []);
                  anchorEnd := aEnd;
                  anchorStartOffset :=
                    Some (parseInt (nth 1 (split "," (default [] aStart)) [])) |}
             else
               {| dataType := "file"; anchorStart := aStart;
                  anchorEnd := aEnd; anchorStartOffset := None |};
           linkType := "ref" |}).
Proof.
  intros Hf Hn Hs Hlast Hrun Hname.
  assert (Hw : forallb wikiChar f = true).
  { eapply noneOf_weaken; [|exact Hn]. apply wikiChar_plain. auto. }
  rewrite (parseDendronRef_copy (str "[[" ++ f ++ str "]]" ++ A)
             "[" ("["%char :: f ++ str "]]" ++ A)); try reflexivity.
  - unfold parseFileLink. rewrite (exec_reLink f A caps Hf Hw Hrun).
    cbn [mbind option_bind]. rewrite Hname. cbn [mbind option_bind].
    rewrite (basename_plain f Hf Hn Hs). reflexivity.
  - rewrite app_assoc. apply cleanEnd_app; [discriminate | exact Hlast].
  - unfold contains, memChar. rewrite !existsb_app. simpl.
    now rewrite !orb_true_r.
Qed.

Lemma anchor_without_comma a :
  a <> [] -> noneOf "]:," a = true ->
  truthy (Some a) && contains "," a = false.
Proof.
  intros Ha Hn. apply andb_false_intro2. unfold contains, memChar.
  destruct (existsb (Ascii.eqb ",") a) eqn:E; [|reflexivity].
  apply existsb_exists in E as (c & Hc & Heq).
  apply Ascii.eqb_eq in Heq. subst c.
  pose proof (noneOf_In _ _ _ Hn Hc) as H. vm_compute in H. discriminate.
Qed.

Lemma anchor_with_offset a ds :
  noneOf "]:," a = true -> forallb isNumChar ds = true ->
  truthy (Some (a ++ ","%char :: ds))
  && contains "," (a ++ ","%char :: ds) = true
  /\ split "," (a ++ ","%char :: ds) = [a; ds].
Proof.
  intros Hn Hd. split.
  - apply andb_true_intro. split.
    + now destruct a.
    + unfold contains, memChar. rewrite existsb_app. simpl.
      now rewrite orb_true_r.
  - rewrite split_app.
    + rewrite split_nosep; [reflexivity|].
      apply forallb_forall. intros c Hc.
      rewrite forallb_forall in Hd. apply Hd in Hc.
      apply isNumChar_facts in Hc as (_ & Hc & _). now rewrite Hc.
    + eapply noneOf_weaken; [|exact Hn]. intros c Hc.
      unfold memChar in Hc. simpl in Hc.
      repeat (apply orb_false_elim in Hc as [? Hc]). now rewrite H1.
Qed.

Lemma refLink2String_copy f dt aS aE aO lt :
  refLink2String
    {| fromFname := f;
       data := {| dataType := dt; anchorStart := aS; anchorEnd := aE;
                  anchorStartOffset := aO |};
       linkType := lt |} copyLinkOpts
  = str "ref: " ++ str "[[" ++ f ++ str "]]"
    ++ (if truthy aS then str "#" ++ normalize (default [] aS) else [])
    ++ match aO with
       | Some n => if truthyNum n then str "," ++ numToString n else []
       | None => []
       end
    ++ (if truthy aE then str ":#" ++ normalize (default [] aE) else []).
Proof.
  unfold refLink2String. cbn [cleanOpts copyLinkOpts includeParen
    includeRefTag data anchorStart anchorEnd anchorStartOffset fromFname].
  destruct (truthy aS); destruct aO as [n|]; try destruct (truthyNum n);
    destruct (truthy aE); cbn [join app];
    rewrite <- ?app_assoc, ?app_nil_r; reflexivity.
Qed.

Lemma plainAnchor_facts banned a :
  (banned = "]:," \/ banned = "]:")%string ->
  plainAnchor banned a ->
  truthy (Some a) = true /\ normalize a = a
  /\ forallb wikiChar a = true
  /\ (forall init z, a = init ++ [z] -> isWhitespace z = false).
Proof.
  intros Hb (Ha & Hnorm & Htrim & Hnone). repeat split.
  - now destruct a.
  - exact Hnorm.
  - eapply noneOf_weaken; [|exact Hnone]. apply wikiChar_plain. tauto.
  - now apply cleanEnd_trim.
Qed.

Lemma numChars_wiki ds :
  forallb isNumChar ds = true ->
  forallb wikiChar ds = true
  /\ forallb (fun c => negb (isWhitespace c)) ds = true.
Proof.
  intros H. split; apply forallb_forall; intros c Hc;
    rewrite forallb_forall in H; apply H in Hc;
    apply isNumChar_facts in Hc as (Hw & _ & Hb & Hcol).
  - unfold wikiChar. now rewrite Hb, Hcol.
  - now rewrite Hw.
Qed.

Ltac clean_end x y Hy Hl :=
  let init := fresh "init" in
  let c := fresh "c" in
  let E := fresh "E" in
  intros init c E; apply (cleanEnd_app x y Hy Hl init c);
  rewrite <- E; simpl; rewrite <- ?app_assoc; reflexivity.

(** C7, as amended.  The copy link of a link that is [copyable] (its fname
    is not empty, has no closing bracket, colon or slash and does not end in
    [.md]; its anchors are not empty, in normalized form, free of white
    space around them and of closing brackets and colons, the first one of
    commas too; its offset is an integer other than zero and below 2^53 in
    absolute value; and it has an offset or a second anchor only with a first
    anchor) parses to the direction [to] and to a link with the same fname,
    anchors and offset. *)
Theorem copy_link_round_trip (link : DNoteRefLink) :
  copyable link -> parsesBack link.
Proof.
  destruct link as [f [dt aS aE aO] lt]. unfold copyable, parsesBack.
  cbn [fromFname data anchorStart anchorEnd anchorStartOffset].
  intros (Hf & Hn & Hs & Hanch). rewrite refLink2String_copy.
  destruct aS as [a|].
  - destruct Hanch as (Ha & Hoff & Hend).
    destruct (plainAnchor_facts _ _ (or_introl eq_refl) Ha)
      as (Hta & Hna & Hwa & Hla).
    destruct Ha as (Hane & _ & _ & Hca).
    rewrite Hta. change (default [] (Some a)) with a. rewrite Hna.
    destruct aO as [[z|]|]; [| contradiction |].
    + (* an offset *)
      destruct Hoff as [Hoff _].
      assert (Hz : truthyNum (Int z) = true).
      { simpl. apply negb_true_iff, Z.eqb_neq. exact Hoff. }
      rewrite Hz.
      destruct (numToString_chars z) as [Hdne Hd].
      destruct (numChars_wiki _ Hd) as [Hdw Hdc].
      destruct (anchor_with_offset a (numToString (Int z)) Hca Hd)
        as [Hcomma Hsplit].
      assert (Hg : forallb wikiChar (a ++ ","%char :: numToString (Int z))
                   = true).
      { rewrite forallb_app, Hwa. cbn [forallb].
        rewrite Hdw. reflexivity. }
      destruct aE as [e|].
      * destruct (plainAnchor_facts _ _ (or_intror eq_refl) Hend)
          as (Hte & Hne & Hwe & Hle).
        destruct Hend as (Hene & _).
        rewrite Hte. change (default [] (Some e)) with e. rewrite Hne.
        replace ((str "#" ++ a) ++ (str "," ++ numToString (Int z))
                 ++ str ":#" ++ e)
          with ("#"%char :: (a ++ ","%char :: numToString (Int z))
                ++ ":"%char :: "#"%char :: e)
          by (simpl; now rewrite <- app_assoc).
        erewrite copy_text_parses; eauto.
        2:{ clean_end
              (str "]]" ++ "#"%char :: (a ++ ","%char :: numToString (Int z))
               ++ [":"%char; "#"%char]) e Hene Hle. }
        2:{ apply run_anchors_range; auto. now destruct a. }
        2:{ reflexivity. }
        eexists. split; [reflexivity|].
        cbn [getCapture List.find fst snd String.eqb Ascii.eqb Bool.eqb fmap
             option_fmap option_map default from_option id].
        rewrite Hcomma, Hsplit. cbn [nth].
        rewrite parseInt_numToString. auto.
      * cbn [truthy].
        replace ((str "#" ++ a) ++ (str "," ++ numToString (Int z)) ++ [])
          with ("#"%char :: (a ++ ","%char :: numToString (Int z)))
          by (simpl; now rewrite app_nil_r).
        erewrite copy_text_parses; eauto.
        2:{ clean_end (str "]]" ++ "#"%char :: a ++ [","%char])
              (numToString (Int z)) Hdne (cleanEnd_all _ Hdc). }
        2:{ apply run_anchors_start; auto. now destruct a. }
        2:{ reflexivity. }
        eexists. split; [reflexivity|].
        cbn [getCapture List.find fst snd String.eqb Ascii.eqb Bool.eqb fmap
             option_fmap option_map default from_option id].
        rewrite Hcomma, Hsplit. cbn [nth].
        rewrite parseInt_numToString. auto.
    + (* no offset *)
      pose proof (anchor_without_comma a Hane Hca) as Hnc.
      destruct aE as [e|].
      * destruct (plainAnchor_facts _ _ (or_intror eq_refl) Hend)
          as (Hte & Hne & Hwe & Hle).
        destruct Hend as (Hene & _).
        rewrite Hte. change (default [] (Some e)) with e. rewrite Hne.
        replace ((str "#" ++ a) ++ [] ++ str ":#" ++ e)
          with ("#"%char :: a ++ ":"%char :: "#"%char :: e)
          by reflexivity.
        erewrite copy_text_parses; eauto.
        2:{ clean_end (str "]]" ++ "#"%char :: a ++ [":"%char; "#"%char])
              e Hene Hle. }
        2:{ apply run_anchors_range; auto. }
        2:{ reflexivity. }
        eexists. split; [reflexivity|].
        cbn [getCapture List.find fst snd String.eqb Ascii.eqb Bool.eqb fmap
             option_fmap option_map default from_option id].
        rewrite Hnc. auto.
      * cbn [truthy].
        replace ((str "#" ++ a) ++ [] ++ [])
          with ("#"%char :: a) by (simpl; now rewrite app_nil_r).
        erewrite copy_text_parses; eauto.
        2:{ clean_end (str "]]" ++ ["#"%char]) a Hane Hla. }
        2:{ apply run_anchors_start; auto. }
        2:{ reflexivity. }
        eexists. split; [reflexivity|].
        cbn [getCapture List.find fst snd String.eqb Ascii.eqb Bool.eqb fmap
             option_fmap option_map default from_option id].
        rewrite Hnc. auto.
  - destruct Hanch as [-> ->]. cbn [truthy app].
    rewrite (copy_text_parses f [] [("name", f)] Hf Hn Hs);
      [| apply cleanEnd_all; reflexivity | apply run_anchors_none
       | reflexivity].
    eexists. split; [reflexivity|]. auto.
Qed.

Lemma copy_link_round_trip_witness :
  parsesBack (refLink "dendron.ref" (Some "hello") (Some (Int 3)) (Some "bar")).
Proof.
  apply (copy_link_round_trip
           (refLink "dendron.ref" (Some "hello") (Some (Int 3)) (Some "bar"))).
  unfold copyable, plainAnchor. simpl.
  repeat split; try discriminate; try reflexivity.
Defined.

(** C7, as stated, fails on an anchor with a comma: the copy link of the
    note [foo] with the anchor [hello, world] parses to the anchor [hello]
    with an offset that is not a number. *)
Lemma comma_anchor_does_not_round_trip :
  statedLink (refLink "foo" (Some "hello, world") None None)
  /\ (exists link',
        parseDendronRef
          (refLink2String (refLink "foo" (Some "hello, world") None None)
             copyLinkOpts) = Ok (to, link')
        /\ anchorStart (data link') = Some (str "hello")
        /\ anchorStartOffset (data link') = Some NaN)
  /\ ~ parsesBack (refLink "foo" (Some "hello, world") None None).
Proof.
  split; [|split].
  - repeat split; reflexivity.
  - eexists. split; [vm_compute; reflexivity|]. split; reflexivity.
  - intros (link' & H & _ & Ha & _). vm_compute in H.
    injection H as <-. discriminate Ha.
Qed.

(** Other links that the round trip is stated for and that do not come
    back: a second anchor without a first one, an fname with a slash, an
    fname that ends in [.md], an offset of zero, an anchor with a colon, and
    an anchor that ends in a tab. *)
Lemma other_links_do_not_round_trip :
  Forall (fun link => statedLink link /\ ~ parsesBack link)
    [ refLink "foo" None None (Some "bar");
      refLink "a/b" None None None;
      refLink "foo.md" None None None;
      refLink "foo" (Some "h1") (Some (Int 0)) None;
      refLink "foo" (Some "10:30") None None;
      {| fromFname := str "foo";
         data := {| dataType := "file";
                    anchorStart := Some ["h"; "009"]%char;
                    anchorEnd := None; anchorStartOffset := None |};
         linkType := "ref" |} ].
Proof.
  repeat constructor; try reflexivity;
    intros (link' & H & Hf & Ha & Ho & He); vm_compute in H;
    injection H as <-; discriminate.
Qed.

End UtilsFacts.

(* ===================================================================== *)
(** ** Facts about the data model                                          *)
(* ===================================================================== *)

Module ModelFacts.
Import Model.

Lemma string_compare_trans a b c :
  String.compare a b <> Gt -> String.compare b c <> Gt ->
  String.compare a c <> Gt.
Proof.
  revert b c. induction a as [|x a IH]; intros [|y b] [|z c]; simpl;
    try congruence.
  unfold Ascii.compare.
  destruct (N.compare_spec (N_of_ascii x) (N_of_ascii y));
    destruct (N.compare_spec (N_of_ascii y) (N_of_ascii z));
    destruct (N.compare_spec (N_of_ascii x) (N_of_ascii z));
    try congruence; try lia; eauto.
Qed.

Lemma string_leb_trans a b c :
  String.leb a b = true -> String.leb b c = true -> String.leb a c = true.
Proof.
  unfold String.leb. intros Hab Hbc.
  pose proof (string_compare_trans a b c) as H.
  destruct (String.compare a b); destruct (String.compare b c);
    destruct (String.compare a c); try discriminate; try reflexivity;
    exfalso; apply H; congruence.
Qed.

Section SortBy.
Context {A : Type} (key : A -> string).

Lemma insertBy_perm x l : Permutation (x :: l) (insertBy key x l).
Proof.
  induction l as [|y l IH]; simpl; [reflexivity|].
  destruct (String.leb (key x) (key y)); [reflexivity|].
  rewrite perm_swap. now constructor.
Qed.

Lemma sortBy_perm l : Permutation l (sortBy key l).
Proof.
  induction l as [|x l IH]; simpl; [constructor|].
  rewrite <- insertBy_perm. now constructor.
Qed.

Lemma insertBy_hdRel y x l :
  keyLe key y x -> HdRel (keyLe key) y l -> HdRel (keyLe key) y (insertBy key x l).
Proof.
  intros Hyx Hl. destruct l as [|z l]; simpl.
  - now constructor.
  - inversion Hl; subst.
    destruct (String.leb (key x) (key z)); now constructor.
Qed.

Lemma insertBy_sorted x l :
  Sorted (keyLe key) l -> Sorted (keyLe key) (insertBy key x l).
Proof.
  induction 1 as [|y l Hs IH Hhd]; simpl.
  - repeat constructor.
  - destruct (String.leb (key x) (key y)) eqn:E.
    + constructor; [now constructor|]. now constructor.
    + constructor; [exact IH|].
      apply insertBy_hdRel; [|exact Hhd].
      destruct (String.leb_total (key x) (key y)) as [H|H];
        [congruence | exact H].
Qed.

Lemma sortBy_sorted l : Sorted (keyLe key) (sortBy key l).
Proof.
  induction l as [|x l IH]; simpl; [constructor|].
  now apply insertBy_sorted.
Qed.

Lemma keyLe_trans a b c : keyLe key a b -> keyLe key b c -> keyLe key a c.
Proof. unfold keyLe. apply string_leb_trans. Qed.

Lemma insertBy_stronglySorted x l :
  StronglySorted (keyLe key) l ->
  StronglySorted (keyLe key) (insertBy key x l).
Proof.
  induction 1 as [|y l Hs IH Hall]; simpl.
  - repeat constructor.
  - destruct (String.leb (key x) (key y)) eqn:E.
    + constructor; [now constructor|].
      constructor; [exact E|].
      eapply List.Forall_impl; [|exact Hall].
      intros z Hz. eapply keyLe_trans; [exact E | exact Hz].
    + constructor; [exact IH|].
      eapply Permutation_Forall; [apply insertBy_perm|].
      constructor; [|exact Hall].
      destruct (String.leb_total (key x) (key y)) as [H|H];
        [congruence | exact H].
Qed.

(** The result of the sort is in ascending order of the keys. *)
Lemma sortBy_stronglySorted l : StronglySorted (keyLe key) (sortBy key l).
Proof.
  induction l as [|x l IH]; simpl; [constructor|].
  now apply insertBy_stronglySorted.
Qed.

End SortBy.

Section UniqBy.
Context {A : Type} (key : A -> string).

Lemma existsb_eqb_In (k : string) (seen : list string) :
  existsb (String.eqb k) seen = true <-> In k seen.
Proof.
  rewrite existsb_exists. split.
  - intros (x & Hx & E). apply String.eqb_eq in E. now subst.
  - intros H. exists k. split; [exact H | apply String.eqb_refl].
Qed.

Lemma uniqByAux_keys seen l x :
  In x (uniqByAux key seen l) -> In x l /\ ~ In (key x) seen.
Proof.
  revert seen. induction l as [|a l IH]; simpl; intros seen; [tauto|].
  destruct (existsb (String.eqb (key a)) seen) eqn:E.
  - intros H. apply IH in H. tauto.
  - intros [->|H].
    + split; [auto|]. intros Hin. apply existsb_eqb_In in Hin. congruence.
    + apply IH in H. simpl in H. tauto.
Qed.

Lemma uniqByAux_NoDup seen l : List.NoDup (map key (uniqByAux key seen l)).
Proof.
  revert seen. induction l as [|a l IH]; simpl; intros seen; [constructor|].
  destruct (existsb (String.eqb (key a)) seen); [apply IH|].
  simpl. constructor; [|apply IH].
  intros Hin. apply in_map_iff in Hin as (x & Hk & Hx).
  apply uniqByAux_keys in Hx as [_ Hx]. apply Hx. rewrite Hk. now left.
Qed.

Lemma uniqBy_NoDup l : List.NoDup (map key (uniqBy key l)).
Proof. apply uniqByAux_NoDup. Qed.

Lemma uniqBy_In l x : In x (uniqBy key l) -> In x l.
Proof. intros H. now apply uniqByAux_keys in H. Qed.

Lemma uniqByAux_complete seen l x :
  In x l -> In (key x) seen \/ In (key x) (map key (uniqByAux key seen l)).
Proof.
  revert seen. induction l as [|a l IH]; simpl; intros seen; [tauto|].
  intros [->|H].
  - destruct (existsb (String.eqb (key x)) seen) eqn:E.
    + left. now apply existsb_eqb_In.
    + right. now left.
  - destruct (existsb (String.eqb (key a)) seen) eqn:E.
    + now apply IH.
    + destruct (IH (key a :: seen) H) as [[Hk|Hk]|Hk].
      * right. left. exact Hk.
      * now left.
      * right. now right.
Qed.

(** Every key of the list is still there afterwards. *)
Lemma uniqBy_complete l x :
  In x l -> In (key x) (map key (uniqBy key l)).
Proof.
  intros H. destruct (uniqByAux_complete [] l x H) as [[]|Hk]. exact Hk.
Qed.

End UniqBy.

End ModelFacts.

(* ===================================================================== *)
(** ** Facts about engineClient.ts                                         *)
(* ===================================================================== *)

Module EngineClientFacts.
Import Model EngineClient ModelFacts.

Lemma idsOf_fnamesAdd n d f :
  idsOf (fnamesAdd n d) f =
    if decide (fname n = f) then {[id n]} ∪ idsOf d f else idsOf d f.
Proof.
  unfold idsOf, fnamesAdd. rewrite lookup_insert.
  destruct (decide (fname n = f)) as [->|]; reflexivity.
Qed.

Lemma idsOf_fnamesDelete n d f :
  idsOf (fnamesDelete n d) f =
    if decide (fname n = f) then idsOf d f ∖ {[id n]} else idsOf d f.
Proof.
  unfold idsOf, fnamesDelete. rewrite lookup_alter.
  destruct (decide (fname n = f)) as [->|]; [|reflexivity].
  destruct (d !! f); simpl; [reflexivity|]. (set_unfold; naive_solver).
Qed.

(** C5.  On every update entry, whatever its previous note, the note is
    stored with its children re-sorted by title, where the title of a child
    is that of the note currently in the notes map, else that of the first
    entry of the same batch with this id, else the placeholder title [foo].
    When the previous note differs from the new one in fname or id, it is
    taken out of the fname index and the new note is put in; when there is
    no previous note the new note is put in; and when the previous note has
    the same fname and id the index is left as it is. *)
Theorem update_moves_index_entry_and_sorts_children
    (batch : list NoteChangeEntry) (st : State) (ent : NoteChangeEntry) :
  status ent = update ->
  let st' := applyEntry batch st ent in
  let key := childTitle (notes st) batch in
  (∃ kids : list string,
      notes st' !! id (note ent) = Some (setChildren (note ent) kids)
      ∧ Permutation (children (note ent)) kids
      ∧ StronglySorted (keyLe key) kids)
  ∧ (∀ c n, notes st !! c = Some n → key c = title n)
  ∧ (∀ c pre e post,
        notes st !! c = None → batch = pre ++ e :: post →
        (∀ e', In e' pre → id (note e') ≠ c) → id (note e) = c →
        key c = title (note e))
  ∧ (∀ c, notes st !! c = None →
        (∀ e, In e batch → id (note e) ≠ c) → key c = "foo")
  ∧ (∀ p, prevNote ent = Some p →
        fname p ≠ fname (note ent) ∨ id p ≠ id (note ent) →
        id (note ent) ∈ idsOf (noteFnames st') (fname (note ent))
        ∧ id p ∉ idsOf (noteFnames st') (fname p))
  ∧ (prevNote ent = None →
        id (note ent) ∈ idsOf (noteFnames st') (fname (note ent)))
  ∧ (∀ p, prevNote ent = Some p →
        fname p = fname (note ent) → id p = id (note ent) →
        noteFnames st' = noteFnames st).
Proof.
  intros Hst st' key. subst st' key.
  unfold applyEntry. rewrite Hst. simpl. repeat split.
  - eexists. split; [apply lookup_insert_eq|]. split.
    + apply sortBy_perm.
    + apply sortBy_stronglySorted.
  - intros c n Hc. unfold childTitle. now rewrite Hc.
  - intros c pre e post Hc -> Hpre He. unfold childTitle. rewrite Hc.
    assert (Hf : List.find (fun ent0 => String.eqb (id (note ent0)) c)
                   (pre ++ e :: post) = Some e).
    { clear -Hpre He. induction pre as [|a pre IH]; simpl.
      - apply String.eqb_eq in He. now rewrite He.
      - assert (Ha : String.eqb (id (note a)) c = false).
        { apply String.eqb_neq, Hpre. now left. }
        rewrite Ha. apply IH. intros e' He'. apply Hpre. now right. }
    now rewrite Hf.
  - intros c Hc Hb. unfold childTitle. rewrite Hc.
    destruct (List.find _ batch) as [e|] eqn:Hf; [|reflexivity].
    apply find_some in Hf as [Hin E]. apply String.eqb_eq in E.
    now apply Hb in Hin.
  - rewrite H.
    assert (Hch : negb (String.eqb (fname p) (fname (note ent)))
                  || negb (String.eqb (id p) (id (note ent))) = true).
    { apply orb_true_iff. destruct H0 as [H0|H0]; [left|right];
        apply negb_true_iff, String.eqb_neq; exact H0. }
    rewrite Hch, idsOf_fnamesAdd, decide_True by reflexivity.
    (set_unfold; naive_solver).
  - rewrite H.
    assert (Hch : negb (String.eqb (fname p) (fname (note ent)))
                  || negb (String.eqb (id p) (id (note ent))) = true).
    { apply orb_true_iff. destruct H0 as [H0|H0]; [left|right];
        apply negb_true_iff, String.eqb_neq; exact H0. }
    rewrite Hch, idsOf_fnamesAdd, idsOf_fnamesDelete.
    rewrite (decide_True (P := fname p = fname p)) by reflexivity.
    destruct (decide (fname (note ent) = fname p)) as [E|E].
    + destruct H0 as [H0|H0]; [congruence|]. (set_unfold; naive_solver).
    + (set_unfold; naive_solver).
  - intros ->. rewrite idsOf_fnamesAdd, decide_True by reflexivity.
    (set_unfold; naive_solver).
  - intros p -> Hf Hi. rewrite Hf, Hi, !String.eqb_refl. reflexivity.
Qed.

(** C6.  A delete entry for the note with id [X] removes [X] from the notes
    map and [X] from the ids of the entry's fname in the fname index, and
    nothing else: every other key of the notes map, every other pair of the
    index, and in particular every child of the deleted note, is as it
    was. *)
Theorem delete_removes_only_that_note
    (batch : list NoteChangeEntry) (st : State) (ent : NoteChangeEntry) :
  status ent = delete ->
  let X := id (note ent) in
  let st' := applyEntry batch st ent in
  notes st' !! X = None
  ∧ (∀ k, k ≠ X → notes st' !! k = notes st !! k)
  ∧ (X ∉ idsOf (noteFnames st') (fname (note ent)))
  ∧ (∀ f i, f ≠ fname (note ent) ∨ i ≠ X →
        (i ∈ idsOf (noteFnames st') f ↔ i ∈ idsOf (noteFnames st) f))
  ∧ (∀ parent c n,
        parent = note ent ∨ notes st !! X = Some parent →
        In c (children parent) → c ≠ X →
        notes st !! c = Some n → notes st' !! c = Some n).
Proof.
  intros Hst X st'. subst X st'. unfold applyEntry. rewrite Hst. simpl.
  repeat split.
  - apply lookup_delete_eq.
  - intros k Hk. now apply lookup_delete_ne.
  - rewrite idsOf_fnamesDelete. rewrite decide_True by reflexivity.
    (set_unfold; naive_solver).
  - rewrite idsOf_fnamesDelete.
    destruct (decide (fname (note ent) = f)) as [E|E]; [|tauto].
    destruct H as [H|H]; [congruence|]. (set_unfold; naive_solver).
  - rewrite idsOf_fnamesDelete.
    destruct (decide (fname (note ent) = f)) as [E|E]; [|tauto].
    (set_unfold; naive_solver).
  - intros parent c n _ _ Hc Hn. rewrite lookup_delete_ne; [exact Hn|].
    congruence.
Qed.

Import Examples.

(** The renamed note of the example is stored with its children in the
    order of their titles, [Alpha] (from the batch), [Zeta] (known) and the
    placeholder, and moves in the index. *)
Lemma update_moves_index_entry_and_sorts_children_witness :
  (∃ kids,
      notes (applyEntry [renamed; sibling] client renamed) !! "child"
      = Some (setChildren (note renamed) kids)
      ∧ Permutation ["k1"; "k2"; "k3"] kids
      ∧ StronglySorted
          (keyLe (childTitle (notes client) [renamed; sibling])) kids)
  ∧ "child" ∈ idsOf (noteFnames (applyEntry [renamed; sibling] client renamed))
                "new.name"
  ∧ "child" ∉ idsOf (noteFnames (applyEntry [renamed; sibling] client renamed))
                "old.name".
Proof.
  destruct (update_moves_index_entry_and_sorts_children
              [renamed; sibling] client renamed eq_refl)
    as (Hsort & _ & _ & _ & Hidx & _).
  split; [exact Hsort|].
  apply (Hidx (titled "child" "old.name" "Child" ["k1"; "k2"; "k3"])
           eq_refl).
  left. simpl. discriminate.
Defined.

Lemma delete_removes_only_that_note_witness :
  notes (applyEntry [removed] client removed) !! "child" = None
  ∧ notes (applyEntry [removed] client removed) !! "k1"
    = notes client !! "k1".
Proof.
  destruct (delete_removes_only_that_note [removed] client removed eq_refl)
    as (H1 & H2 & _).
  split; [exact H1 | apply H2; discriminate].
Defined.

End EngineClientFacts.

(* ===================================================================== *)
(** ** Facts about doctor/service.ts                                       *)
(* ===================================================================== *)

Module DoctorFacts.
Import Model Doctor DoctorViews ModelFacts.

Lemma getNoteByFnameV5_Some f v notes :
  is_Some (getNoteByFnameV5 f v notes) <-> noteIn f v notes.
Proof.
  unfold getNoteByFnameV5, noteIn. split.
  - intros [n Hn]. apply find_some in Hn as [Hin Hb].
    apply andb_prop in Hb as [Hf Hv]. apply String.eqb_eq in Hf. eauto.
  - intros (n & Hin & Hf & Hv).
    destruct (List.find _ notes) as [m|] eqn:E; [eauto|].
    exfalso. apply (find_none _ _ E) in Hin.
    apply String.eqb_eq in Hf. rewrite Hf, Hv in Hin. discriminate.
Qed.


(** C1.  For a wiki link of a note: when it has a vault prefix that names a
    vault of the workspace, it is reported exactly when no note with the
    target fname exists in that vault; when it has no vault prefix and the
    workspace has several vaults, it is reported only if no note with the
    target fname exists in the vault of the note that holds the link (and
    in fact it is then never reported). *)
Theorem findBrokenLinks_resolution
    (note : NoteProps) (notes : list NoteProps) (engine : DEngineClient)
    (link : DLink) :
  In link (links note) ->
  type link = wiki ->
  (forall v,
      hasVaultPrefix link = true ->
      getVaultByName (vaults engine) (default "" (vaultName (to link)))
        = Some v ->
      (In link (findBrokenLinks note notes engine)
       <-> ~ noteIn (locFname (to link)) v notes))
  /\ (hasVaultPrefix link = false ->
      (1 < length (vaults engine))%nat ->
      (In link (findBrokenLinks note notes engine) ->
       ~ noteIn (locFname (to link)) (vault note) notes)
      /\ ~ In link (findBrokenLinks note notes engine)).
Proof.
  intros Hin Hw.
  assert (Hmem :
    In link (findBrokenLinks note notes engine) <->
    (if negb (DLinkType_eqb (type link) wiki) then false else
     let hasPrefix := hasVaultPrefix link in
     let vault' :=
       if hasPrefix
       then getVaultByName (vaults engine) (default "" (vaultName (to link)))
       else None in
     if hasPrefix && negb (bool_decide (is_Some vault')) then false
     else
       let isMultiVault := (1 <? length (vaults engine))%nat in
       let noteExists :=
         getNoteByFnameV5 (locFname (to link))
           (if hasPrefix then default (vault note) vault' else vault note)
           notes in
       if hasPrefix then negb (bool_decide (is_Some noteExists))
       else if negb (bool_decide (is_Some noteExists))
            then negb isMultiVault else false) = true).
  { unfold findBrokenLinks.
    destruct (links note) as [|l ls] eqn:El; [destruct Hin|].
    rewrite filter_In. tauto. }
  rewrite Hw in Hmem. simpl in Hmem.
  split.
  - intros v Hp Hv. rewrite Hmem, Hp, Hv. simpl.
    rewrite <- getNoteByFnameV5_Some.
    clear Hmem. case_bool_decide; simpl; split; intros H'; try done.
  - intros Hp Hmulti. rewrite Hmem, Hp. simpl.
    apply Nat.ltb_lt in Hmulti. rewrite Hmulti. simpl. clear Hmem.
    case_bool_decide; simpl; split; intros H'; discriminate.
Qed.

Section Service.
Variable genUUID : nat -> string.
Variable remark :
  RemarkPlugin -> DEngineClient -> NoteProps ->
  NoteProps * string * list NoteChangeEntry.
Variable addMissingDefaults : DEngineClient -> Backfill.

Local Abbreviation execute :=
  (executeDoctorActions genUUID remark addMissingDefaults).

(** *** The candidates for missing notes *)

Lemma createAll_spec engine ls next :
  Forall2 (fun link d => dfname d = toFname link
                         /\ dvault d = destVault engine link)
    ls (fst (createAll genUUID engine ls next))
  /\ map did (fst (createAll genUUID engine ls next))
     = map genUUID (seq next (length ls))
  /\ snd (createAll genUUID engine ls next) = (next + length ls)%nat.
Proof.
  revert next. induction ls as [|l ls IH]; simpl; intros next.
  - repeat split; [constructor | lia].
  - specialize (IH (S next)).
    destruct (createAll genUUID engine ls (S next)) as [ds n1].
    simpl in *. destruct IH as (Hf & Hi & Hn). repeat split.
    + constructor; [split; reflexivity | exact Hf].
    + now rewrite Hi.
    + lia.
Qed.

Lemma createAll_fnames engine ls next :
  map dfname (fst (createAll genUUID engine ls next)) = map toFname ls.
Proof.
  destruct (createAll_spec engine ls next) as (Hf & _).
  induction Hf as [|l d ls ds [H1 _] Hf IH]; simpl; [reflexivity|].
  now rewrite H1, IH.
Qed.

(** *** The loop *)

Lemma forNotes_processed act L notes r n :
  keepsProcessed act ->
  In n (processed (snd (forNotes act L notes r))) ->
  In n (processed r) \/ In n notes.
Proof.
  intros Hk. revert r. induction notes as [|a notes IH]; simpl; intros r.
  - tauto.
  - destruct (L <=? numChanges r); simpl; [tauto|].
    destruct (act a (addProcessed a r)) as [a' r1] eqn:Ea.
    destruct (forNotes act L notes r1) as [rest' r2] eqn:Ef. simpl.
    intros H. specialize (IH r1). rewrite Ef in IH. simpl in IH.
    destruct (IH H) as [H1|H1]; [|tauto].
    pose proof (Hk a (addProcessed a r)) as Hp. rewrite Ea in Hp.
    simpl in Hp. rewrite Hp in H1. apply in_app_or in H1.
    simpl in H1. tauto.
Qed.

Lemma headingAction_keeps plugin dry engine :
  keepsProcessed (headingAction remark plugin dry engine).
Proof.
  intros n r. unfold headingAction.
  destruct (remark plugin engine n) as [[n1 b] ch].
  destruct ch; simpl; [reflexivity|]. now destruct dry.
Qed.

Lemma removeStubsAction_keeps dry : keepsProcessed (removeStubsAction dry).
Proof.
  intros n r. unfold removeStubsAction. case_bool_decide; simpl;
    [now destruct dry | reflexivity].
Qed.

(** The loop over the destinations: it processes as many as the limit
    leaves room for, one change each, and touches nothing else. *)
Lemma forDestinations_spec dry L dests : forall r,
  let k := Nat.min (length dests) (Z.to_nat (L - numChanges r)) in
  let out := forDestinations dry L dests r in
  fst out = firstn k dests
  /\ calls (snd out)
     = calls r ++ (if dry then [] else map createCall (firstn k dests))
  /\ numChanges (snd out) = numChanges r + Z.of_nat k
  /\ processed (snd out) = processed r
  /\ uuids (snd out) = uuids r.
Proof.
  induction dests as [|a dests IH]; intros r; simpl.
  - destruct dry; simpl; rewrite ?app_nil_r; repeat split; lia.
  - destruct (Z.leb_spec L (numChanges r)) as [Hle|Hlt].
    + replace (Z.to_nat (L - numChanges r)) with 0%nat by lia. simpl.
      destruct dry; simpl; rewrite ?app_nil_r; repeat split; lia.
    + pose proof (IH (createMissingAction dry a r)) as IH'.
      cbv zeta in IH'.
      destruct (forDestinations dry L dests (createMissingAction dry a r))
        as [done r2].
      cbn [fst snd] in IH' |- *.
      destruct IH' as (I1 & I2 & I3 & I4 & I5).
      assert (Hn : numChanges (createMissingAction dry a r)
                   = numChanges r + 1) by (destruct dry; reflexivity).
      assert (Hc : calls (createMissingAction dry a r)
                   = calls r ++ (if dry then [] else [createCall a]))
        by (destruct dry; simpl; now rewrite ?app_nil_r).
      assert (Hp : processed (createMissingAction dry a r) = processed r)
        by (destruct dry; reflexivity).
      assert (Hu : uuids (createMissingAction dry a r) = uuids r)
        by (destruct dry; reflexivity).
      assert (Hk : Z.to_nat (L - numChanges r)
                   = S (Z.to_nat (L - numChanges (createMissingAction dry a r))))
        by (rewrite Hn; lia).
      rewrite Hk. cbn [firstn map].
      rewrite I1, I2, I3, I4, I5, Hn, Hc, Hp, Hu.
      destruct dry; simpl; rewrite <- ?app_assoc; simpl;
        repeat split; lia.
Qed.

Lemma regenerateNoteIdAction_keeps :
  keepsProcessed (regenerateNoteIdAction genUUID).
Proof.
  intros n r. unfold regenerateNoteIdAction.
  now destruct (String.eqb (id n) "root").
Qed.

Lemma findBrokenLinksAction_keeps notes engine :
  keepsProcessed (findBrokenLinksAction notes engine).
Proof.
  intros n r. unfold findBrokenLinksAction.
  now destruct (findBrokenLinks n notes engine).
Qed.

Lemma fixAirtableAction_keeps pod : keepsProcessed (fixAirtableAction pod).
Proof. intros n r. reflexivity. Qed.

Lemma perNote_processed ex isFind act L notes next out n :
  keepsProcessed act ->
  perNote ex isFind act L notes (initRun next) = Ok out ->
  In n (processed (run out)) -> In n notes.
Proof.
  intros Hk. unfold perNote.
  destruct (forNotes act L notes (initRun next)) as [notes' r'] eqn:E.
  intros [= <-]. simpl. intros H.
  pose proof (forNotes_processed act L notes (initRun next) n Hk) as Hp.
  rewrite E in Hp. simpl in Hp. destruct (Hp H) as [[]|H1]. exact H1.
Qed.

Lemma perNote_destinations ex isFind act L notes r out :
  perNote ex isFind act L notes r = Ok out -> destinations out = [].
Proof.
  unfold perNote. destruct (forNotes act L notes r) as [notes' r'].
  now intros [= <-].
Qed.

Lemma destinations_from_links notes engine next d :
  In d (fst (getBrokenLinkDestinations genUUID notes engine next)) ->
  exists n link,
    In n notes /\ In link (findBrokenLinks n notes engine)
    /\ dfname d = toFname link.
Proof.
  unfold getBrokenLinkDestinations. intros Hd.
  apply (in_map dfname) in Hd. rewrite createAll_fnames in Hd.
  apply in_map_iff in Hd as (link & Hf & Hl).
  apply uniqBy_In in Hl. unfold brokenWikiLinks in Hl.
  apply in_flat_map in Hl as (n & Hn & Hl). eauto.
Qed.

Lemma In_firstn {A} (k : nat) (l : list A) x : In x (firstn k l) -> In x l.
Proof.
  intros H. rewrite <- (firstn_skipn k l). apply in_or_app. now left.
Qed.

(** C10.  Whatever the action and wherever the candidates come from (an
    explicit list, a query, or all the notes of the engine), every note that
    a run processes is one of those notes and is no stub; and every
    destination that the action creating missing notes processes is the
    target of a link that [findBrokenLinks] reports for one of those notes
    that is no stub: a stub is never processed, and its links are never
    read. *)
Theorem executeDoctorActions_skips_stubs
    (opts : DoctorServiceOpts) (next : nat) (out : Output) :
  execute opts next = Ok out ->
  (forall n, In n (processed (run out)) ->
             stub n = false /\ In n (sourceNotes opts))
  /\ (forall d, In d (destinations out) ->
        exists n link,
          In n (sourceNotes opts) /\ stub n = false
          /\ In link (findBrokenLinks n (candidateNotes opts) (engine opts))
          /\ dfname d = toFname link).
Proof.
  unfold executeDoctorActions. fold (candidateNotes opts).
  assert (Hnotes : forall m, In m (candidateNotes opts) ->
            stub m = false /\ In m (sourceNotes opts)).
  { intros m Hm. unfold candidateNotes in Hm. fold (sourceNotes opts) in Hm.
    apply filter_In in Hm as [Hm Hs].
    now apply negb_true_iff in Hs. }
  assert (Hper : forall ex isFind act L,
    keepsProcessed act ->
    perNote ex isFind act L (candidateNotes opts) (initRun next) = Ok out ->
    (forall n, In n (processed (run out)) ->
               stub n = false /\ In n (sourceNotes opts))
    /\ (forall d, In d (destinations out) ->
          exists n link,
            In n (sourceNotes opts) /\ stub n = false
            /\ In link (findBrokenLinks n (candidateNotes opts) (engine opts))
            /\ dfname d = toFname link)).
  { intros ex isFind act L Hk H. split.
    - intros n Hin. apply Hnotes. eapply perNote_processed; eauto.
    - apply perNote_destinations in H. rewrite H. intros d []. }
  assert (Hearly : forall ex rsp err,
    early ex rsp err next (candidateNotes opts) = Ok out ->
    (forall n, In n (processed (run out)) ->
               stub n = false /\ In n (sourceNotes opts))
    /\ (forall d, In d (destinations out) ->
          exists n link,
            In n (sourceNotes opts) /\ stub n = false
            /\ In link (findBrokenLinks n (candidateNotes opts) (engine opts))
            /\ dfname d = toFname link)).
  { intros ex rsp err. unfold early. intros [= <-]. simpl.
    split; [intros n [] | intros d []]. }
  destruct (action opts).
  - apply Hearly.
  - apply Hper, headingAction_keeps.
  - apply Hper, headingAction_keeps.
  - apply Hper, removeStubsAction_keeps.
  - pose proof (destinations_from_links (candidateNotes opts) (engine opts)
                  next) as Hfrom.
    destruct (getBrokenLinkDestinations genUUID (candidateNotes opts)
                (engine opts) next) as [dests next'].
    unfold perDestination.
    pose proof (forDestinations_spec (dryRun opts)
                  (default 99999 (limit opts)) dests (initRun next'))
      as (H1 & _ & _ & H4 & _).
    destruct (forDestinations _ _ dests _) as [done r'].
    clear Hper Hearly. cbn [fst snd] in *. intros [= <-]. simpl. split.
    + rewrite H4. intros n [].
    + intros d Hd. rewrite H1 in Hd. apply In_firstn in Hd.
      destruct (Hfrom d Hd) as (n & link & Hn & Hl & Hf).
      destruct (Hnotes n Hn) as [Hs Hsrc].
      exists n, link. auto.
  - apply Hper, regenerateNoteIdAction_keeps.
  - apply Hper, findBrokenLinksAction_keeps.
  - apply Hearly.
  - destruct (negb (truthyString (podId opts))); [discriminate|].
    destruct (match vaultOpt opts with
              | Some (VaultString s) => getVaultByName (vaults (engine opts)) s
              | Some (VaultObject v) => Some v
              | None => None
              end) as [sv|]; [|discriminate].
    destruct (negb (truthyString _)); [discriminate|].
    intros H. split.
    + intros n Hin. apply Hnotes.
      eapply perNote_processed in H;
        [apply filter_In in H; apply H | apply fixAirtableAction_keeps
        | exact Hin].
    + apply perNote_destinations in H. rewrite H. intros d [].
  - destruct (addMissingDefaults (engine opts)); apply Hearly.
Qed.

(** *** Creating the missing notes *)

Lemma createdPaths_createCalls ds :
  createdPaths (map createCall ds) = map dfname ds.
Proof. induction ds as [|d ds IH]; simpl; [reflexivity | now rewrite IH]. Qed.

Lemma NoDup_firstn {A} (k : nat) (l : list A) :
  List.NoDup l -> List.NoDup (firstn k l).
Proof.
  intros H. rewrite <- (firstn_skipn k l) in H.
  now apply NoDup_app_remove_r in H.
Qed.

(** C4.  For every corpus, the candidates that [getBrokenLinkDestinations]
    returns have pairwise distinct fnames, and every broken link of the
    corpus has its target among them; so every run of the action that
    creates the missing notes returns, and asks the engine for each fname at
    most once, however many notes link to it.  This holds as well when a
    link names a vault that the workspace does not have: the candidate is
    then built with an undefined vault. *)
Theorem getBrokenLinkDestinations_distinct_fnames :
  (forall notes engine next,
      let cands := fst (getBrokenLinkDestinations genUUID notes engine next) in
      List.NoDup (map dfname cands)
      /\ (forall note link,
            In note notes ->
            In link (findBrokenLinks note notes engine) ->
            In (toFname link) (map dfname cands)))
  /\ (forall opts next,
        action opts = CREATE_MISSING_LINKED_NOTES ->
        exists out,
          execute opts next = Ok out
          /\ List.NoDup (createdPaths (calls (run out)))).
Proof.
  split.
  - intros notes engine next cands. subst cands.
    unfold getBrokenLinkDestinations. rewrite createAll_fnames. split.
    + apply uniqBy_NoDup.
    + intros note link Hn Hl. apply uniqBy_complete.
      unfold brokenWikiLinks. apply in_flat_map. eauto.
  - intros opts next Ha. unfold executeDoctorActions. rewrite Ha.
    fold (candidateNotes opts).
    pose proof (createAll_fnames (engine opts)
                  (uniqBy toFname
                     (brokenWikiLinks (candidateNotes opts) (engine opts)))
                  next) as Hf.
    unfold getBrokenLinkDestinations.
    destruct (createAll genUUID (engine opts) _ next) as [dests next'].
    simpl in Hf. unfold perDestination.
    pose proof (forDestinations_spec (dryRun opts)
                  (default 99999 (limit opts)) dests (initRun next'))
      as (_ & H2 & _).
    destruct (forDestinations _ _ dests _) as [done r'].
    simpl in H2. eexists. split; [reflexivity|]. simpl. rewrite H2.
    destruct (dryRun opts); [constructor|].
    rewrite createdPaths_createCalls, <- firstn_map. apply NoDup_firstn.
    rewrite Hf. apply uniqBy_NoDup.
Qed.

(** *** The limit *)

Lemma headingAction_counts plugin dry engine :
  countsChanges (headingAction remark plugin dry engine).
Proof.
  intros n r. unfold headingAction.
  destruct (remark plugin engine n) as [[n1 b] ch].
  destruct ch; simpl.
  - split; [lia|]. exists []. rewrite app_nil_r. split; [reflexivity|simpl; lia].
  - destruct dry; simpl; (split; [lia|]).
    + exists []. rewrite app_nil_r. split; [reflexivity|simpl; lia].
    + eexists [_]. split; [reflexivity|simpl; lia].
Qed.

Lemma removeStubsAction_counts dry : countsChanges (removeStubsAction dry).
Proof.
  intros n r. unfold removeStubsAction. case_bool_decide; simpl.
  - destruct dry; simpl; (split; [lia|]).
    + exists []. rewrite app_nil_r. split; [reflexivity|simpl; lia].
    + eexists [_]. split; [reflexivity|simpl; lia].
  - split; [lia|]. exists []. rewrite app_nil_r. split; [reflexivity|simpl; lia].
Qed.

Lemma regenerateNoteIdAction_counts :
  countsChanges (regenerateNoteIdAction genUUID).
Proof.
  intros n r. unfold regenerateNoteIdAction.
  destruct (String.eqb (id n) "root"); simpl; (split; [lia|]).
  - exists []. rewrite app_nil_r. split; [reflexivity|simpl; lia].
  - eexists [_]. split; [reflexivity|simpl; lia].
Qed.

Lemma findBrokenLinksAction_counts notes engine :
  countsChanges (findBrokenLinksAction notes engine).
Proof.
  intros n r. unfold findBrokenLinksAction.
  destruct (findBrokenLinks n notes engine); simpl; (split; [lia|]);
    exists []; rewrite app_nil_r; (split; [reflexivity|simpl; lia]).
Qed.

(** For an action that counts its changes, a run over [notes] processes a
    prefix of them, leaves the others as they were, stops early only when
    the count has reached the limit, never counts past the limit, and makes
    no more calls on the engine than it counts changes. *)
Lemma forNotes_limit act L notes r :
  countsChanges act -> keepsProcessed act ->
  let notes' := fst (forNotes act L notes r) in
  let r' := snd (forNotes act L notes r) in
  numChanges r <= numChanges r'
  /\ numChanges r' <= Z.max L (numChanges r)
  /\ (exists cs, calls r' = calls r ++ cs
                 /\ Z.of_nat (length cs) <= numChanges r' - numChanges r)
  /\ (exists k, processed r' = processed r ++ firstn k notes
                /\ skipn k notes' = skipn k notes
                /\ length notes' = length notes
                /\ ((k < length notes)%nat -> L <= numChanges r')).
Proof.
  intros Hc Hk. revert r. induction notes as [|a notes IH]; simpl; intros r.
  - split; [lia|]. split; [lia|]. split.
    + exists []. rewrite app_nil_r. split; [reflexivity|simpl; lia].
    + exists 0%nat. simpl. rewrite app_nil_r. repeat split; lia.
  - destruct (Z.leb_spec L (numChanges r)) as [Hle|Hlt]; simpl.
    + split; [lia|]. split; [lia|]. split.
      * exists []. rewrite app_nil_r. split; [reflexivity|simpl; lia].
      * exists 0%nat. simpl. rewrite app_nil_r. repeat split; lia.
    + pose proof (Hc a (addProcessed a r)) as (Hn & cs1 & Hcs1 & Hl1).
      pose proof (Hk a (addProcessed a r)) as Hp.
      destruct (act a (addProcessed a r)) as [a' r1] eqn:Ea.
      simpl in Hn, Hcs1, Hl1, Hp.
      specialize (IH r1).
      destruct (forNotes act L notes r1) as [rest' r2] eqn:Ef.
      simpl in IH |- *.
      destruct IH as (I1 & I2 & (cs2 & Hcs2 & Hl2) & (k & Hk1 & Hk2 & Hk3 & Hk4)).
      split; [lia|]. split; [lia|]. split.
      * exists (cs1 ++ cs2). rewrite Hcs2, Hcs1, <- app_assoc.
        split; [reflexivity|]. rewrite length_app. lia.
      * exists (S k). simpl. rewrite Hk1, Hp, <- app_assoc. simpl.
        repeat split; [exact Hk2 | lia | lia].
Qed.

(** The five actions that count their changes obey the limit: a run counts
    at most [max limit 0] changes and makes at most that many calls on the
    engine. *)
Lemma counted_actions_obey_limit opts next out :
  In (action opts)
    [H1_TO_TITLE; HI_TO_H2; REMOVE_STUBS; CREATE_MISSING_LINKED_NOTES;
     REGENERATE_NOTE_ID] ->
  execute opts next = Ok out ->
  numChanges (run out) <= Z.max (default 99999 (limit opts)) 0
  /\ Z.of_nat (length (calls (run out))) <= numChanges (run out).
Proof.
  assert (Hper : forall ex act L notes nx,
    countsChanges act -> keepsProcessed act ->
    perNote ex false act L notes (initRun nx) = Ok out ->
    numChanges (run out) <= Z.max L 0
    /\ Z.of_nat (length (calls (run out))) <= numChanges (run out)).
  { intros ex act L notes nx Hc Hk. unfold perNote.
    pose proof (forNotes_limit act L notes (initRun nx) Hc Hk) as Hl.
    destruct (forNotes act L notes (initRun nx)) as [notes' r'].
    simpl in Hl. intros [= <-]. simpl.
    destruct Hl as (_ & H2 & (cs & Hcs & Hlen) & _).
    rewrite Hcs. simpl. split; lia. }
  unfold executeDoctorActions. simpl.
  intros [<-|[<-|[<-|[<-|[<-|[]]]]]].
  - apply Hper; [apply headingAction_counts | apply headingAction_keeps].
  - apply Hper; [apply headingAction_counts | apply headingAction_keeps].
  - apply Hper; [apply removeStubsAction_counts | apply removeStubsAction_keeps].
  - destruct (getBrokenLinkDestinations _ _ _ _) as [dests next'].
    unfold perDestination.
    pose proof (forDestinations_spec (dryRun opts)
                  (default 99999 (limit opts)) dests (initRun next'))
      as (_ & H2 & H3 & _).
    destruct (forDestinations _ _ dests _) as [done r'].
    cbn [fst snd] in *. intros [= <-]. simpl in *. rewrite H2, H3.
    destruct (dryRun opts); simpl; rewrite ?length_map, ?length_firstn;
      split; lia.
  - apply Hper;
      [apply regenerateNoteIdAction_counts | apply regenerateNoteIdAction_keeps].
Qed.

(** *** A second run *)








Lemma forNotes_fixAirtable_numChanges pod L notes r :
  numChanges (snd (forNotes (fixAirtableAction pod) L notes r))
  = numChanges r.
Proof.
  revert r. induction notes as [|a notes IH]; simpl; intros r; [reflexivity|].
  destruct (L <=? numChanges r); simpl; [reflexivity|].
  specialize (IH (addCall (writeNote
    (setCustom (setCustom a (base.delete "airtableId" (custom a)))
       (<["pods" := CPods pod (default (CString "") (custom a !! "airtableId"))]>
          (custom (setCustom a (base.delete "airtableId" (custom a))))))
    None true) (addProcessed a r))).
  destruct (forNotes _ L notes _) as [rest' r2]. simpl in *. exact IH.
Qed.

(** *** The second run, action by action *)







Lemma forNotes_heading plugin engine L notes : forall r,
  let out := forNotes (headingAction remark plugin false engine) L notes r in
  exists P,
    processed (snd out) = processed r ++ P
    /\ calls (snd out)
       = calls r
         ++ map (fun n => writeNote (rewritten remark plugin engine n)
                            None true)
              (List.filter (changedBy remark plugin engine) P)
    /\ numChanges (snd out)
       = numChanges r
         + Z.of_nat (length (List.filter (changedBy remark plugin engine) P))
    /\ fst out
       = map (rewritten remark plugin engine) P ++ skipn (length P) notes.
Proof.
  induction notes as [|a notes IH]; intros r; simpl.
  - exists []. simpl. rewrite !app_nil_r. repeat split; lia.
  - destruct (L <=? numChanges r); simpl.
    + exists []. simpl. rewrite !app_nil_r. repeat split; lia.
    + destruct (headingAction remark plugin false engine a
                  (addProcessed a r)) as [a1 r1] eqn:Ea.
      unfold headingAction in Ea. unfold changedBy, rewritten in *.
      destruct (remark plugin engine a) as [[note1 newBody] changes] eqn:Er.
      destruct changes as [|c changes]; injection Ea as <- <-.
      * specialize (IH (addProcessed a r)).
        destruct (forNotes _ L notes _) as [rest' r2].
        simpl in *. destruct IH as (P & I1 & I2 & I3 & I4).
        exists (a :: P). simpl. rewrite Er. simpl.
        rewrite I1, I2, I3, I4, <- !app_assoc. simpl.
        repeat split; rewrite ?Er; simpl; auto; lia.
      * specialize (IH (addChange
                          (throttled false
                             (writeNote (setBody note1 newBody) None true)
                             (addProcessed a r)))).
        destruct (forNotes _ L notes _) as [rest' r2].
        simpl in *. destruct IH as (P & I1 & I2 & I3 & I4).
        exists (a :: P). simpl. rewrite Er. simpl.
        rewrite I1, I2, I3, I4, <- !app_assoc. simpl.
        repeat split; rewrite ?Er; simpl; auto; lia.
Qed.









End Service.

Import Examples.

(** C3.  With the action that fixes Airtable metadata, a limit of one and
    two candidate notes, the run writes both notes: the action never counts
    a change, so the limit is never reached. *)
Theorem fixAirtableMetadata_ignores_limit :
  exists out,
    doctor (options FIX_AIRTABLE_METADATA oneVault
              (Some [airtable "r1" "t.one"; airtable "r2" "t.two"])
              (Some 1)) 0 = Ok out
    /\ numChanges (run out) = 0
    /\ length (processed (run out)) = 2%nat
    /\ length (calls (run out)) = 2%nat.
Proof.
  eexists. split; [vm_compute; reflexivity|]. vm_compute. auto.
Qed.

Lemma findBrokenLinks_resolution_witness :
  In (wikiLink "missing" (Some "v2"))
     (findBrokenLinks noteA [noteA; noteB] twoVaults).
Proof.
  apply (proj1 (findBrokenLinks_resolution noteA [noteA; noteB] twoVaults
                  (wikiLink "missing" (Some "v2"))
                  ltac:(simpl; auto) eq_refl) v2 eq_refl eq_refl).
  intros (n & [<-|[<-|[]]] & Hf & _); discriminate Hf.
Defined.

(** A blank stub among the candidates of the action that removes stubs is
    not processed, while the blank note beside it is. *)
Lemma executeDoctorActions_skips_stubs_witness :
  exists out,
    doctor (options REMOVE_STUBS oneVault (Some [ghost; noteB]) None) 0
    = Ok out
    /\ ~ In ghost (processed (run out))
    /\ In noteB (processed (run out)).
Proof.
  destruct (doctor (options REMOVE_STUBS oneVault (Some [ghost; noteB]) None)
              0) as [out|m] eqn:E; [|vm_compute in E; discriminate].
  exists out. split; [reflexivity|]. split.
  - intros Hin.
    destruct (proj1 (executeDoctorActions_skips_stubs gen idle complete
                       (options REMOVE_STUBS oneVault (Some [ghost; noteB])
                          None) 0 out E) ghost Hin) as [Hs _].
    discriminate Hs.
  - vm_compute in E. injection E as <-. simpl. auto.
Defined.

(** A corpus with two notes that link to the same missing note and one
    whose link names a vault that the workspace does not have. *)
Lemma getBrokenLinkDestinations_distinct_fnames_witness :
  exists out,
    doctor (options CREATE_MISSING_LINKED_NOTES oneVault
              (Some [noteA; noteB; stray]) None) 0 = Ok out
    /\ List.NoDup (createdPaths (calls (run out)))
    /\ calls (run out)
       = [getNoteByPath "missing" true (Some v1);
          getNoteByPath "lost" true None].
Proof.
  destruct (proj2 (getBrokenLinkDestinations_distinct_fnames gen idle
                     complete)
              (options CREATE_MISSING_LINKED_NOTES oneVault
                 (Some [noteA; noteB; stray]) None) 0%nat eq_refl)
    as (out & E & Hnd).
  exists out. split; [exact E|]. split; [exact Hnd|].
  vm_compute in E. injection E as <-. reflexivity.
Defined.



End DoctorFacts.

(* ===================================================================== *)
(** ** More about doctor/service.ts                                        *)
(* ===================================================================== *)

Module DoctorMore.
Import Model Doctor DoctorViews ModelFacts DoctorFacts Examples.

Lemma findBrokenLinks_filter note notes engine :
  exists p, findBrokenLinks note notes engine = List.filter p (links note).
Proof.
  unfold findBrokenLinks. destruct (links note) as [|l ls] eqn:E.
  - exists (fun _ => true). reflexivity.
  - eexists. reflexivity.
Qed.

Lemma filter_sublist {A} (p : A -> bool) (l : list A) :
  List.filter p l `sublist_of` l.
Proof.
  induction l as [|a l IH]; simpl; [constructor|].
  destruct (p a); now constructor.
Qed.

(** X1.  In a workspace with at most one vault, a wiki link without a vault
    prefix is reported exactly when no note with the target fname exists in
    the vault of the note that holds the link. *)
Theorem findBrokenLinks_single_vault
    (note : NoteProps) (notes : list NoteProps) (engine : DEngineClient)
    (link : DLink) :
  In link (links note) ->
  type link = wiki ->
  hasVaultPrefix link = false ->
  (length (vaults engine) <= 1)%nat ->
  (In link (findBrokenLinks note notes engine)
   <-> ~ noteIn (locFname (to link)) (vault note) notes).
Proof.
  intros Hin Hw Hp Hone.
  unfold findBrokenLinks.
  destruct (links note) as [|l ls] eqn:El; [destruct Hin|].
  rewrite filter_In, Hw, Hp. simpl.
  assert (Hm : (1 <? length (vaults engine))%nat = false)
    by (apply Nat.ltb_ge; exact Hone).
  rewrite Hm. simpl. rewrite <- getNoteByFnameV5_Some.
  case_bool_decide; simpl; split; try tauto.
  - intros [_ H']. discriminate.
Qed.

Lemma findBrokenLinks_single_vault_witness :
  In (wikiLink "missing" None) (findBrokenLinks noteA [noteA; noteB] oneVault).
Proof.
  apply (findBrokenLinks_single_vault noteA [noteA; noteB] oneVault
           (wikiLink "missing" None) ltac:(simpl; auto) eq_refl eq_refl
           ltac:(simpl; lia)).
  intros (n & [<-|[<-|[]]] & Hf & _); discriminate Hf.
Defined.

(** X2.  What [findBrokenLinks] reports is a selection of the links of the
    note, in their order; it never reports a link that is not a wiki link,
    nor a link whose vault prefix names no vault of the workspace. *)
Theorem findBrokenLinks_reports_only
    (note : NoteProps) (notes : list NoteProps) (engine : DEngineClient) :
  findBrokenLinks note notes engine `sublist_of` links note
  /\ forall link,
       In link (findBrokenLinks note notes engine) ->
       type link = wiki
       /\ (hasVaultPrefix link = true ->
           is_Some (getVaultByName (vaults engine)
                      (default "" (vaultName (to link))))).
Proof.
  split.
  - destruct (findBrokenLinks_filter note notes engine) as [p ->].
    apply filter_sublist.
  - intros link. unfold findBrokenLinks.
    destruct (links note) as [|l ls] eqn:El; [intros []|].
    rewrite filter_In. intros [_ H].
    destruct (type link); simpl in H; try discriminate.
    split; [reflexivity|]. intros Hp. rewrite Hp in H. simpl in H.
    revert H. case_bool_decide; [auto | discriminate].
Qed.

Lemma findBrokenLinks_reports_only_witness :
  type (wikiLink "missing" (Some "v2")) = wiki
  /\ (hasVaultPrefix (wikiLink "missing" (Some "v2")) = true ->
      is_Some (getVaultByName (vaults twoVaults) "v2")).
Proof.
  apply (proj2 (findBrokenLinks_reports_only noteA [noteA; noteB] twoVaults)
           (wikiLink "missing" (Some "v2"))).
  vm_compute. auto.
Defined.

Section Service.
Variable genUUID : nat -> string.
Variable remark :
  RemarkPlugin -> DEngineClient -> NoteProps ->
  NoteProps * string * list NoteChangeEntry.
Variable addMissingDefaults : DEngineClient -> Backfill.

Local Abbreviation execute :=
  (executeDoctorActions genUUID remark addMissingDefaults).

Lemma forNotes_no_calls act L notes r :
  (forall n r0, calls (snd (act n r0)) = calls r0) ->
  calls (snd (forNotes act L notes r)) = calls r.
Proof.
  intros H. revert r. induction notes as [|a notes IH]; simpl; intros r;
    [reflexivity|].
  destruct (L <=? numChanges r); simpl; [reflexivity|].
  pose proof (H a (addProcessed a r)) as Ha.
  destruct (act a (addProcessed a r)) as [a' r1]. simpl in Ha.
  specialize (IH r1). destruct (forNotes act L notes r1) as [rest' r2].
  simpl in *. congruence.
Qed.

Lemma perNote_no_calls ex isFind act L notes nx out :
  (forall n r0, calls (snd (act n r0)) = calls r0) ->
  perNote ex isFind act L notes (initRun nx) = Ok out ->
  calls (run out) = [].
Proof.
  intros H. unfold perNote.
  pose proof (forNotes_no_calls act L notes (initRun nx) H) as Hc.
  destruct (forNotes act L notes (initRun nx)) as [notes' r'].
  intros [= <-]. exact Hc.
Qed.

(** X3.  On a dry run no call is made on the engine, whatever the
    candidates and the limit, by every action but the two that call
    [engine.writeNote] directly (regenerating ids and fixing Airtable
    metadata). *)
Theorem dry_run_makes_no_engine_call
    (opts : DoctorServiceOpts) (next : nat) (out : Output) :
  dryRun opts = true ->
  action opts <> REGENERATE_NOTE_ID ->
  action opts <> FIX_AIRTABLE_METADATA ->
  execute opts next = Ok out ->
  calls (run out) = [].
Proof.
  intros Hdry Hr Ha. unfold executeDoctorActions. rewrite Hdry.
  destruct (action opts) eqn:E; try congruence.
  - unfold early. now intros [= <-].
  - apply perNote_no_calls. intros n r0. unfold headingAction.
    destruct (remark h1ToTitle (engine opts) n) as [[n1 b] ch].
    now destruct ch.
  - apply perNote_no_calls. intros n r0. unfold headingAction.
    destruct (remark h1ToH2 (engine opts) n) as [[n1 b] ch].
    now destruct ch.
  - apply perNote_no_calls. intros n r0. unfold removeStubsAction.
    now case_bool_decide.
  - destruct (getBrokenLinkDestinations _ _ _ _) as [dests next'].
    unfold perDestination.
    pose proof (forDestinations_spec true (default 99999 (limit opts))
                  dests (initRun next')) as (_ & H2 & _).
    destruct (forDestinations true _ dests _) as [done r'].
    cbn [fst snd] in H2. intros [= <-]. simpl. now rewrite H2.
  - apply perNote_no_calls. intros n r0. unfold findBrokenLinksAction.
    now destruct (findBrokenLinks _ _ _).
  - unfold early. now intros [= <-].
  - destruct (addMissingDefaults (engine opts)); unfold early;
      now intros [= <-].
Qed.

Lemma forNotes_findBrokenLinks all engine L notes r :
  numChanges r < L ->
  fst (forNotes (findBrokenLinksAction all engine) L notes r) = notes
  /\ numChanges (snd (forNotes (findBrokenLinksAction all engine) L notes r))
     = numChanges r
  /\ processed (snd (forNotes (findBrokenLinksAction all engine) L notes r))
     = processed r ++ notes
  /\ resp (snd (forNotes (findBrokenLinksAction all engine) L notes r))
     = resp r
       ++ map (reportOf all engine)
            (List.filter (hasBrokenLinks all engine) notes).
Proof.
  intros HL. revert r HL.
  induction notes as [|a notes IH]; simpl; intros r HL.
  - now rewrite !app_nil_r.
  - destruct (Z.leb_spec L (numChanges r)) as [Hle|_]; [lia|].
    unfold findBrokenLinksAction at 1 3 5 7, hasBrokenLinks at 1,
      reportOf at 1.
    destruct (findBrokenLinks a all engine) as [|l ls] eqn:Eb.
    + specialize (IH (addProcessed a r) HL).
      destruct (forNotes _ L notes (addProcessed a r)) as [rest' r2].
      simpl in *. destruct IH as (I1 & I2 & I3 & I4).
      rewrite I1, I2, I3, I4, <- app_assoc. auto.
    + set (rep := {| file := _ |}).
      specialize (IH (addResp rep (addProcessed a r)) HL).
      destruct (forNotes _ L notes (addResp rep (addProcessed a r)))
        as [rest' r2].
      simpl in *. destruct IH as (I1 & I2 & I3 & I4).
      rewrite I1, I2, I3, I4, <- !app_assoc. simpl.
      unfold reportOf at 1. rewrite Eb. auto.
Qed.

(** X4.  With a limit above zero, the action that finds broken links looks
    at every candidate (the limit never stops it, since it counts no
    change), makes no call on the engine, leaves the notes as they are, and
    answers with one entry for each candidate that has a broken link, in
    the order of the candidates. *)
Theorem findBrokenLinks_action_reports_all
    (opts : DoctorServiceOpts) (next : nat) (out : Output) :
  action opts = FIND_BROKEN_LINKS ->
  0 < default 99999 (limit opts) ->
  execute opts next = Ok out ->
  let cands := candidateNotes opts in
  processed (run out) = cands
  /\ notesAfter out = cands
  /\ calls (run out) = []
  /\ numChanges (run out) = 0
  /\ outResp out
     = RespBrokenLinks
         (map (reportOf cands (engine opts))
            (List.filter (hasBrokenLinks cands (engine opts)) cands)).
Proof.
  intros Ha HL. unfold executeDoctorActions. rewrite Ha.
  fold (candidateNotes opts). unfold perNote.
  pose proof (forNotes_findBrokenLinks (candidateNotes opts) (engine opts)
                (default 99999 (limit opts)) (candidateNotes opts)
                (initRun next) HL) as (H1 & H2 & H3 & H4).
  pose proof (forNotes_no_calls
                (findBrokenLinksAction (candidateNotes opts) (engine opts))
                (default 99999 (limit opts)) (candidateNotes opts)
                (initRun next)) as Hc.
  destruct (forNotes _ _ (candidateNotes opts) (initRun next))
    as [notes' r'].
  simpl in *. intros [= <-]. simpl. repeat split; try assumption.
  - apply Hc. intros n r0. unfold findBrokenLinksAction.
    now destruct (findBrokenLinks _ _ _).
  - now rewrite H4.
Qed.

Lemma forNotes_removeStubs L notes r :
  exists P,
    processed (snd (forNotes (removeStubsAction false) L notes r))
      = processed r ++ P
    /\ calls (snd (forNotes (removeStubsAction false) L notes r))
       = calls r ++ map deleteNote (List.filter blank P)
    /\ numChanges (snd (forNotes (removeStubsAction false) L notes r))
       = numChanges r + Z.of_nat (length (List.filter blank P))
    /\ fst (forNotes (removeStubsAction false) L notes r) = notes.
Proof.
  revert r. induction notes as [|a notes IH]; simpl; intros r.
  - exists []. simpl. rewrite !app_nil_r. repeat split; lia.
  - destruct (L <=? numChanges r); simpl.
    + exists []. simpl. rewrite !app_nil_r. repeat split; lia.
    + unfold removeStubsAction at 1 3 5 7. fold (blank a).
      destruct (blank a) eqn:Eb.
      * specialize (IH (addChange (throttled false (deleteNote a)
                                    (addProcessed a r)))).
        destruct (forNotes _ L notes _) as [rest' r2].
        simpl in *. destruct IH as (P & I1 & I2 & I3 & I4).
        exists (a :: P). simpl. rewrite Eb. simpl.
        rewrite I1, I2, I3, I4, <- !app_assoc. simpl.
        repeat split; lia.
      * specialize (IH (addProcessed a r)).
        destruct (forNotes _ L notes _) as [rest' r2].
        simpl in *. destruct IH as (P & I1 & I2 & I3 & I4).
        exists (a :: P). simpl. rewrite Eb.
        rewrite I1, I2, I3, I4, <- !app_assoc. simpl.
        repeat split; lia.
Qed.

(** X5.  A run of the action that removes stubs, when it is not a dry run,
    has the engine delete exactly the notes it processed whose body is
    empty once trimmed, in order, and counts one change for each; a note
    with a body that is not blank is never deleted, and the candidates
    themselves are left as they are. *)
Theorem removeStubs_deletes_blank_notes
    (opts : DoctorServiceOpts) (next : nat) (out : Output) :
  action opts = REMOVE_STUBS ->
  dryRun opts = false ->
  execute opts next = Ok out ->
  calls (run out) = map deleteNote (List.filter blank (processed (run out)))
  /\ numChanges (run out) = Z.of_nat (length (calls (run out)))
  /\ notesAfter out = candidateNotes opts.
Proof.
  intros Ha Hdry. unfold executeDoctorActions. rewrite Ha, Hdry.
  fold (candidateNotes opts). unfold perNote.
  destruct (forNotes_removeStubs (default 99999 (limit opts))
              (candidateNotes opts) (initRun next))
    as (P & H1 & H2 & H3 & H4).
  destruct (forNotes _ _ (candidateNotes opts) (initRun next))
    as [notes' r'].
  simpl in *. intros [= <-]. simpl.
  rewrite H1, H2, H3, H4, length_map. auto.
Qed.

Lemma setId_id n : setId n (id n) = n.
Proof. now destruct n. Qed.

Lemma forNotes_regenerate L notes r :
  exists W,
    Forall2 (fun n n' => n' = setId n (id n') /\ (id n = "root" -> n' = n))
      notes (fst (forNotes (regenerateNoteIdAction genUUID) L notes r))
    /\ calls (snd (forNotes (regenerateNoteIdAction genUUID) L notes r))
       = calls r ++ map (fun n' => writeNote n' (Some false) true) W
    /\ map id W = map genUUID (seq (uuids r) (length W))
    /\ uuids (snd (forNotes (regenerateNoteIdAction genUUID) L notes r))
       = (uuids r + length W)%nat
    /\ numChanges (snd (forNotes (regenerateNoteIdAction genUUID) L notes r))
       = numChanges r + Z.of_nat (length W)
    /\ W `sublist_of`
         fst (forNotes (regenerateNoteIdAction genUUID) L notes r).
Proof.
  assert (Hsame : forall l : list NoteProps,
    Forall2 (fun n n' => n' = setId n (id n') /\ (id n = "root" -> n' = n))
      l l).
  { induction l; constructor; auto. split; [now rewrite setId_id | auto]. }
  revert r. induction notes as [|a notes IH]; simpl; intros r.
  - exists []. simpl. rewrite app_nil_r, Nat.add_0_r.
    repeat split; auto; try lia; try constructor.
  - destruct (L <=? numChanges r); simpl.
    + exists []. simpl. rewrite app_nil_r, Nat.add_0_r.
      repeat split; auto; try lia; try apply sublist_nil_l.
    + destruct (regenerateNoteIdAction genUUID a (addProcessed a r))
        as [a1 r1] eqn:Ea.
      unfold regenerateNoteIdAction in Ea.
      destruct (String.eqb (id a) "root") eqn:Er; injection Ea as <- <-.
      * specialize (IH (addProcessed a r)).
        destruct (forNotes _ L notes (addProcessed a r)) as [rest' r2].
        simpl in *. destruct IH as (W & I1 & I2 & I3 & I4 & I5 & I6).
        exists W. repeat split; auto.
        -- constructor; [|exact I1]. split; [now rewrite setId_id | auto].
        -- now constructor.
      * set (a' := setId a (genUUID (uuids (addProcessed a r)))).
        set (r1 := addChange _).
        specialize (IH r1).
        destruct (forNotes _ L notes r1) as [rest' r2].
        simpl in *. destruct IH as (W & I1 & I2 & I3 & I4 & I5 & I6).
        exists (a' :: W). simpl. repeat split.
        -- constructor; [|exact I1]. split; [reflexivity|].
           intros Hroot. apply String.eqb_neq in Er. contradiction.
        -- rewrite I2, <- app_assoc. reflexivity.
        -- now rewrite I3.
        -- lia.
        -- lia.
        -- now constructor.
Qed.

(** X6.  A run of the action that regenerates ids changes nothing in a
    note but its id, and leaves a note whose id is [root] as it is; the notes
    it has the engine write are notes of its result, in order, and their new
    ids are the next ids of the generator one after the other, so they are
    pairwise distinct when the generator never repeats itself. *)
Theorem regenerateNoteId_keeps_root_and_renames
    (opts : DoctorServiceOpts) (next : nat) (out : Output) :
  action opts = REGENERATE_NOTE_ID ->
  execute opts next = Ok out ->
  Forall2 (fun n n' => n' = setId n (id n') /\ (id n = "root" -> n' = n))
    (candidateNotes opts) (notesAfter out)
  /\ calls (run out)
     = map (fun n' => writeNote n' (Some false) true)
         (writtenNotes (calls (run out)))
  /\ writtenNotes (calls (run out)) `sublist_of` notesAfter out
  /\ map id (writtenNotes (calls (run out)))
     = map genUUID (seq next (Z.to_nat (numChanges (run out))))
  /\ ((forall a b, genUUID a = genUUID b -> a = b) ->
      List.NoDup (map id (writtenNotes (calls (run out))))).
Proof.
  intros Ha. unfold executeDoctorActions. rewrite Ha.
  fold (candidateNotes opts). unfold perNote.
  destruct (forNotes_regenerate (default 99999 (limit opts))
              (candidateNotes opts) (initRun next))
    as (W & H1 & H2 & H3 & H4 & H5 & H6).
  destruct (forNotes _ _ (candidateNotes opts) (initRun next))
    as [notes' r'].
  simpl in *. intros [= <-]. simpl.
  assert (HW : writtenNotes (calls r') = W).
  { rewrite H2. clear. induction W; simpl; [reflexivity|]. now f_equal. }
  rewrite HW. rewrite H5, ?Z.add_0_l, Nat2Z.id.
  repeat split; auto.
  intros Hinj. rewrite H3. apply Finite.Injective_map_NoDup.
  - exact Hinj.
  - apply seq_NoDup.
Qed.

Lemma forNotes_prefix act L notes r :
  countsChanges act -> keepsProcessed act ->
  exists k,
    processed (snd (forNotes act L notes r)) = processed r ++ firstn k notes
    /\ skipn k (fst (forNotes act L notes r)) = skipn k notes
    /\ length (fst (forNotes act L notes r)) = length notes
    /\ ((k < length notes)%nat ->
        L <= numChanges (snd (forNotes act L notes r)))
    /\ numChanges (snd (forNotes act L notes r)) <= Z.max L (numChanges r).
Proof.
  intros Hc Hk.
  destruct (forNotes_limit act L notes r Hc Hk)
    as (_ & H2 & _ & (k & K1 & K2 & K3 & K4)).
  exists k. auto.
Qed.

(** X7.  For the actions that count their changes on the candidates of the
    run, a run processes a prefix of the candidates in order and leaves
    those after it untouched; it stops before the end only once the count of
    changes has reached the limit, and never counts more changes than the
    limit (or zero, if the limit is negative). *)
Theorem run_processes_a_prefix
    (opts : DoctorServiceOpts) (next : nat) (out : Output) :
  In (action opts)
    [H1_TO_TITLE; HI_TO_H2; REMOVE_STUBS; REGENERATE_NOTE_ID;
     FIND_BROKEN_LINKS] ->
  execute opts next = Ok out ->
  exists k,
    processed (run out) = firstn k (candidateNotes opts)
    /\ skipn k (notesAfter out) = skipn k (candidateNotes opts)
    /\ length (notesAfter out) = length (candidateNotes opts)
    /\ ((k < length (candidateNotes opts))%nat ->
        default 99999 (limit opts) <= numChanges (run out))
    /\ numChanges (run out) <= Z.max (default 99999 (limit opts)) 0.
Proof.
  assert (Hper : forall ex isFind act,
    countsChanges act -> keepsProcessed act ->
    perNote ex isFind act (default 99999 (limit opts))
      (candidateNotes opts) (initRun next) = Ok out ->
    exists k,
      processed (run out) = firstn k (candidateNotes opts)
      /\ skipn k (notesAfter out) = skipn k (candidateNotes opts)
      /\ length (notesAfter out) = length (candidateNotes opts)
      /\ ((k < length (candidateNotes opts))%nat ->
          default 99999 (limit opts) <= numChanges (run out))
      /\ numChanges (run out) <= Z.max (default 99999 (limit opts)) 0).
  { intros ex isFind act Hc Hk. unfold perNote.
    destruct (forNotes_prefix act (default 99999 (limit opts))
                (candidateNotes opts) (initRun next) Hc Hk)
      as (k & K1 & K2 & K3 & K4 & K5).
    destruct (forNotes act _ (candidateNotes opts) (initRun next))
      as [notes' r'].
    simpl in *. intros [= <-]. exists k. simpl. auto. }
  unfold executeDoctorActions. fold (candidateNotes opts). simpl.
  intros [<-|[<-|[<-|[<-|[<-|[]]]]]].
  - apply Hper; [apply headingAction_counts | apply headingAction_keeps].
  - apply Hper; [apply headingAction_counts | apply headingAction_keeps].
  - apply Hper; [apply removeStubsAction_counts | apply removeStubsAction_keeps].
  - apply Hper;
      [apply regenerateNoteIdAction_counts | apply regenerateNoteIdAction_keeps].
  - apply Hper;
      [apply findBrokenLinksAction_counts | apply findBrokenLinksAction_keeps].
Qed.

Lemma uniqByAux_first {A} (key : A -> string) seen (l : list A) x :
  In x (uniqByAux key seen l) ->
  exists pre post,
    l = pre ++ x :: post /\ forall y, In y pre -> key y <> key x.
Proof.
  revert seen. induction l as [|a l IH]; simpl; intros seen; [tauto|].
  destruct (existsb (String.eqb (key a)) seen) eqn:E.
  - intros H. pose proof (uniqByAux_keys key _ _ _ H) as [_ Hx].
    destruct (IH _ H) as (pre & post & -> & Hpre).
    exists (a :: pre), post. split; [reflexivity|].
    intros y [<-|Hy]; [|now apply Hpre].
    apply existsb_eqb_In in E. congruence.
  - intros [->|H].
    + exists [], l. split; [reflexivity|]. intros y [].
    + pose proof (uniqByAux_keys key _ _ _ H) as [_ Hx].
      destruct (IH _ H) as (pre & post & -> & Hpre).
      exists (a :: pre), post. split; [reflexivity|].
      intros y [<-|Hy]; [|now apply Hpre].
      intros Heq. apply Hx. rewrite <- Heq. now left.
Qed.

(** X8.  Each candidate that [getBrokenLinkDestinations] returns stands
    for the first broken link of the corpus with its fname: it gets the
    vault that this link names (the vault of its prefix, else the vault the
    link comes from), and no vault when the workspace has no vault of that
    name.  A later broken link to the same fname gets no candidate of its
    own, even when it names another vault.  The candidates get the next ids
    of the generator, one after the other. *)
Theorem candidates_follow_first_broken_link
    (notes : list NoteProps) (engine : DEngineClient) (next : nat) :
  let cands := fst (getBrokenLinkDestinations genUUID notes engine next) in
  (forall c, In c cands ->
     exists link pre post,
       brokenWikiLinks notes engine = pre ++ link :: post
       /\ (forall y, In y pre -> toFname y <> toFname link)
       /\ dfname c = toFname link
       /\ dvault c = destVault engine link)
  /\ map did cands = map genUUID (seq next (length cands))
  /\ snd (getBrokenLinkDestinations genUUID notes engine next)
     = (next + length cands)%nat.
Proof.
  intros cands. subst cands. unfold getBrokenLinkDestinations.
  destruct (createAll_spec genUUID engine
              (uniqBy toFname (brokenWikiLinks notes engine)) next)
    as (Hf & Hi & Hn).
  pose proof (Forall2_length _ _ _ Hf) as Hlen.
  rewrite Hlen in Hi, Hn. repeat split; auto.
  intros c Hc.
  assert (Hl : exists link,
             In link (uniqBy toFname (brokenWikiLinks notes engine))
             /\ dfname c = toFname link
             /\ dvault c = destVault engine link).
  { clear -Hf Hc. induction Hf as [|l c' ls ns [H1 H2] Hf IH];
      [destruct Hc|].
    destruct Hc as [<-|Hc].
    - exists l. simpl. auto.
    - destruct (IH Hc) as (link & Hin & Hr). exists link. simpl. auto. }
  destruct Hl as (link & Hin & Hfn & Hv).
  destruct (uniqByAux_first toFname [] _ _ Hin) as (pre & post & E & Hpre).
  exists link, pre, post. auto.
Qed.

Lemma truthyString_Some o :
  truthyString o = true -> exists s, o = Some s /\ s <> ""%string.
Proof.
  destruct o as [[|c s]|]; simpl; try discriminate.
  intros _. eexists. split; [reflexivity | discriminate].
Qed.

(** X9.  The action that fixes Airtable metadata runs only with a pod id,
    a vault (given as such, or by a name that a vault of the workspace has)
    and a hierarchy (the query, else the hierarchy option) that are there and
    not empty; it throws otherwise, before any note is touched. *)
Theorem fixAirtableMetadata_needs_pod_vault_hierarchy
    (opts : DoctorServiceOpts) (next : nat) :
  action opts = FIX_AIRTABLE_METADATA ->
  ((exists out, execute opts next = Ok out)
   <-> truthyString (podId opts) = true
       /\ is_Some (selectedVault opts)
       /\ truthyString (selectedHierarchy opts) = true).
Proof.
  intros Ha. unfold executeDoctorActions. rewrite Ha.
  fold (selectedVault opts) (selectedHierarchy opts).
  destruct (truthyString (podId opts)); simpl.
  2:{ split; [intros [out H]; discriminate | intros [H _]; discriminate]. }
  destruct (selectedVault opts) as [sv|].
  2:{ split; [intros [out H]; discriminate
             | intros (_ & [v Hv] & _); discriminate]. }
  destruct (truthyString (selectedHierarchy opts)); simpl.
  2:{ split; [intros [out H]; discriminate | intros (_ & _ & H); discriminate]. }
  split; [eauto|]. intros _. unfold perNote.
  destruct (forNotes _ _ _ _) as [notes' r']. eauto.
Qed.

Lemma forNotes_fixAirtable pod L notes r :
  numChanges r < L ->
  fst (forNotes (fixAirtableAction pod) L notes r)
    = map withoutAirtableId notes
  /\ processed (snd (forNotes (fixAirtableAction pod) L notes r))
     = processed r ++ notes
  /\ calls (snd (forNotes (fixAirtableAction pod) L notes r))
     = calls r
       ++ map (fun n => writeNote (airtableWritten pod n) None true) notes
  /\ numChanges (snd (forNotes (fixAirtableAction pod) L notes r))
     = numChanges r.
Proof.
  revert r. induction notes as [|a notes IH]; simpl; intros r HL.
  - now rewrite !app_nil_r.
  - destruct (Z.leb_spec L (numChanges r)) as [Hle|_]; [lia|].
    change (fixAirtableAction pod a (addProcessed a r))
      with (withoutAirtableId a,
            addCall (writeNote (airtableWritten pod a) None true)
              (addProcessed a r)).
    cbv iota beta.
    specialize (IH (addCall (writeNote (airtableWritten pod a) None true)
                      (addProcessed a r)) HL).
    destruct (forNotes _ L notes _) as [rest' r2].
    simpl in *. destruct IH as (I1 & I2 & I3 & I4).
    rewrite I1, I2, I3, I4, <- !app_assoc. auto.
Qed.

(** X10.  With a limit above zero, the action that fixes Airtable metadata
    writes, for every candidate it selects (the notes under the hierarchy, in
    the vault, that are no stubs and have an Airtable id), a copy of the note
    in which the Airtable id has moved under [pods], keyed by the pod id, and
    every other custom field is as it was; the candidate itself only loses
    its Airtable id. *)
Theorem fixAirtableMetadata_moves_id_under_pods
    (opts : DoctorServiceOpts) (next : nat) (out : Output) :
  action opts = FIX_AIRTABLE_METADATA ->
  0 < default 99999 (limit opts) ->
  execute opts next = Ok out ->
  exists pod sv h,
    podId opts = Some pod /\ selectedVault opts = Some sv
    /\ selectedHierarchy opts = Some h
    /\ processed (run out)
       = List.filter (airtableCandidate h sv) (candidateNotes opts)
    /\ calls (run out)
       = map (fun n => writeNote (airtableWritten pod n) None true)
           (processed (run out))
    /\ notesAfter out = map withoutAirtableId (processed (run out))
    /\ forall n, In n (processed (run out)) ->
         custom (airtableWritten pod n) !! "airtableId" = None
         /\ custom (airtableWritten pod n) !! "pods"
            = CPods pod <$> (custom n !! "airtableId")
         /\ forall k, k <> "airtableId"%string -> k <> "pods"%string ->
              custom (airtableWritten pod n) !! k = custom n !! k.
Proof.
  intros Ha HL. unfold executeDoctorActions. rewrite Ha.
  fold (selectedVault opts) (selectedHierarchy opts) (candidateNotes opts).
  destruct (truthyString (podId opts)) eqn:Hp; simpl; [|discriminate].
  destruct (selectedVault opts) as [sv|]; [|discriminate].
  destruct (truthyString (selectedHierarchy opts)) eqn:Hh; simpl;
    [|discriminate].
  destruct (truthyString_Some _ Hp) as (pod & Epod & _).
  destruct (truthyString_Some _ Hh) as (h & Eh & _).
  rewrite Epod, Eh. simpl default.
  fold (airtableCandidate h sv).
  change (fun value : NoteProps =>
            String.prefix h (fname value) && negb (stub value)
            && isEqual (vault value) sv
            && truthyCustom (custom value !! "airtableId"))
    with (airtableCandidate h sv).
  unfold perNote.
  destruct (forNotes_fixAirtable pod (default 99999 (limit opts))
              (List.filter (airtableCandidate h sv) (candidateNotes opts))
              (initRun next) HL) as (H1 & H2 & H3 & H4).
  destruct (forNotes _ _ _ _) as [notes' r'].
  simpl in *. intros [= <-]. simpl.
  exists pod, sv, h. rewrite H2, H3, H1. repeat split; auto.
  - unfold airtableWritten. simpl.
    rewrite lookup_insert_ne by discriminate. apply lookup_delete_eq.
  - unfold airtableWritten. simpl. rewrite lookup_insert_eq.
    apply filter_In in H as [_ Hc]. unfold airtableCandidate in Hc.
    apply andb_prop in Hc as [_ Hc].
    destruct (custom n !! "airtableId"); [reflexivity | discriminate].
  - intros k K1 K2. unfold airtableWritten. simpl.
    rewrite lookup_insert_ne by congruence.
    now rewrite lookup_delete_ne by congruence.
Qed.

End Service.

Lemma fixAirtableMetadata_needs_pod_vault_hierarchy_witness :
  exists out,
    doctor (options FIX_AIRTABLE_METADATA oneVault
              (Some [airtable "r1" "t.one"]) None) 0 = Ok out.
Proof.
  apply (proj2 (fixAirtableMetadata_needs_pod_vault_hierarchy gen idle
                  complete
                  (options FIX_AIRTABLE_METADATA oneVault
                     (Some [airtable "r1" "t.one"]) None) 0%nat eq_refl)).
  vm_compute. eauto.
Defined.

Lemma fixAirtableMetadata_moves_id_under_pods_witness :
  exists out,
    doctor (options FIX_AIRTABLE_METADATA oneVault
              (Some [airtable "r1" "t.one"]) None) 0 = Ok out
    /\ calls (run out)
       = map (fun n => writeNote (airtableWritten "pod" n) None true)
           (processed (run out)).
Proof.
  destruct (doctor (options FIX_AIRTABLE_METADATA oneVault
                      (Some [airtable "r1" "t.one"]) None) 0)
    as [out|m] eqn:E; [|vm_compute in E; discriminate].
  exists out. split; [reflexivity|].
  destruct (fixAirtableMetadata_moves_id_under_pods gen idle complete
              (options FIX_AIRTABLE_METADATA oneVault
                 (Some [airtable "r1" "t.one"]) None) 0%nat out
              eq_refl ltac:(reflexivity) E)
    as (pod & sv & h & Hp & _ & _ & _ & Hc & _).
  injection Hp as <-. exact Hc.
Defined.

Lemma regenerateNoteId_keeps_root_and_renames_witness :
  exists out,
    doctor (options REGENERATE_NOTE_ID oneVault None (Some 1)) 0 = Ok out
    /\ map id (writtenNotes (calls (run out))) = ["a-uuid"].
Proof.
  destruct (doctor (options REGENERATE_NOTE_ID oneVault None (Some 1)) 0)
    as [out|m] eqn:E; [|vm_compute in E; discriminate].
  exists out. split; [reflexivity|].
  destruct (regenerateNoteId_keeps_root_and_renames gen idle complete
              (options REGENERATE_NOTE_ID oneVault None (Some 1)) 0%nat out
              eq_refl E) as (_ & _ & _ & H & _).
  rewrite H. vm_compute in E. injection E as <-. reflexivity.
Defined.

Lemma run_processes_a_prefix_witness :
  exists out k,
    doctor (options REGENERATE_NOTE_ID oneVault None (Some 1)) 0 = Ok out
    /\ processed (run out) = firstn k [noteA; noteB].
Proof.
  destruct (doctor (options REGENERATE_NOTE_ID oneVault None (Some 1)) 0)
    as [out|m] eqn:E; [|vm_compute in E; discriminate].
  exists out.
  destruct (run_processes_a_prefix gen idle complete
              (options REGENERATE_NOTE_ID oneVault None (Some 1)) 0%nat out
              ltac:(simpl; tauto) E) as (k & H & _).
  exists k. split; [reflexivity | exact H].
Defined.

Lemma candidates_follow_first_broken_link_witness :
  map did (fst (getBrokenLinkDestinations gen [noteA; noteB; stray]
                  oneVault 0))
  = map gen (seq 0 2)
  /\ map dvault (fst (getBrokenLinkDestinations gen [noteA; noteB; stray]
                       oneVault 0))
     = [Some v1; None].
Proof.
  split; [|reflexivity].
  exact (proj1 (proj2 (candidates_follow_first_broken_link gen
                         [noteA; noteB; stray] oneVault 0%nat))).
Defined.

Lemma dry_run_makes_no_engine_call_witness :
  exists out,
    executeDoctorActions gen idle complete
      {| action := REMOVE_STUBS; query := None; candidates := None;
         limit := None; dryRun := true; exit := None; quiet := true;
         engine := oneVault; podId := None; hierarchy := None;
         vaultOpt := None |} 0 = Ok out
    /\ calls (run out) = [] /\ numChanges (run out) = 1.
Proof.
  eexists. split; [vm_compute; reflexivity|]. split; [|reflexivity].
  eapply (dry_run_makes_no_engine_call gen idle complete
            {| action := REMOVE_STUBS; query := None; candidates := None;
               limit := None; dryRun := true; exit := None; quiet := true;
               engine := oneVault; podId := None; hierarchy := None;
               vaultOpt := None |} 0%nat);
    [reflexivity | discriminate | discriminate | vm_compute; reflexivity].
Defined.

Lemma findBrokenLinks_action_reports_all_witness :
  exists out,
    doctor (options FIND_BROKEN_LINKS oneVault None None) 0 = Ok out
    /\ processed (run out) = [noteA; noteB]
    /\ calls (run out) = [].
Proof.
  destruct (doctor (options FIND_BROKEN_LINKS oneVault None None) 0)
    as [out|m] eqn:E; [|vm_compute in E; discriminate].
  exists out. split; [reflexivity|].
  destruct (findBrokenLinks_action_reports_all gen idle complete
              (options FIND_BROKEN_LINKS oneVault None None) 0%nat out
              eq_refl ltac:(reflexivity) E) as (H1 & _ & H3 & _).
  split; [exact H1 | exact H3].
Defined.

Lemma removeStubs_deletes_blank_notes_witness :
  exists out,
    doctor (options REMOVE_STUBS oneVault None None) 0 = Ok out
    /\ calls (run out) = [deleteNote noteB].
Proof.
  destruct (doctor (options REMOVE_STUBS oneVault None None) 0)
    as [out|m] eqn:E; [|vm_compute in E; discriminate].
  exists out. split; [reflexivity|].
  destruct (removeStubs_deletes_blank_notes gen idle complete
              (options REMOVE_STUBS oneVault None None) 0%nat out
              eq_refl eq_refl E) as (H1 & _).
  rewrite H1. vm_compute in E. injection E as <-. reflexivity.
Defined.

End DoctorMore.

(* ===================================================================== *)
(** ** More about engineClient.ts                                          *)
(* ===================================================================== *)

Module EngineClientMore.
Import Model EngineClient EngineClientApi ModelFacts EngineClientFacts.

Lemma fold_left_last_entry B l st i :
  let st' := fold_left (applyEntry B) l st in
  match lastFor i l with
  | None => notes st' !! i = notes st !! i
  | Some e =>
      match status e with
      | delete => notes st' !! i = None
      | create => notes st' !! i = Some (note e)
      | update =>
          ∃ kids, notes st' !! i = Some (setChildren (note e) kids)
                  ∧ Permutation (children (note e)) kids
      end
  end.
Proof.
  unfold lastFor. induction l as [|e l IH] using rev_ind; simpl;
    [reflexivity|].
  rewrite fold_left_app, rev_app_distr. simpl.
  destruct (String.eqb (id (note e)) i) eqn:E.
  - apply String.eqb_eq in E. subst i. unfold applyEntry.
    destruct (status e); simpl.
    + apply lookup_insert_eq.
    + eexists. split; [apply lookup_insert_eq | apply sortBy_perm].
    + apply lookup_delete_eq.
  - apply String.eqb_neq in E.
    assert (Hk : notes (applyEntry B (fold_left (applyEntry B) l st) e) !! i
                 = notes (fold_left (applyEntry B) l st) !! i).
    { unfold applyEntry. destruct (status e); simpl.
      - now apply lookup_insert_ne.
      - now apply lookup_insert_ne.
      - now apply lookup_delete_ne. }
    rewrite Hk. exact IH.
Qed.

(** X11.  After [refreshNotesV2] the notes map holds, for every id, what
    the last entry of the batch for this id says: nothing after a delete,
    the entry's note after a create, the entry's note with its children
    reordered after an update; an id with no entry is as before.  The fuzzy
    index is given the notes map. *)
Theorem refreshNotesV2_last_entry_wins
    (batch : list NoteChangeEntry) (st : State) (i : string) :
  let st' := refreshNotesV2 batch st in
  fuseIndex st' = notes st'
  ∧ match lastFor i batch with
    | None => notes st' !! i = notes st !! i
    | Some e =>
        match status e with
        | delete => notes st' !! i = None
        | create => notes st' !! i = Some (note e)
        | update =>
            ∃ kids, notes st' !! i = Some (setChildren (note e) kids)
                    ∧ Permutation (children (note e)) kids
        end
    end.
Proof.
  simpl. split; [reflexivity|]. apply fold_left_last_entry.
Qed.

Lemma applyEntry_keeps_index B st e :
  indexed st -> keyed st -> fits st e ->
  indexed (applyEntry B st e) ∧ keyed (applyEntry B st e).
Proof.
  unfold indexed, keyed, fits, applyEntry. intros Hi Hk Hf.
  destruct (status e).
  - simpl. split.
    + intros f i. rewrite idsOf_fnamesAdd.
      destruct (decide (i = id (note e))) as [->|Hne].
      * rewrite lookup_insert_eq.
        destruct (decide (fname (note e) = f)) as [Ef|Ef].
        -- split; [eauto|]. intros _. set_unfold. now left.
        -- rewrite Hi, Hf. split; [intros (n & ? & _); discriminate|].
           intros (n & [= <-] & ?). contradiction.
      * rewrite lookup_insert_ne by congruence. rewrite <- Hi.
        destruct (decide (fname (note e) = f)); [|reflexivity].
        set_unfold. tauto.
    + intros i n. destruct (decide (i = id (note e))) as [->|Hne].
      * rewrite lookup_insert_eq. now intros [= <-].
      * rewrite lookup_insert_ne by congruence. apply Hk.
  - destruct Hf as (p & Hp & Hs). rewrite Hp. simpl.
    pose proof (Hk _ _ Hs) as Hid.
    assert (Ei : String.eqb (id p) (id (note e)) = true)
      by now apply String.eqb_eq.
    rewrite Ei. simpl. rewrite orb_false_r. split.
    + intros f i.
      destruct (String.eqb (fname p) (fname (note e))) eqn:Ef; simpl.
      * apply String.eqb_eq in Ef.
        destruct (decide (i = id (note e))) as [->|Hne].
        -- rewrite lookup_insert_eq, Hi, Hs. simpl.
           split; [intros (n & [= <-] & <-); eauto | ].
           intros (n & [= <-] & <-). simpl. eauto.
        -- rewrite lookup_insert_ne by congruence. apply Hi.
      * apply String.eqb_neq in Ef.
        rewrite idsOf_fnamesAdd, idsOf_fnamesDelete.
        destruct (decide (i = id (note e))) as [->|Hne].
        -- rewrite lookup_insert_eq.
           destruct (decide (fname (note e) = f)) as [E1|E1].
           ++ split; [eauto|]. intros _. set_unfold. now left.
           ++ split; [|intros (n & [= <-] & ?); contradiction].
              destruct (decide (fname p = f)) as [E2|E2].
              ** set_unfold. intros [_ Hn]. now destruct Hn.
              ** rewrite Hi, Hs. intros (n & [= <-] & ?). contradiction.
        -- rewrite lookup_insert_ne by congruence. rewrite <- Hi.
           destruct (decide (fname (note e) = f));
             destruct (decide (fname p = f)); set_unfold;
             try rewrite Hid; tauto.
    + intros i n. destruct (decide (i = id (note e))) as [->|Hne].
      * rewrite lookup_insert_eq. now intros [= <-].
      * rewrite lookup_insert_ne by congruence. apply Hk.
  - simpl. split.
    + intros f i. rewrite idsOf_fnamesDelete.
      destruct (decide (i = id (note e))) as [->|Hne].
      * rewrite lookup_delete_eq.
        split; [|intros (n & ? & _); discriminate].
        destruct (decide (fname (note e) = f)) as [E1|E1].
        -- set_unfold. intros [_ Hn]. now destruct Hn.
        -- rewrite Hi. intros (n & Hn & <-). apply Hf in Hn. congruence.
      * rewrite lookup_delete_ne by congruence. rewrite <- Hi.
        destruct (decide (fname (note e) = f)); [|reflexivity].
        set_unfold. tauto.
    + intros i n. destruct (decide (i = id (note e))) as [->|Hne].
      * rewrite lookup_delete_eq. discriminate.
      * rewrite lookup_delete_ne by congruence. apply Hk.
Qed.

Lemma fold_left_keeps_index B l : forall st,
  indexed st -> keyed st -> fitsAll B st l ->
  indexed (fold_left (applyEntry B) l st)
  ∧ keyed (fold_left (applyEntry B) l st).
Proof.
  induction l as [|e l IH]; intros st Hi Hk Hf; simpl; [now split|].
  destruct Hf as [He Hl].
  destruct (applyEntry_keeps_index B st e Hi Hk He) as [Hi' Hk'].
  now apply IH.
Qed.

(** X12.  [refreshNotesV2] keeps the fname index in step with the notes
    map: when every note is stored under its own id, the index lists an id
    under an fname exactly when the stored note with this id has this fname,
    and each entry fits the state it is applied to (a created note is new, an
    updated note carries the stored note as its previous note, a deleted note
    carries the fname of the stored note), the same holds afterwards. *)
Theorem refreshNotesV2_keeps_index
    (batch : list NoteChangeEntry) (st : State) :
  indexed st -> keyed st -> fitsAll batch st batch ->
  indexed (refreshNotesV2 batch st) ∧ keyed (refreshNotesV2 batch st).
Proof.
  intros Hi Hk Hf.
  destruct (fold_left_keeps_index batch batch st Hi Hk Hf) as [Hi' Hk'].
  split; [exact Hi' | exact Hk'].
Qed.

Lemma fresh_indexed h : indexed (fresh h).
Proof.
  intros f i. unfold idsOf. simpl. rewrite !lookup_empty. simpl.
  split; [set_solver | intros (n & Hn & _); discriminate].
Qed.

Lemma fresh_keyed h : keyed (fresh h).
Proof. intros i n. simpl. rewrite lookup_empty. discriminate. Qed.

Lemma idsOf_foldr (l : list (string * NoteProps)) i f :
  i ∈ idsOf (foldr (fun kv d => fnamesAdd (snd kv) d) ∅ l) f
  ↔ ∃ kv, In kv l ∧ id (snd kv) = i ∧ fname (snd kv) = f.
Proof.
  induction l as [|kv l IH]; simpl.
  - unfold idsOf. rewrite lookup_empty. simpl.
    split; [set_solver | intros (? & [] & _)].
  - rewrite idsOf_fnamesAdd.
    destruct (decide (fname (snd kv) = f)) as [E|E].
    + rewrite elem_of_union, elem_of_singleton, IH. split.
      * intros [->|(kv' & ? & ? & ?)]; [exists kv; auto|exists kv'; auto].
      * intros (kv' & [<-|?] & Hid & ?); [left; now symmetry|].
        right. exists kv'. auto.
    + rewrite IH. split.
      * intros (kv' & ? & ? & ?). exists kv'. auto.
      * intros (kv' & [<-|?] & ? & ?); [contradiction|]. exists kv'. auto.
Qed.

(** X13.  When the workspace answers with its notes and at most a minor
    error, [init] loads them: the notes map and the fuzzy index are the
    notes of the answer, a minor error is passed on beside them, and, the
    notes being stored under their own ids, the fname index built from them
    lists an id under an fname exactly when the note with this id has this
    fname. *)
Theorem init_indexes_loaded_notes
    (resp : ApiResp (gmap string NoteProps)) (st : State)
    (ns : gmap string NoteProps) :
  respData resp = Some ns ->
  (∀ e, respError resp = Some e -> severity e = Some MINOR) ->
  (∀ i n, ns !! i = Some n -> id n = i) ->
  ∃ st', init resp st = Ok (InitData ns (respError resp), st')
         ∧ notes st' = ns ∧ fuseIndex st' = ns
         ∧ history st' = history st
         ∧ indexed st'.
Proof.
  intros Hd He Hk.
  exists {| notes := ns; noteFnames := fnamesOf ns;
            history := history st; fuseIndex := ns |}.
  split; [|repeat split].
  - unfold init. rewrite Hd. destruct (respError resp) as [e|]; [|reflexivity].
    unfold isMinor. rewrite (He e eq_refl). reflexivity.
  - simpl. unfold fnamesOf. rewrite idsOf_foldr.
    intros ([k n] & Hin & Hid & Hf). simpl in *.
    apply list_elem_of_In, elem_of_map_to_list in Hin.
    exists n. split; [|exact Hf]. rewrite <- Hid, (Hk _ _ Hin). exact Hin.
  - simpl. unfold fnamesOf. rewrite idsOf_foldr.
    intros (n & Hn & Hf). exists (i, n). simpl. split; [|split].
    + now apply list_elem_of_In, elem_of_map_to_list.
    + now apply Hk.
    + exact Hf.
Qed.

Lemma applyEntry_keeps_key B st e k :
  isDelete e = false -> is_Some (notes st !! k) ->
  is_Some (notes (applyEntry B st e) !! k).
Proof.
  unfold isDelete, applyEntry. intros Hd Hs.
  destruct (status e); simpl; try discriminate;
    (destruct (decide (k = id (note e))) as [->|Hne];
     [rewrite lookup_insert_eq; eauto
     |rewrite lookup_insert_ne by congruence; exact Hs]).
Qed.

Lemma fold_left_keeps_key B l k : forall st,
  List.Forall (fun e => isDelete e = false) l ->
  is_Some (notes st !! k) ->
  is_Some (notes (fold_left (applyEntry B) l st) !! k).
Proof.
  induction l as [|e l IH]; intros st Hl Hs; simpl; [exact Hs|].
  inversion Hl; subst. apply IH; [assumption|].
  now apply applyEntry_keeps_key.
Qed.

Lemma entriesAfter_length applied batch : forall data st,
  length (entriesAfter applied batch data st) = length data.
Proof.
  induction data as [|ent data IH]; intros st; simpl; [reflexivity|].
  destruct (applied ent); simpl; now rewrite IH.
Qed.

Lemma entriesAfter_lookup applied batch : forall pre st ent post,
  entriesAfter applied batch (pre ++ ent :: post) st !! length pre
  = Some (if applied ent
          then sortedEntry batch
                 (fold_left (applyEntry batch) (List.filter applied pre) st)
                 ent
          else ent).
Proof.
  induction pre as [|e pre IH]; intros st ent post; simpl.
  - now destruct (applied ent).
  - destruct (applied e); simpl; apply IH.
Qed.

(** X14.  [writeNote] with [updateExisting] always returns and never takes
    a note out of the notes map.  An answer with an error leaves the state
    as it is and fires nothing.  Otherwise one event is fired with the whole
    answer, entry for entry: the delete entries, which are left out of what
    is applied, as they came, and every update entry with the children of
    its note sorted by title, as [refreshNotesV2] left the object: the
    titles are those of the notes map as the entries before it, the delete
    entries apart, left it.  Without [updateExisting], an answer with
    neither error nor data makes it throw. *)
Theorem writeNote_updateExisting_removes_nothing
    (resp : ApiResp (list NoteChangeEntry)) (st : State) :
  (∃ eff, writeNote resp true st = Ok eff
          ∧ (∀ k, is_Some (notes st !! k) ->
                  is_Some (notes (state eff) !! k))
          ∧ (respError resp ≠ None -> state eff = st ∧ fired eff = [])
          ∧ (respError resp = None ->
             match respData resp with
             | None => fired eff = [None]
             | Some data =>
                 let changed :=
                   List.filter (fun e => negb (isDelete e)) data in
                 ∃ sent,
                   fired eff = [Some sent]
                   ∧ length sent = length data
                   ∧ ∀ pre ent post,
                       data = pre ++ ent :: post ->
                       let known :=
                         notes (fold_left (applyEntry changed)
                                  (List.filter
                                     (fun e => negb (isDelete e)) pre)
                                  st) in
                       ∃ ent',
                         sent !! length pre = Some ent'
                         ∧ status ent' = status ent
                         ∧ prevNote ent' = prevNote ent
                         ∧ (status ent ≠ update -> ent' = ent)
                         ∧ (status ent = update ->
                            ∃ kids,
                              note ent' = setChildren (note ent) kids
                              ∧ Permutation (children (note ent)) kids
                              ∧ StronglySorted
                                  (keyLe (childTitle known changed)) kids)
             end))
  ∧ (respError resp = None -> respData resp = None ->
     ∃ m, writeNote resp false st = Throw m).
Proof.
  split.
  - unfold writeNote. destruct (respError resp) as [e|].
    + eexists. split; [reflexivity|]. simpl.
      repeat split; auto; discriminate.
    + destruct (respData resp) as [data|].
      * eexists. split; [reflexivity|]. simpl.
        split; [|split; [congruence|]].
        -- intros k Hk. apply fold_left_keeps_key; [|exact Hk].
           apply List.Forall_forall. intros e He.
           apply filter_In in He as [_ He]. now apply negb_true_iff in He.
        -- intros _. eexists. split; [reflexivity|].
           split; [apply entriesAfter_length|].
           intros pre ent post ->. eexists.
           split; [apply entriesAfter_lookup|]. simpl.
           unfold sortedEntry.
           assert (Hd : isDelete ent
                        = match status ent with
                          | delete => true
                          | _ => false
                          end) by reflexivity.
           destruct (status ent) eqn:Es; rewrite Hd; simpl;
             repeat split; auto; try congruence.
           intros _. eexists. split; [reflexivity|].
           split; [apply sortBy_perm | apply sortBy_stronglySorted].
      * eexists. split; [reflexivity|]. simpl.
        repeat split; auto; congruence.
  - intros He Hd. unfold writeNote. rewrite He, Hd. eauto.
Qed.

(** X15.  [updateNote] throws exactly when the answer carries no note.
    Otherwise the note it returns is the note it stored under the id of the
    answer's note and the note of the one entry it fires, equal to the
    answer's note up to the order of the children; every other id of the
    notes map is as before; and when no note existed before, the entry is a
    create, the returned note is the answer's note as it is, and the fname
    index lists its id under its fname. *)
Theorem updateNote_returns_stored_note
    (existing : option NoteProps) (resp : ApiResp NoteProps) (st : State) :
  match respData resp with
  | None => updateNote existing resp st = Throw "error updating note"
  | Some clean =>
      ∃ n eff ent,
        updateNote existing resp st = Ok (n, eff)
        ∧ notes (state eff) !! id clean = Some n
        ∧ (∃ kids, n = setChildren clean kids
                   ∧ Permutation (children clean) kids
                   ∧ (∀ prev, existing = Some prev ->
                      StronglySorted
                        (keyLe
                           (childTitle (notes st)
                              [{| status := update; note := clean;
                                  prevNote := Some prev |}])) kids))
        ∧ (∀ k, k ≠ id clean -> notes (state eff) !! k = notes st !! k)
        ∧ fired eff = [Some [ent]] ∧ note ent = n
        ∧ prevNote ent = existing
        ∧ status ent = match existing with
                       | Some _ => update
                       | None => create
                       end
        ∧ (existing = None ->
           n = clean
           ∧ id clean ∈ idsOf (noteFnames (state eff)) (fname clean))
  end.
Proof.
  unfold updateNote. destruct (respData resp) as [clean|]; [|reflexivity].
  destruct existing as [prev|]; do 3 eexists;
    (split; [reflexivity|]); simpl; repeat split.
  - apply lookup_insert_eq.
  - eexists. split; [reflexivity|]. split; [apply sortBy_perm|].
    intros prev' [= <-]. apply sortBy_stronglySorted.
  - intros k Hk. now apply lookup_insert_ne.
  - discriminate.
  - discriminate.
  - apply lookup_insert_eq.
  - exists (children clean). split; [now destruct clean|].
    split; [reflexivity|]. intros prev' H. discriminate H.
  - intros k Hk. now apply lookup_insert_ne.
  - rewrite idsOf_fnamesAdd, decide_True by reflexivity. set_unfold. now left.
Qed.

(** The update entry is fired with the children of its note sorted, the
    delete entry as it came, and [k1] is still in the notes map. *)
Lemma writeNote_updateExisting_removes_nothing_witness :
  ∃ eff,
    writeNote {| respData := Some [reordered; removedK1];
                 respError := None |} true Examples.client = Ok eff
    ∧ is_Some (notes (state eff) !! "k1")
    ∧ fired eff
      = [Some [ {| status := update;
                   note := setChildren unsorted ["k1"; "k3"];
                   prevNote := prevNote reordered |};
                removedK1 ]].
Proof.
  destruct (proj1 (writeNote_updateExisting_removes_nothing
                     {| respData := Some [reordered; removedK1];
                        respError := None |} Examples.client))
    as (eff & E & Hkeep & _).
  exists eff. split; [exact E|]. split.
  - apply Hkeep. vm_compute. eauto.
  - vm_compute in E. injection E as <-. reflexivity.
Defined.

(** The note comes back, is stored and is fired with its children
    sorted. *)
Lemma updateNote_returns_stored_note_witness :
  ∃ n eff ent,
    updateNote (prevNote reordered)
      {| respData := Some unsorted; respError := None |} Examples.client
    = Ok (n, eff)
    ∧ fired eff = [Some [ent]] ∧ note ent = n
    ∧ notes (state eff) !! "child" = Some n
    ∧ children n = ["k1"; "k3"].
Proof.
  pose proof (updateNote_returns_stored_note (prevNote reordered)
                {| respData := Some unsorted; respError := None |}
                Examples.client) as H.
  simpl in H.
  destruct H as (n & eff & ent & E & Hs & _ & _ & Hf & Hn & _).
  exists n, eff, ent. repeat split; auto.
  vm_compute in E. injection E as <- _. reflexivity.
Defined.

Lemma refreshNotesV2_keeps_index_witness :
  indexed (refreshNotesV2
             [ {| status := create; note := draft; prevNote := None |};
               {| status := update; note := final; prevNote := Some draft |} ]
             (fresh None)).
Proof.
  apply (refreshNotesV2_keeps_index
           [ {| status := create; note := draft; prevNote := None |};
             {| status := update; note := final; prevNote := Some draft |} ]
           (fresh None) (fresh_indexed None) (fresh_keyed None)).
  simpl. split; [reflexivity|]. split; [|exact I].
  exists draft. split; [reflexivity|]. unfold fits, applyEntry. simpl.
  apply lookup_insert_eq.
Defined.

Lemma init_indexes_loaded_notes_witness :
  ∃ st', init {| respData := Some {[ "x" := draft ]}; respError := None |}
           (fresh None)
         = Ok (InitData {[ "x" := draft ]} None, st')
         ∧ indexed st'.
Proof.
  destruct (init_indexes_loaded_notes
              {| respData := Some {[ "x" := draft ]}; respError := None |}
              (fresh None) {[ "x" := draft ]} eq_refl)
    as (st' & H1 & _ & _ & _ & H2).
  - simpl. discriminate.
  - intros i n H. apply lookup_singleton_Some in H as [<- <-]. reflexivity.
  - exists st'. split; [exact H1 | exact H2].
Defined.

End EngineClientMore.

(* ===================================================================== *)
(** ** More about utils.ts                                                 *)
(* ===================================================================== *)

Module HierarchyFacts.
Import Model HierarchyUtils.

Lemma In_lookupAll notes ids c :
  In c (lookupAll notes ids) <-> exists i, In i ids /\ notes !! i = Some c.
Proof.
  unfold lookupAll. rewrite <- list_elem_of_In, list_elem_of_omap.
  split; intros (i & Hi & Hc); exists i; split; auto;
    now apply list_elem_of_In.
Qed.

Lemma In_nextLevel notes level c :
  In c (nextLevel notes level)
  <-> exists p, In p level /\ childOf notes p c.
Proof.
  unfold nextLevel, childOf. rewrite In_lookupAll. split.
  - intros (i & Hi & Hc). apply in_flat_map in Hi as (p & Hp & Hi).
    exists p. split; [exact Hp|]. exists i. auto.
  - intros (p & Hp & i & Hi & Hc). exists i. split; [|exact Hc].
    apply in_flat_map. exists p. auto.
Qed.

Lemma loop_levels notes (n : nat) : forall fuel acc level,
  (n <= fuel)%nat ->
  exists l,
    loop fuel acc (acc + Z.of_nat n) notes level = Some l
    /\ forall c, In c l
                 <-> exists p, In p level /\ nsteps (childOf notes) n p c.
Proof.
  induction n as [|n IH]; intros fuel acc level Hfuel.
  - exists level. split.
    + destruct fuel; simpl; rewrite Z.add_0_r, Z.eqb_refl; reflexivity.
    + intros c. split.
      * intros Hc. exists c. split; [exact Hc | constructor].
      * intros (p & Hp & Hs). inversion Hs; subst. exact Hp.
  - destruct fuel as [|fuel]; [lia|]. simpl loop.
    assert (Hne : (acc =? acc + Z.of_nat (S n))%Z = false)
      by (apply Z.eqb_neq; lia).
    rewrite Hne.
    replace (acc + Z.of_nat (S n))%Z with (acc + 1 + Z.of_nat n)%Z by lia.
    destruct (IH fuel (acc + 1)%Z (nextLevel notes level)) as (l & Hl & Hin);
      [lia|].
    exists l. split; [exact Hl|]. intros c. rewrite Hin. split.
    + intros (q & Hq & Hs). apply In_nextLevel in Hq as (p & Hp & Hpq).
      exists p. split; [exact Hp|]. econstructor; eauto.
    + intros (p & Hp & Hs). inversion Hs as [|? ? q ? Hpq Hs']; subst.
      exists q. split; [|exact Hs']. apply In_nextLevel. eauto.
Qed.

Lemma loop_negative notes skipLevels level : forall fuel acc,
  (skipLevels < 0)%Z -> (0 <= acc)%Z ->
  loop fuel acc skipLevels notes level = None.
Proof.
  intros fuel. revert level.
  induction fuel as [|fuel IH]; intros level acc Hk Hacc; simpl;
    (replace (acc =? skipLevels)%Z with false
       by (symmetry; apply Z.eqb_neq; lia)); [reflexivity|].
  apply IH; lia.
Qed.

(** X16.  For a number of levels to skip that is not negative,
    [getChildren] returns once the loop has had that many turns, and the
    notes it returns are those reached from the note by one step to a child
    and then one more step for every level skipped, a step going from a note
    to a note stored under one of the ids in its [children]; ids that are
    not in the dictionary are passed over. *)
Theorem getChildren_reaches_level
    (fuel : nat) (skipLevels : Z) (note : NoteProps)
    (notes : gmap string NoteProps) :
  (0 <= skipLevels)%Z ->
  (Z.to_nat skipLevels <= fuel)%nat ->
  exists l,
    getChildren fuel skipLevels note notes = Some l
    /\ forall c, In c l
                 <-> nsteps (childOf notes) (S (Z.to_nat skipLevels)) note c.
Proof.
  intros Hk Hfuel. unfold getChildren.
  destruct (loop_levels notes (Z.to_nat skipLevels) fuel 0%Z
              (lookupAll notes (children note)) Hfuel) as (l & Hl & Hin).
  rewrite Z2Nat.id, Z.add_0_l in Hl by exact Hk.
  exists l. split; [exact Hl|]. intros c. rewrite Hin. split.
  - intros (p & Hp & Hs). apply In_lookupAll in Hp.
    econstructor; [exact Hp | exact Hs].
  - intros Hs. inversion Hs as [|? ? q ? Hpq Hs']; subst.
    exists q. split; [|exact Hs']. now apply In_lookupAll.
Qed.

(** X17.  For a negative number of levels to skip the loop of
    [getChildren] never ends: the counter starts at zero and only grows, so
    however many turns it is given, it is still running. *)
Theorem getChildren_negative_never_returns
    (fuel : nat) (skipLevels : Z) (note : NoteProps)
    (notes : gmap string NoteProps) :
  (skipLevels < 0)%Z ->
  getChildren fuel skipLevels note notes = None.
Proof.
  intros Hk. unfold getChildren. apply loop_negative; lia.
Qed.

Lemma getChildren_reaches_level_witness :
  exists l,
    getChildren 1 1 (Examples.titled "p" "p" "P" ["x"])
      {[ "x" := EngineClientApi.draft ]} = Some l
    /\ forall c, In c l
         <-> nsteps (childOf {[ "x" := EngineClientApi.draft ]}) 2
               (Examples.titled "p" "p" "P" ["x"]) c.
Proof.
  apply (getChildren_reaches_level 1 1 (Examples.titled "p" "p" "P" ["x"])
           {[ "x" := EngineClientApi.draft ]}); simpl; lia.
Defined.

Lemma getChildren_negative_never_returns_witness :
  getChildren 7 (-1) (Examples.titled "p" "p" "P" ["x"])
    {[ "x" := EngineClientApi.draft ]} = None.
Proof.
  apply (getChildren_negative_never_returns 7 (-1)). lia.
Defined.

End HierarchyFacts.

Module PortsFacts.
Import JS Utils Ports JSFacts.

Lemma digits_only d :
  forallb isDigit (str (NilEmpty.string_of_uint d)) = true.
Proof. unfold str. induction d; simpl; auto. Qed.

Lemma isDecimal_numToString z : isDecimal (numToString (Int z)) = true.
Proof.
  unfold numToString. destruct z as [|p|p]; [reflexivity|..]; simpl;
    pose proof (DecimalPos.Unsigned.to_uint_nonnil p) as Hn;
    destruct (string_of_uint_head _ Hn) as (-> & c & t & Hs & Hd);
    pose proof (digits_only (Pos.to_uint p)) as Hall.
  - unfold isDecimal. rewrite Hs in *.
    destruct (isDigit_facts c Hd) as (_ & Hm & _). now rewrite Hm.
  - unfold str in *. simpl. rewrite Hs in *. exact Hall.
Qed.

Lemma trim_numToString z : trim (numToString (Int z)) = numToString (Int z).
Proof.
  destruct (numToString_chars z) as [_ Hc].
  assert (Hw : forallb (fun c => negb (isWhitespace c)) (numToString (Int z))
               = true).
  { apply forallb_forall. intros c Hin.
    rewrite forallb_forall in Hc. apply Hc in Hin.
    apply isNumChar_facts in Hin as (Hn & _). now rewrite Hn. }
  apply trim_id.
  - intros c rest E. rewrite E in Hw. simpl in Hw.
    apply andb_prop in Hw as [Hw _]. now apply negb_true_iff in Hw.
  - now apply cleanEnd_all.
Qed.

Lemma text_eqb_refl (t : text) : text_eqb t t = true.
Proof. unfold text_eqb. now apply bool_decide_eq_true. Qed.

Lemma text_eqb_suffix (t : text) c u : text_eqb t (t ++ c :: u) = false.
Proof.
  unfold text_eqb. apply bool_decide_eq_false. intros E.
  apply (f_equal (@length ascii)) in E. rewrite length_app in E.
  simpl in E. lia.
Qed.

Section PortFiles.
Variable pathJoin : text -> text -> text.
Variable DENDRON_SERVER_PORT : text.
Variable DendronError : Type.
Variable create404Error : text -> DendronError.
Variable toIntegerOther : text -> Z.
Variable Engine : Type.
Variable create : FS -> Z -> text -> result Engine.

Local Abbreviation wsFile := (getPortFilePathForWorkspace pathJoin
                             DENDRON_SERVER_PORT).
Local Abbreviation cliFile := (getPortFilePathForCLI pathJoin
                              DENDRON_SERVER_PORT).
Local Abbreviation toInteger' := (toInteger toIntegerOther).

Lemma toInteger_numToString z :
  (Z.abs z < 2 ^ 53)%Z -> toInteger' (trim (numToString (Int z))) = z.
Proof.
  intros Hz. rewrite trim_numToString. unfold toInteger.
  rewrite isDecimal_numToString, parseInt_numToString.
  replace (Z.abs z <? 2 ^ 53)%Z with true; [reflexivity|].
  symmetry. now apply Z.ltb_lt.
Qed.

(** X18.  A port written by [writeEnginePortForCLI], a whole number that a
    JavaScript number holds exactly, is what [getEnginePortForCLI] reads
    back.  [getEnginePort] reads it back as well when the workspace has no
    port file of its own, and otherwise keeps answering with the port of the
    workspace's file, which the write does not touch. *)
Theorem written_cli_port_is_read_back (z : Z) (wsRoot : text) (fs : FS) :
  (Z.abs z < 2 ^ 53)%Z ->
  let fs' := writeEnginePortForCLI pathJoin DENDRON_SERVER_PORT (Int z)
               wsRoot fs in
  getEnginePortForCLI pathJoin DENDRON_SERVER_PORT toIntegerOther fs' wsRoot
  = Ok z
  /\ getEnginePort pathJoin DENDRON_SERVER_PORT DendronError create404Error
       toIntegerOther fs' wsRoot
     = match fs (wsFile wsRoot) with
       | Some content => Ok (RespData (toInteger' (trim content)))
       | None => Ok (RespData z)
       end.
Proof.
  intros Hz fs'. subst fs'.
  unfold getEnginePortForCLI, getEnginePort, getPortFilePath,
    writeEnginePortForCLI, openPortFile, existsSync, writeFileSync.
  assert (Hne : text_eqb (wsFile wsRoot) (cliFile wsRoot) = false).
  { unfold getPortFilePathForWorkspace, getPortFilePathForCLI,
      getPortFilePathForTarget. rewrite app_nil_r.
    apply (text_eqb_suffix _ "."%char (str "cli")). }
  split.
  - rewrite text_eqb_refl. now rewrite toInteger_numToString.
  - rewrite Hne. destruct (fs (wsFile wsRoot)) as [content|] eqn:E; simpl.
    + rewrite Hne, E. reflexivity.
    + rewrite !text_eqb_refl. simpl. rewrite ?text_eqb_refl.
      change (str (NilZero.string_of_int (Z.to_int z)))
        with (numToString (Int z)).
      now rewrite toInteger_numToString.
Qed.

(** X19.  A port written by [writePort] of the workspace service, a whole
    number that a JavaScript number holds exactly, is what
    [DendronEngineClient.getPort] and [getEnginePort] read back, whatever the
    port file of the CLI says; and [getEnginePortForCLI] answers as it did
    before the write. *)
Theorem written_workspace_port_wins (z : Z) (wsRoot : text) (fs : FS) :
  (Z.abs z < 2 ^ 53)%Z ->
  let fs' := writePort pathJoin DENDRON_SERVER_PORT (Int z) wsRoot fs in
  getPort pathJoin DENDRON_SERVER_PORT toIntegerOther fs' wsRoot = Ok z
  /\ getEnginePort pathJoin DENDRON_SERVER_PORT DendronError create404Error
       toIntegerOther fs' wsRoot = Ok (RespData z)
  /\ getEnginePortForCLI pathJoin DENDRON_SERVER_PORT toIntegerOther fs'
       wsRoot
     = getEnginePortForCLI pathJoin DENDRON_SERVER_PORT toIntegerOther fs
         wsRoot.
Proof.
  intros Hz fs'. subst fs'.
  unfold getPort, getEnginePortForCLI, getEnginePort, getPortFilePath,
    writePort, openPortFile, existsSync, writeFileSync.
  assert (Hne : text_eqb (cliFile wsRoot) (wsFile wsRoot) = false).
  { unfold text_eqb. apply bool_decide_eq_false. intros E.
    unfold getPortFilePathForWorkspace, getPortFilePathForCLI,
      getPortFilePathForTarget in E.
    apply (f_equal (@length ascii)) in E. rewrite !length_app in E.
    simpl in E. lia. }
  rewrite !text_eqb_refl, Hne. simpl. rewrite ?text_eqb_refl.
  change (str (NilZero.string_of_int (Z.to_int z)))
    with (numToString (Int z)).
  rewrite toInteger_numToString by exact Hz. auto.
Qed.

Local Abbreviation attempt' := (attempt pathJoin DENDRON_SERVER_PORT
                               toIntegerOther Engine create).
Local Abbreviation tryEngine' := (tryEngine pathJoin DENDRON_SERVER_PORT
                                 toIntegerOther Engine create).

Lemma tryEngine_first world wsRoot : forall tries now,
  (forall k e,
      (k < tries)%nat ->
      attempt' (world (now + k)%nat) wsRoot = Ok e ->
      (forall j, (j < k)%nat ->
                 exists m, attempt' (world (now + j)%nat) wsRoot = Throw m) ->
      tryEngine' world wsRoot tries now = RespData e)
  /\ ((forall k, (k < tries)%nat ->
                 exists m, attempt' (world (now + k)%nat) wsRoot = Throw m) ->
      tryEngine' world wsRoot tries now = RespError "exceeded numTries").
Proof.
  induction tries as [|tries IH]; intros now; simpl.
  - split; [intros; lia | reflexivity].
  - destruct (IH (S now)) as [IH1 IH2]. split.
    + intros k e Hk He Hbefore. destruct k as [|k].
      * rewrite Nat.add_0_r in He. now rewrite He.
      * destruct (Hbefore 0%nat ltac:(lia)) as (m & Hm).
        rewrite Nat.add_0_r in Hm. rewrite Hm.
        apply (IH1 k e); [lia | |].
        -- now replace (S now + k)%nat with (now + S k)%nat by lia.
        -- intros j Hj. destruct (Hbefore (S j) ltac:(lia)) as (m' & Hm').
           exists m'.
           now replace (S now + j)%nat with (now + S j)%nat by lia.
    + intros Hall. destruct (Hall 0%nat ltac:(lia)) as (m & Hm).
      rewrite Nat.add_0_r in Hm. rewrite Hm. apply IH2.
      intros k Hk. destruct (Hall (S k) ltac:(lia)) as (m' & Hm').
      exists m'. now replace (S now + k)%nat with (now + S k)%nat by lia.
Qed.

(** X20.  [getEngine] makes up to [numTries] attempts, five when no number
    is given, and answers with the engine of the first attempt that finds
    the port file of the workspace and creates a client; when every attempt
    fails it answers with the error [exceeded numTries].  An attempt at a
    time when the workspace has no port file fails, whether or not the CLI
    has one. *)
Theorem getEngine_first_attempt_that_works
    (numTries : option Z) (world : nat -> FS) (wsRoot : text) :
  let tries := Z.to_nat (default 5%Z numTries) in
  let getEngine' :=
    getEngine pathJoin DENDRON_SERVER_PORT toIntegerOther Engine create in
  (forall k e,
      (k < tries)%nat ->
      attempt' (world k) wsRoot = Ok e ->
      (forall j, (j < k)%nat ->
                 exists m, attempt' (world j) wsRoot = Throw m) ->
      getEngine' numTries world wsRoot = RespData e)
  /\ ((forall k, (k < tries)%nat ->
                 exists m, attempt' (world k) wsRoot = Throw m) ->
      getEngine' numTries world wsRoot = RespError "exceeded numTries")
  /\ (forall k, world k (wsFile wsRoot) = None ->
                attempt' (world k) wsRoot = Throw "no port file")
  /\ getEngine' None world wsRoot = getEngine' (Some 5%Z) world wsRoot.
Proof.
  intros tries getEngine'. subst tries getEngine'. unfold getEngine.
  destruct (tryEngine_first world wsRoot
              (Z.to_nat (default 5%Z numTries)) 0) as [H1 H2].
  repeat split.
  - exact H1.
  - exact H2.
  - intros k Hk. unfold attempt, getPort, existsSync. now rewrite Hk.
Qed.

End PortFiles.

Lemma written_cli_port_is_read_back_witness :
  getEnginePortForCLI app (str ".dendron.port") (fun _ => 0%Z)
    (writeEnginePortForCLI app (str ".dendron.port") (Int 3005)
       (str "/ws/") (fun _ => None))
    (str "/ws/")
  = Ok 3005%Z.
Proof.
  apply (written_cli_port_is_read_back app (str ".dendron.port") unit
           (fun _ => tt) (fun _ => 0%Z) 3005 (str "/ws/") (fun _ => None)).
  reflexivity.
Defined.

Lemma written_workspace_port_wins_witness :
  getPort app (str ".dendron.port") (fun _ => 0%Z)
    (writePort app (str ".dendron.port") (Int 3005) (str "/ws/")
       (fun _ => None))
    (str "/ws/")
  = Ok 3005%Z.
Proof.
  apply (written_workspace_port_wins app (str ".dendron.port") unit
           (fun _ => tt) (fun _ => 0%Z) 3005 (str "/ws/") (fun _ => None)).
  reflexivity.
Defined.

End PortsFacts.

Module RefMarkerFacts.
Import JS Regex Utils RefMarker JSFacts RegexFacts UtilsFacts.

Lemma classPlus_inv {R} p : forall (s : text) (k : text -> option R) r,
  classPlus p s k = Some r ->
  exists n s', s = n ++ s' /\ n <> [] /\ forallb p n = true /\ k s' = Some r.
Proof.
  induction s as [|c s IH]; intros k r H; simpl in H; [discriminate|].
  destruct (p c) eqn:Hc; [|discriminate].
  destruct (classPlus p s k) as [r'|] eqn:Hs.
  - injection H as ->. apply IH in Hs as (n & s' & -> & _ & Hp & Hk).
    exists (c :: n), s'. repeat split; [discriminate| |exact Hk].
    simpl. now rewrite Hc.
  - exists [c], s. repeat split; [discriminate| |exact H].
    simpl. now rewrite Hc.
Qed.

Lemma run_group_classPlus_inv ci name p s cs k g :
  run ci (Group name (Group None (ClassPlus p))) s cs k = Some g ->
  exists n s',
    s = n ++ s' /\ n <> [] /\ forallb p n = true
    /\ k s' (setCapture name n cs) = Some g.
Proof.
  intros H. simpl in H.
  apply classPlus_inv in H as (n & s' & -> & Hn & Hp & Hk).
  rewrite firstn_prefix in Hk. exists n, s'. auto.
Qed.

Lemma caseless_open : caseless "[".
Proof. intros x. destruct x as [[] [] [] [] [] [] [] []]; reflexivity. Qed.

Lemma caseless_close : caseless "]".
Proof. intros x. destruct x as [[] [] [] [] [] [] [] []]; reflexivity. Qed.

Lemma run_Lit_inv ci c s cs k g :
  caseless c ->
  run ci (Lit c) s cs k = Some g ->
  exists s', s = c :: s' /\ k s' cs = Some g.
Proof.
  intros Hc H. simpl in H. destruct s as [|x s]; [discriminate|].
  rewrite Hc in H. rewrite Tauto.if_same in H.
  destruct (Ascii.eqb_spec x c) as [->|]; [|discriminate]. eauto.
Qed.

(** Whatever holds of the captures so far and is kept by adding a capture
    holds of the captures of the match. *)
Lemma run_keeps (P : captures -> Prop) g :
  (forall name v cs, P cs -> P (setCapture name v cs)) ->
  forall r ci s cs k,
    P cs ->
    (forall s' cs', P cs' -> k s' cs' = Some g -> P g) ->
    run ci r s cs k = Some g -> P g.
Proof.
  intros Hmono.
  induction r as [c|p|r1 IH1 r2 IH2|r IH|name r IH];
    intros ci s cs k Hcs Hk H; simpl in H.
  - destruct s as [|x s]; [discriminate|].
    destruct (if ci then _ else _); [|discriminate]. eapply Hk; eauto.
  - apply classPlus_inv in H as (n & s' & _ & _ & _ & H). eapply Hk; eauto.
  - eapply IH1; [exact Hcs| |exact H].
    intros s' cs' Hcs' H'. eapply IH2; [exact Hcs'|exact Hk|exact H'].
  - destruct (run ci r s cs k) as [c|] eqn:E.
    + injection H as ->. eapply IH; [exact Hcs|exact Hk|exact E].
    + eapply Hk; eauto.
  - eapply IH; [exact Hcs| |exact H].
    intros s' cs' Hcs' H'. eapply Hk; [|exact H']. now apply Hmono.
Qed.

Lemma exec_inv ci r : forall s g,
  exec ci r s = Some g ->
  exists pre s0,
    s = pre ++ s0 /\ run ci r s0 [] (fun _ c => Some c) = Some g.
Proof.
  induction s as [|x s IH]; intros g H; simpl in H.
  - destruct (run ci r [] [] _) eqn:E; [|discriminate].
    injection H as ->. exists [], []. auto.
  - destruct (run ci r (x :: s) [] _) eqn:E.
    + injection H as ->. exists [], (x :: s). auto.
    + apply IH in H as (pre & s0 & -> & H). exists (x :: pre), s0. auto.
Qed.

Lemma exec_later ci r s0 g0 : forall pre,
  run ci r s0 [] (fun _ c => Some c) = Some g0 ->
  exists g, exec ci r (pre ++ s0) = Some g.
Proof.
  intros pre H. induction pre as [|x pre IH].
  - exists g0. now apply exec_first.
  - simpl. destruct (run ci r (x :: pre ++ s0) [] _); eauto.
Qed.

Lemma named_setCapture name v cs : named cs -> named (setCapture name v cs).
Proof.
  intros (w & Hw). destruct name as [k|]; [|now exists w].
  unfold named, getCapture. simpl.
  destruct (String.eqb k "name"); [now exists v | now exists w].
Qed.

Lemma run_reLink_inv s g :
  run true reLink s [] (fun _ c => Some c) = Some g ->
  named g
  /\ exists name post,
       s = str "[[" ++ name ++ str "]]" ++ post
       /\ name <> [] /\ forallb wikiChar name = true.
Proof.
  unfold reLink, seq. simpl fold_right. intros H.
  rewrite run_Cat in H.
  apply run_Lit_inv in H as (s1 & -> & H); [|exact caseless_open].
  rewrite run_Cat in H.
  apply run_Lit_inv in H as (s2 & -> & H); [|exact caseless_open].
  rewrite run_Cat in H.
  apply run_group_classPlus_inv in H as (n & s3 & -> & Hn & Hp & H).
  rewrite run_Cat in H.
  apply run_Lit_inv in H as (s4 & -> & H); [|exact caseless_close].
  rewrite run_Cat in H.
  apply run_Lit_inv in H as (s5 & -> & H); [|exact caseless_close].
  split.
  - eapply (run_keeps named g named_setCapture); [| |exact H].
    + exists n. reflexivity.
    + intros s' cs' Hcs' [= <-]. exact Hcs'.
  - exists n, s5. auto.
Qed.

Lemma run_Opt_total ci r s cs (k : text -> captures -> option captures) :
  (exists g, k s cs = Some g) -> exists g, run ci (Opt r) s cs k = Some g.
Proof. intros (g & Hg). simpl. destruct (run ci r s cs k); eauto. Qed.

Lemma run_reLink_bracketed name post :
  name <> [] -> forallb wikiChar name = true ->
  exists g,
    run true reLink (str "[[" ++ name ++ str "]]" ++ post) []
      (fun _ c => Some c) = Some g.
Proof.
  intros Hn Hp. unfold reLink, seq. simpl fold_right.
  change (str "[[" ++ name ++ str "]]" ++ post)
    with ("["%char :: "["%char :: name ++ "]"%char :: "]"%char :: post).
  destruct (run_Opt_total true (Group None reAnchors) post [("name", name)]
              (fun _ c => Some c)) as (g & E); [eauto|].
  exists g. rewrite run_Cat, run_Lit, run_Cat, run_Lit, run_Cat.
  apply run_group_classPlus; [exact Hn | exact Hp | reflexivity |].
  rewrite run_Cat, run_Lit, run_Cat, run_Lit. exact E.
Qed.

(** X21.  [parseFileLink] returns a link exactly when the text has
    [[[name]]] in it for a name that is not empty and has neither [ ] ] nor
    [:]; on every other text it throws, the fname being undefined. *)
Theorem parseFileLink_needs_bracketed_name (ref : text) :
  (bracketed ref -> exists link, parseFileLink ref = Ok link)
  /\ (~ bracketed ref -> parseFileLink ref = Throw "fname is undefined").
Proof.
  split.
  - intros (pre & name & post & -> & Hn & Hp).
    destruct (run_reLink_bracketed name post Hn Hp) as (g0 & Hg0).
    destruct (exec_later true reLink _ g0 pre Hg0) as (g & Hg).
    destruct (exec_inv _ _ _ _ Hg) as (pre' & s0 & _ & Hrun).
    apply run_reLink_inv in Hrun as [(v & Hv) _].
    unfold parseFileLink. rewrite Hg. cbn [mbind option_bind].
    rewrite Hv. cbn [mbind option_bind]. eauto.
  - intros Hno. unfold parseFileLink.
    destruct (exec true reLink ref) as [g|] eqn:Hg; [|reflexivity].
    exfalso. apply Hno.
    destruct (exec_inv _ _ _ _ Hg) as (pre & s0 & -> & Hrun).
    apply run_reLink_inv in Hrun as [_ (name & post & -> & Hn & Hp)].
    exists pre, name, post. auto.
Qed.

Lemma refLink2String_parts f dt aS aE aO lt paren tag :
  refLink2String
    {| fromFname := f;
       data := {| dataType := dt; anchorStart := aS; anchorEnd := aE;
                  anchorStartOffset := aO |};
       linkType := lt |} (refOpts paren tag)
  = (if paren then str "((" else [])
    ++ ((if tag then str "ref: " else [])
        ++ str "[[" ++ f ++ str "]]"
        ++ (if truthy aS then str "#" ++ normalize (default [] aS) else [])
        ++ match aO with
           | Some n => if truthyNum n then str "," ++ numToString n else []
           | None => []
           end
        ++ (if truthy aE then str ":#" ++ normalize (default [] aE) else []))
    ++ (if paren then str "))" else []).
Proof.
  unfold refLink2String. cbn [cleanOpts refOpts includeParen
    includeRefTag data anchorStart anchorEnd anchorStartOffset fromFname].
  destruct paren, tag, (truthy aS); destruct aO as [n|];
    try destruct (truthyNum n);
    destruct (truthy aE); cbn [join app];
    rewrite <- ?app_assoc, ?app_nil_r; reflexivity.
Qed.

Lemma notParen_lower c :
  memChar c (str ")") = false -> notParen (lowerChar c) = true.
Proof. intros H. ascii_cases c. Qed.

Lemma notParen_normalize a :
  noneOf ")" a = true -> forallb notParen (normalize a) = true.
Proof.
  intros Ha. unfold normalize, toLower, trimChars.
  apply forallb_forall. intros c Hc.
  apply in_map_iff in Hc as (x & <- & Hx). apply notParen_lower.
  eapply noneOf_In; [exact Ha|].
  destruct (trimWith_spec (fun c => memChar c (str " #")) a)
    as ((pre & post & E & _) & _).
  rewrite E. apply in_or_app. right. apply in_or_app. now left.
Qed.

Lemma notParen_numChar c : isNumChar c = true -> notParen c = true.
Proof. intros H. ascii_cases c. Qed.

Lemma notParen_numToString n : forallb notParen (numToString n) = true.
Proof.
  destruct n as [z|]; [|reflexivity].
  destruct (numToString_chars z) as [_ Hc].
  apply forallb_forall. intros c Hin.
  rewrite forallb_forall in Hc. now apply notParen_numChar, Hc.
Qed.

Lemma matchRefMarker_paren (body : text) :
  body <> [] -> forallb notParen body = true ->
  matchRefMarker (str "((" ++ body ++ str "))") = Some [("ref", body)].
Proof.
  intros Hb Hp. unfold matchRefMarker. apply exec_first.
  unfold reRefMarker, seq. simpl fold_right.
  change (str "((" ++ body ++ str "))")
    with ("("%char :: "("%char :: body ++ str "))").
  rewrite run_Cat, run_Lit, run_Cat, run_Lit, run_Cat.
  cbn [run]. apply classPlus_greedy; [exact Hb | exact Hp | reflexivity |].
  rewrite firstn_prefix. reflexivity.
Qed.

(** X22.  In the text of a reference link written with parentheses,
    [matchRefMarker] finds the marker, and its group [ref] is the text of the
    same link written without them, whenever neither the fname nor an anchor
    of the link has a closing parenthesis. *)
Theorem matchRefMarker_finds_parenthesised_link
    (link : DNoteRefLink) (tag : bool) :
  parenFree link ->
  exists g,
    matchRefMarker (refLink2String link (refOpts true tag)) = Some g
    /\ getCapture "ref" g = Some (refLink2String link (refOpts false tag)).
Proof.
  destruct link as [f [dt aS aE aO] lt]. unfold parenFree. simpl.
  intros (Hf & Hs & He).
  rewrite (refLink2String_parts f dt aS aE aO lt true tag).
  rewrite (refLink2String_parts f dt aS aE aO lt false tag).
  cbn [app]. rewrite app_nil_r.
  set (body := (if tag then str "ref: " else []) ++ _).
  assert (Hne : body <> []) by (subst body; destruct tag; discriminate).
  assert (Hp : forallb notParen body = true).
  { subst body. rewrite !forallb_app.
    assert (Hfn : forallb notParen f = true).
    { eapply noneOf_weaken; [|exact Hf]. intros c Hc.
      unfold notParen. unfold memChar in Hc. simpl in Hc.
      rewrite orb_false_r in Hc. now rewrite Hc. }
    rewrite Hfn.
    replace (forallb notParen (if tag then str "ref: " else []))
      with true by (now destruct tag).
    replace (forallb notParen
               (if truthy aS then str "#" ++ normalize (default [] aS)
                else [])) with true
      by (destruct (truthy aS); [|reflexivity]; simpl;
          now rewrite notParen_normalize).
    replace (forallb notParen
               (if truthy aE then str ":#" ++ normalize (default [] aE)
                else [])) with true
      by (destruct (truthy aE); [|reflexivity]; simpl;
          now rewrite notParen_normalize).
    replace (forallb notParen
               match aO with
               | Some n =>
                   if truthyNum n then str "," ++ numToString n else []
               | None => []
               end) with true
      by (destruct aO as [n|]; [|reflexivity];
          destruct (truthyNum n); [|reflexivity]; simpl;
          now rewrite notParen_numToString).
    reflexivity. }
  exists [("ref", body)]. split; [|reflexivity].
  now apply (matchRefMarker_paren body).
Qed.

Lemma matchRefMarker_finds_parenthesised_link_witness :
  exists g,
    matchRefMarker
      (refLink2String (refLink "foo" (Some "head") None None)
         (refOpts true true)) = Some g
    /\ getCapture "ref" g = Some (str "ref: [[foo]]#head").
Proof.
  apply (matchRefMarker_finds_parenthesised_link
           (refLink "foo" (Some "head") None None) true).
  repeat split.
Defined.

Lemma dropWhile_map p (f : ascii -> ascii) t :
  (forall c, p (f c) = p c) ->
  dropWhile p (map f t) = map f (dropWhile p t).
Proof.
  intros H. induction t as [|c t IH]; simpl; [reflexivity|].
  rewrite H. destruct (p c); [exact IH | reflexivity].
Qed.

Lemma trimWith_map p (f : ascii -> ascii) t :
  (forall c, p (f c) = p c) ->
  trimWith p (map f t) = map f (trimWith p t).
Proof.
  intros H. unfold trimWith, dropWhileEnd.
  now rewrite dropWhile_map, <- map_rev, dropWhile_map, map_rev.
Qed.

Lemma trimWith_idem p t : trimWith p (trimWith p t) = trimWith p t.
Proof.
  destruct (trimWith_spec p t) as (_ & Hh & Hl).
  now apply trimWith_id.
Qed.

Lemma lowerChar_idem c : lowerChar (lowerChar c) = lowerChar c.
Proof. destruct c as [[] [] [] [] [] [] [] []]; reflexivity. Qed.

Lemma isSpaceOrHash_lower c :
  memChar (lowerChar c) (str " #") = memChar c (str " #").
Proof. destruct c as [[] [] [] [] [] [] [] []]; reflexivity. Qed.

(** X23.  [normalize] gives a text that it leaves as it is: normalizing
    twice is normalizing once.  The text it gives neither starts nor ends
    with a space or a [#], and lower-casing changes none of its
    characters. *)
Theorem normalize_idempotent (t : text) :
  normalize (normalize t) = normalize t
  /\ (forall c rest, normalize t = c :: rest -> isSpaceOrHash c = false)
  /\ (forall init c, normalize t = init ++ [c] -> isSpaceOrHash c = false)
  /\ (forall c, In c (normalize t) -> lowerChar c = c).
Proof.
  unfold normalize, trimChars, toLower.
  assert (E : trimWith (fun c => memChar c (str " #"))
                (map lowerChar (trimWith (fun c => memChar c (str " #")) t))
              = map lowerChar (trimWith (fun c => memChar c (str " #")) t)).
  { rewrite trimWith_map by exact isSpaceOrHash_lower.
    now rewrite trimWith_idem. }
  repeat split.
  - rewrite E, map_map. apply map_ext. intros c. apply lowerChar_idem.
  - intros c rest H. rewrite <- E in H.
    exact (proj1 (proj2 (trimWith_spec _ _)) c rest H).
  - intros init c H. rewrite <- E in H.
    exact (proj2 (proj2 (trimWith_spec _ _)) init c H).
  - intros c Hc. apply in_map_iff in Hc as (x & <- & _).
    apply lowerChar_idem.
Qed.

End RefMarkerFacts.

Module MoveNoteFacts.
Import Model MoveNote.

Lemma lowerName_same f : JS.text_eqb (lowerName f) (lowerName f) = true.
Proof. unfold JS.text_eqb. now apply bool_decide_eq_true. Qed.

Lemma isMoveNecessary_moveTo d item :
  isMoveNecessary (moveTo d item) = outside d item.
Proof.
  unfold isMoveNecessary, moveTo, outside. simpl.
  now rewrite lowerName_same, orb_false_r.
Qed.

(** X24.  When several items are picked, the moves are one per item, to
    the vault named in the first answer of the accept hook and with the
    fname kept; the moves that [moveNotes] takes to the engine are those of
    the items whose vault has another name than the destination, in the order
    of the selection. *)
Theorem multi_move_leaves_notes_of_the_destination
    (data : LookupResp) (first : RenameNoteOpts)
    (more : list RenameNoteOpts) :
  (2 <= length (selectedItems data))%nat ->
  onAcceptHookResp data = first :: more ->
  let d := vaultName (newLoc first) in
  exists moves,
    getDesiredMoves data = Ok moves
    /\ moves = map (moveTo d) (selectedItems data)
    /\ List.filter isMoveNecessary moves
       = map (moveTo d) (List.filter (outside d) (selectedItems data)).
Proof.
  intros Hlen Hresp d. subst d. unfold getDesiredMoves. rewrite Hresp.
  destruct (selectedItems data) as [|a [|b items]]; simpl in Hlen; try lia.
  eexists. split; [reflexivity|]. split; [reflexivity|].
  generalize (a :: b :: items). intros l.
  induction l as [|x l IH]; simpl; [reflexivity|].
  rewrite isMoveNecessary_moveTo.
  destruct (outside (vaultName (newLoc first)) x); simpl; now rewrite IH.
Qed.

Section Engine.
Variable Engine : Type.
Variable renameNote :
  Engine -> RenameNoteOpts -> result (list NoteChangeEntry * Engine).

(** X25.  A move within one vault between fnames that differ only in the
    case of their letters is never taken to the engine: the result of
    [moveNotes], and the state of the engine after it, are as if the move
    were not in the list. *)
Theorem case_only_rename_is_skipped
    (engine : Engine) (before after : list RenameNoteOpts)
    (move : RenameNoteOpts) :
  vaultName (oldLoc move) = vaultName (newLoc move) ->
  lowerName (locFname (oldLoc move)) = lowerName (locFname (newLoc move)) ->
  moveNotes Engine renameNote engine (before ++ move :: after)
  = moveNotes Engine renameNote engine (before ++ after).
Proof.
  intros Hv Hf. unfold moveNotes. rewrite !List.filter_app. simpl.
  assert (H : isMoveNecessary move = false).
  { unfold isMoveNecessary. rewrite Hf, Hv.
    rewrite bool_decide_eq_true_2 by reflexivity.
    unfold JS.text_eqb. now rewrite bool_decide_eq_true_2. }
  now rewrite H.
Qed.

End Engine.

Lemma multi_move_leaves_notes_of_the_destination_witness :
  exists moves,
    getDesiredMoves
      {| selectedItems := [Examples.noteA; Examples.noteB];
         onAcceptHookResp :=
           [moveTo (Some "v2") Examples.noteA] |} = Ok moves
    /\ List.filter isMoveNecessary moves = moves.
Proof.
  destruct (multi_move_leaves_notes_of_the_destination
              {| selectedItems := [Examples.noteA; Examples.noteB];
                 onAcceptHookResp := [moveTo (Some "v2") Examples.noteA] |}
              (moveTo (Some "v2") Examples.noteA) [])
    as (moves & H1 & H2 & H3).
  - simpl. lia.
  - reflexivity.
  - exists moves. split; [exact H1|]. rewrite H3, H2. reflexivity.
Defined.

Lemma case_only_rename_is_skipped_witness :
  moveNotes unit (fun e _ => Ok ([], e)) tt
    [ {| oldLoc := {| locFname := "Foo"; vaultName := Some "v1" |};
         newLoc := {| locFname := "foo"; vaultName := Some "v1" |} |} ]
  = Ok ([], tt).
Proof.
  apply (case_only_rename_is_skipped unit (fun e _ => Ok ([], e)) tt [] []
           {| oldLoc := {| locFname := "Foo"; vaultName := Some "v1" |};
              newLoc := {| locFname := "foo"; vaultName := Some "v1" |} |});
    reflexivity.
Defined.

End MoveNoteFacts.

(* ===================================================================== *)
(** ** More about the actions of the doctor                                *)
(* ===================================================================== *)

Module DoctorActions.
Import Model Doctor DoctorViews DoctorFacts.

Section Service.
Variable genUUID : nat -> string.
Variable remark :
  RemarkPlugin -> DEngineClient -> NoteProps ->
  NoteProps * string * list NoteChangeEntry.
Variable addMissingDefaults : DEngineClient -> Backfill.

Local Abbreviation execute :=
  (executeDoctorActions genUUID remark addMissingDefaults).

(** X26.  The action that creates missing linked notes always returns.
    It processes the destinations of the broken links in order, as many as
    the limit allows (none when the limit is not positive), and counts one
    change for each.  When it is not a dry run it asks the engine once per
    processed destination for the note at its fname in its vault, to be
    created if new, the vault being undefined when the workspace has no vault
    of the name that the link gives; on a dry run it makes no call, and
    counts the same changes.  The candidate notes are left as they are. *)
Theorem createMissing_asks_once_per_destination
    (opts : DoctorServiceOpts) (next : nat) :
  action opts = CREATE_MISSING_LINKED_NOTES ->
  let dests :=
    fst (getBrokenLinkDestinations genUUID (candidateNotes opts)
           (engine opts) next) in
  let k := Nat.min (length dests) (Z.to_nat (default 99999 (limit opts))) in
  exists out,
    execute opts next = Ok out
    /\ destinations out = firstn k dests
    /\ numChanges (run out) = Z.of_nat k
    /\ calls (run out)
       = (if dryRun opts then [] else map createCall (firstn k dests))
    /\ notesAfter out = candidateNotes opts
    /\ processed (run out) = [].
Proof.
  intros Ha dests k. subst dests k. unfold executeDoctorActions. rewrite Ha.
  fold (candidateNotes opts).
  destruct (getBrokenLinkDestinations genUUID (candidateNotes opts)
              (engine opts) next) as [dests next'].
  unfold perDestination.
  pose proof (forDestinations_spec (dryRun opts)
                (default 99999 (limit opts)) dests (initRun next'))
    as (H1 & H2 & H3 & H4 & _).
  destruct (forDestinations _ _ dests (initRun next')) as [done r'].
  simpl in *. rewrite Z.sub_0_r in *.
  eexists. split; [reflexivity|]. simpl. auto.
Qed.

(** X27.  A run of a heading action ([H1_TO_TITLE] with the processor
    [h1ToTitle], [HI_TO_H2] with [h1ToH2]) that is not a dry run has the
    engine write, with [updateExisting], exactly the processed notes for
    which the processor recorded a change, in order, and counts one change
    for each.  Every processed note, changed or not, comes back as the
    processor left it with the printed text as its body; the candidates
    after them are untouched. *)
Theorem heading_actions_write_changed_notes
    (opts : DoctorServiceOpts) (plugin : RemarkPlugin) (next : nat)
    (out : Output) :
  (action opts = H1_TO_TITLE /\ plugin = h1ToTitle
   \/ action opts = HI_TO_H2 /\ plugin = h1ToH2) ->
  dryRun opts = false ->
  execute opts next = Ok out ->
  let P := processed (run out) in
  calls (run out)
  = map (fun n => writeNote (rewritten remark plugin (engine opts) n)
                    None true)
      (List.filter (changedBy remark plugin (engine opts)) P)
  /\ numChanges (run out) = Z.of_nat (length (calls (run out)))
  /\ notesAfter out
     = map (rewritten remark plugin (engine opts)) P
       ++ skipn (length P) (candidateNotes opts).
Proof.
  intros Ha Hdry. unfold executeDoctorActions. rewrite Hdry.
  fold (candidateNotes opts).
  assert (Hper :
    perNote (default true (exit opts)) false
      (headingAction remark plugin false (engine opts))
      (default 99999 (limit opts)) (candidateNotes opts) (initRun next)
    = Ok out ->
    let P := processed (run out) in
    calls (run out)
    = map (fun n => writeNote (rewritten remark plugin (engine opts) n)
                      None true)
        (List.filter (changedBy remark plugin (engine opts)) P)
    /\ numChanges (run out) = Z.of_nat (length (calls (run out)))
    /\ notesAfter out
       = map (rewritten remark plugin (engine opts)) P
         ++ skipn (length P) (candidateNotes opts)).
  { unfold perNote.
    destruct (forNotes_heading remark plugin (engine opts)
                (default 99999 (limit opts)) (candidateNotes opts)
                (initRun next)) as (P & H1 & H2 & H3 & H4).
    destruct (forNotes _ _ (candidateNotes opts) (initRun next))
      as [notes' r'].
    simpl in *. intros [= <-]. simpl.
    rewrite H1, H2, H3, H4, length_map. auto. }
  destruct Ha as [[-> ->] | [-> ->]]; exact Hper.
Qed.

End Service.

Lemma createMissing_asks_once_per_destination_witness :
  exists out,
    Examples.doctor
      (Examples.options CREATE_MISSING_LINKED_NOTES Examples.oneVault
         (Some [Examples.stray]) None) 0 = Ok out
    /\ numChanges (run out) = 1
    /\ calls (run out) = [getNoteByPath "lost" true None].
Proof.
  destruct (createMissing_asks_once_per_destination Examples.gen
              Examples.idle Examples.complete
              (Examples.options CREATE_MISSING_LINKED_NOTES
                 Examples.oneVault (Some [Examples.stray]) None) 0 eq_refl)
    as (out & H1 & _ & H3 & H4 & _).
  exists out. split; [exact H1|]. split; [exact H3 | exact H4].
Defined.

(** With a processor that records a change for the note with a body, a
    run writes that note and not the blank one. *)
Lemma heading_actions_write_changed_notes_witness :
  exists out,
    executeDoctorActions Examples.gen Examples.blanking Examples.complete
      (Examples.options H1_TO_TITLE Examples.oneVault None None) 0 = Ok out
    /\ calls (run out) = [writeNote (setBody Examples.noteA "") None true]
    /\ numChanges (run out) = 1.
Proof.
  destruct (executeDoctorActions Examples.gen Examples.blanking
              Examples.complete
              (Examples.options H1_TO_TITLE Examples.oneVault None None) 0)
    as [out|m] eqn:E; [|vm_compute in E; discriminate].
  exists out. split; [reflexivity|].
  destruct (heading_actions_write_changed_notes Examples.gen
              Examples.blanking Examples.complete
              (Examples.options H1_TO_TITLE Examples.oneVault None None)
              h1ToTitle 0 out (or_introl (conj eq_refl eq_refl)) eq_refl E)
    as (H1 & H2 & _).
  rewrite H2, H1. vm_compute in E. injection E as <-. split; reflexivity.
Defined.

End DoctorActions.

Module LocalOnlyFacts.
Import JS Regex Utils LocalOnly JSFacts RegexFacts RefMarkerFacts.

(** A match takes a prefix of the text. *)
Lemma run_consumes g : forall r ci s cs k,
  run ci r s cs k = Some g ->
  exists m s' cs', s = m ++ s' /\ k s' cs' = Some g.
Proof.
  induction r as [c|p|r1 IH1 r2 IH2|r IH|name r IH];
    intros ci s cs k H; simpl in H.
  - destruct s as [|x s]; [discriminate|].
    destruct (if ci then _ else _); [|discriminate].
    exists [x], s, cs. auto.
  - apply classPlus_inv in H as (n & s' & -> & _ & _ & H).
    exists n, s', cs. auto.
  - apply IH1 in H as (m1 & s1 & c1 & -> & H).
    apply IH2 in H as (m2 & s2 & c2 & -> & H).
    exists (m1 ++ m2), s2, c2. now rewrite <- app_assoc.
  - destruct (run ci r s cs k) as [c|] eqn:E.
    + injection H as ->. now apply IH in E.
    + exists [], s, cs. auto.
  - apply IH in H as (m & s' & c' & -> & H). eauto.
Qed.

Lemma run_reLocalOnly s g :
  run false reLocalOnly s [] (fun _ c => Some c) = Some g ->
  exists raw post,
    s = raw ++ post /\ raw <> [] /\ getCapture "raw" g = Some raw.
Proof.
  unfold reLocalOnly. intros H. cbn [run] in H.
  apply classPlus_inv in H as (n & s1 & -> & Hn & _ & H).
  apply run_consumes in H as (m & s2 & c2 & -> & H).
  injection H as <-.
  exists (n ++ m), s2. split; [now rewrite <- app_assoc|].
  split; [destruct n; [contradiction | discriminate]|].
  rewrite app_assoc, firstn_prefix. reflexivity.
Qed.

Lemma isPrefix_spec p : forall t,
  isPrefix p t = true <-> exists rest, t = p ++ rest.
Proof.
  induction p as [|a p IH]; intros t; simpl.
  - split; eauto.
  - destruct t as [|b t].
    + split; [discriminate | intros (rest & E); discriminate].
    + rewrite andb_true_iff, IH. split.
      * intros [Hab (rest & ->)]. apply Ascii.eqb_eq in Hab. subst.
        now exists rest.
      * intros (rest & [= -> ->]). split; [apply Ascii.eqb_refl|eauto].
Qed.

Lemma removeFirst_length pat : forall doc pre post,
  doc = pre ++ pat ++ post ->
  length (removeFirst pat doc) = (length doc - length pat)%nat.
Proof.
  induction doc as [|c doc IH]; intros pre post E; simpl.
  - destruct (isPrefix pat []); [now rewrite skipn_nil|].
    reflexivity.
  - destruct (isPrefix pat (c :: doc)) eqn:Hp.
    + rewrite length_skipn. reflexivity.
    + destruct pre as [|x pre].
      * simpl in E. assert (isPrefix pat (c :: doc) = true)
          by (apply isPrefix_spec; eauto). congruence.
      * injection E as -> ->. simpl.
        rewrite (IH pre post eq_refl).
        rewrite !length_app. destruct (length pat); lia.
Qed.

Lemma stripLocalOnlyTags_ends : forall n fuel doc,
  (length doc <= n)%nat -> (length doc <= fuel)%nat ->
  exists out,
    stripLocalOnlyTags fuel doc = Some out
    /\ exec false reLocalOnly out = None
    /\ (length out <= length doc)%nat
    /\ (exec false reLocalOnly doc = None -> out = doc).
Proof.
  induction n as [|n IH]; intros fuel doc Hn Hfuel.
  - destruct doc; [|simpl in Hn; lia].
    exists []. destruct fuel; simpl; auto.
  - destruct (exec false reLocalOnly doc) as [g|] eqn:Hg.
    + destruct (exec_inv _ _ _ _ Hg) as (pre & s0 & -> & Hrun).
      apply run_reLocalOnly in Hrun as (raw & post & -> & Hraw & Hcap).
      assert (Hlen : length (removeFirst raw (pre ++ raw ++ post))
                     = (length (pre ++ raw ++ post) - length raw)%nat)
        by (eapply removeFirst_length; reflexivity).
      assert (Hpos : (0 < length raw)%nat)
        by (destruct raw; [contradiction | simpl; lia]).
      assert (Hdoc : (length raw <= length (pre ++ raw ++ post))%nat)
        by (rewrite !length_app; lia).
      destruct fuel as [|fuel]; [lia|].
      destruct (IH fuel (removeFirst raw (pre ++ raw ++ post)))
        as (out & H1 & H2 & H3 & _); [lia | lia |].
      exists out. cbn [stripLocalOnlyTags]. rewrite Hg, Hcap.
      cbn [default from_option id]. split; [exact H1|].
      split; [exact H2|]. split; [lia | discriminate].
    + exists doc. destruct fuel; simpl; rewrite Hg; auto.
Qed.

(** X28.  The loop of [stripLocalOnlyTags] ends: given as many turns as
    the document has characters it returns, and what it returns has no match
    left for a run of characters followed by the local-only marker on one
    line, is no longer than the document, and is the document itself when
    the document has no match. *)
Theorem stripLocalOnlyTags_strips_every_match (fuel : nat) (doc : text) :
  (length doc <= fuel)%nat ->
  exists out,
    stripLocalOnlyTags fuel doc = Some out
    /\ exec false reLocalOnly out = None
    /\ (length out <= length doc)%nat
    /\ (exec false reLocalOnly doc = None -> out = doc).
Proof.
  intros Hfuel. now apply (stripLocalOnlyTags_ends (length doc)).
Qed.

Lemma stripLocalOnlyTags_strips_every_match_witness :
  stripLocalOnlyTags 30 (str "a<!--LOCAL_ONLY_LINE-->b") = Some (str "b").
Proof.
  destruct (stripLocalOnlyTags_strips_every_match 30
              (str "a<!--LOCAL_ONLY_LINE-->b")) as (out & H & _).
  - simpl. lia.
  - rewrite H. vm_compute in H. injection H as <-. reflexivity.
Defined.

End LocalOnlyFacts.
